(** * Desktop Commander: scoped file access and search

    A shallow embedding of the path gate ([utils/security.ts],
    [utils/windowsPathFix.ts], [tools/filesystem.ts]), of the line-addressable
    reader ([tools/filesystem.ts]), of the ripgrep availability probe and the
    two content-search engines ([tools/search.ts]), of the file-name walker
    and of [readMultipleFiles] ([tools/filesystem.ts]), of the screening of
    directories ([utils/security.ts]) and of the growth of the allowed set
    ([tools/config.ts]), with the properties the specification states about
    them and further properties read off the code.

    Conventions.  A JavaScript string is a [string] (paths, names, the files
    a search scans) or a [list ascii] (the files the reader reads and the
    lines cut from them); characters are single bytes, so the UTF-8 decoding
    of a file is the identity.  A JavaScript
    number used as an index or a count is a [Z] where it can be negative and a
    [nat] otherwise.  Asynchronous code is written in direct style; the
    settled value of a promise is a sum or an inductive outcome.  Node's
    [path], [os] and [fs] modules are not part of the repository: the theorems
    quantify over them (record [Host], record [Disk]) and the POSIX instance
    [posix] is used to run the code on concrete inputs. *)

From Stdlib Require Import List String Ascii ZArith Lia Bool Arith DecimalString.
From Equations Require Import Equations.
Import ListNotations.

Set Implicit Arguments.
Unset Strict Implicit.

(* ===================================================================== *)
(** ** JavaScript string primitives used by the sources                   *)
(* ===================================================================== *)

Module JsString.

Local Open Scope string_scope.

(** [s.startsWith(p)]. *)
Definition startsWith (s p : string) : bool := String.prefix p s.

(** [s.includes(needle)]. *)
Fixpoint includes (s needle : string) : bool :=
  String.prefix needle s ||
  match s with
  | EmptyString => false
  | String _ rest => includes rest needle
  end.

(** [s.slice(1)]. *)
Definition slice1 (s : string) : string :=
  match s with
  | EmptyString => EmptyString
  | String _ rest => rest
  end.

Definition is_lower (c : ascii) : bool :=
  let n := nat_of_ascii c in (97 <=? n)%nat && (n <=? 122)%nat.

Definition is_upper (c : ascii) : bool :=
  let n := nat_of_ascii c in (65 <=? n)%nat && (n <=? 90)%nat.

Definition lower_char (c : ascii) : ascii :=
  if is_upper c then ascii_of_nat (nat_of_ascii c + 32) else c.

Definition upper_char (c : ascii) : ascii :=
  if is_lower c then ascii_of_nat (nat_of_ascii c - 32) else c.

(** [s.toLowerCase()], on the ASCII range. *)
Fixpoint toLowerCase (s : string) : string :=
  match s with
  | EmptyString => EmptyString
  | String c rest => String (lower_char c) (toLowerCase rest)
  end.

(** [xs.join(sep)]. *)
Fixpoint join (sep : string) (xs : list string) : string :=
  match xs with
  | [] => ""
  | [x] => x
  | x :: rest => x ++ sep ++ join sep rest
  end.

(** [s.split(c)] for a one-character separator: never empty. *)
Fixpoint splitAcc (c : ascii) (s cur : string) : list string :=
  match s with
  | EmptyString => [cur]
  | String a rest =>
      if Ascii.eqb a c then cur :: splitAcc c rest ""
      else splitAcc c rest (cur ++ String a "")
  end.

Definition split (c : ascii) (s : string) : list string := splitAcc c s "".

(** The last character of a string, if any. *)
Fixpoint lastChar (s : string) : option ascii :=
  match s with
  | EmptyString => None
  | String c EmptyString => Some c
  | String _ rest => lastChar rest
  end.

End JsString.

(* ===================================================================== *)
(** ** The host: Node's [path] and [os] modules, and the disk             *)
(* ===================================================================== *)

(** What the sources call on [path], [os] and [process].  [path_resolve] is
    [path.resolve] with one argument and [path_resolve_from] with two. *)
Record Host : Type := {
  win32 : bool;                                (* os.platform() === 'win32' *)
  path_sep : string;                           (* path.sep *)
  path_normalize : string -> string;
  path_resolve : string -> string;
  path_resolve_from : string -> string -> string;
  path_isAbsolute : string -> bool;
  path_join : string -> string -> string;
  path_dirname : string -> string;
  os_homedir : string;
  process_cwd : string
}.

(** What the sources call on [fs] when validating: [fs.stat] succeeds or
    throws, [fs.realpath] returns the resolved path or throws. *)
Record Disk : Type := {
  fs_stat : string -> bool;
  fs_realpath : string -> option string
}.

(** *** Node's [path.posix], as documented, to run the gate on real inputs *)

Module PosixPath.

Import JsString.
Local Open Scope string_scope.

Definition slash : ascii := "/"%char.

(** One segment of [normalizeString]; [res] holds the kept segments, last
    segment first. *)
Definition normalizeStep (allowAboveRoot : bool) (res : list string)
  (seg : string) : list string :=
  if (seg =? "") || (seg =? ".") then res
  else if seg =? ".." then
    match res with
    | last :: rest =>
        if last =? ".." then (if allowAboveRoot then ".." :: res else res)
        else rest
    | [] => if allowAboveRoot then [".."] else []
    end
  else seg :: res.

Definition normalizeString (p : string) (allowAboveRoot : bool) : string :=
  join "/" (rev (fold_left (normalizeStep allowAboveRoot) (split slash p) [])).

Definition isAbsolute (p : string) : bool :=
  match p with
  | String c _ => Ascii.eqb c slash
  | EmptyString => false
  end.

Definition hasTrailingSlash (p : string) : bool :=
  match lastChar p with
  | Some c => Ascii.eqb c slash
  | None => false
  end.

Definition normalize (p : string) : string :=
  if p =? "" then "."
  else
    let abs := isAbsolute p in
    let trailing := hasTrailingSlash p in
    let body := normalizeString p (negb abs) in
    if body =? "" then
      (if abs then "/" else if trailing then "./" else ".")
    else
      let body := if trailing then body ++ "/" else body in
      if abs then "/" ++ body else body.

(** [path.resolve(...args)]: the arguments are taken from the right until an
    absolute one is met, then the working directory. *)
Fixpoint resolveLoop (argsRev : list string) (cwd resolvedPath : string)
  : string * bool :=
  match argsRev with
  | [] =>
      if cwd =? "" then (resolvedPath, false)
      else (cwd ++ "/" ++ resolvedPath, isAbsolute cwd)
  | p :: rest =>
      if p =? "" then resolveLoop rest cwd resolvedPath
      else if isAbsolute p then (p ++ "/" ++ resolvedPath, true)
      else resolveLoop rest cwd (p ++ "/" ++ resolvedPath)
  end.

Definition resolve (cwd : string) (args : list string) : string :=
  let '(resolvedPath, resolvedAbsolute) := resolveLoop (rev args) cwd "" in
  let body := normalizeString resolvedPath (negb resolvedAbsolute) in
  if resolvedAbsolute then "/" ++ body
  else if body =? "" then "." else body.

Definition joinPaths (a b : string) : string :=
  match (a =? ""), (b =? "") with
  | true, true => "."
  | true, false => normalize b
  | false, true => normalize a
  | false, false => normalize (a ++ "/" ++ b)
  end.

(** [path.dirname]: scanning from the end (index 0 excluded), trailing slashes
    are skipped, then the last component, and the path is cut at the slash
    before it. *)
Fixpoint dropWhile (f : ascii -> bool) (l : list ascii) : list ascii :=
  match l with
  | c :: rest => if f c then dropWhile f rest else l
  | [] => []
  end.

Definition isSlash (c : ascii) : bool := Ascii.eqb c slash.

Definition dirname (p : string) : string :=
  match p with
  | EmptyString => "."
  | String c0 rest =>
      let hasRoot := isSlash c0 in
      let scanned := rev (list_ascii_of_string rest) in
      let afterName :=
        dropWhile (fun c => negb (isSlash c)) (dropWhile isSlash scanned) in
      match afterName with
      | [] => if hasRoot then "/" else "."
      | _ :: before =>
          if hasRoot && (Nat.eqb (List.length before) 0) then "//"
          else String c0 (string_of_list_ascii (rev before))
      end
  end.

End PosixPath.

(** The POSIX host with working directory [cwd] and home [home]. *)
Definition posixHost (cwd home : string) : Host := {|
  win32 := false;
  path_sep := "/";
  path_normalize := PosixPath.normalize;
  path_resolve := fun p => PosixPath.resolve cwd [p];
  path_resolve_from := fun a b => PosixPath.resolve cwd [a; b];
  path_isAbsolute := PosixPath.isAbsolute;
  path_join := PosixPath.joinPaths;
  path_dirname := PosixPath.dirname;
  os_homedir := home;
  process_cwd := cwd
|}.

Definition posix : Host := posixHost "/home/user" "/home/user".


(* ===================================================================== *)
(** ** PathGate: [windowsPathFix.ts], [security.ts], [validatePath]       *)
(* ===================================================================== *)

Module PathGate.

Import JsString.
Local Open Scope string_scope.

Section Gate.

Variable host : Host.

(** *** utils/windowsPathFix.ts *)

(** [inputPath.replace(/\\+/g, '\\')]: runs of backslashes become one. *)
Fixpoint collapseBackslashes (s : string) : string :=
  match s with
  | EmptyString => EmptyString
  | String c rest =>
      if Ascii.eqb c "\"%char then
        match rest with
        | String c' _ =>
            if Ascii.eqb c' "\"%char then collapseBackslashes rest
            else String c (collapseBackslashes rest)
        | EmptyString => String c EmptyString
        end
      else String c (collapseBackslashes rest)
  end.

(** [normalizedPath.match(/^[a-z]:/)] then upper-casing of the drive letter. *)
Definition upperDriveLetter (s : string) : string :=
  match s with
  | String c (String colon rest) =>
      if is_lower c && Ascii.eqb colon ":"%char
      then String (upper_char c) (String colon rest)
      else s
  | _ => s
  end.

Definition normalizeWindowsPath (inputPath : string) : string :=
  if inputPath =? "" then inputPath
  else if win32 host then
    upperDriveLetter (path_normalize host (collapseBackslashes inputPath))
  else path_normalize host inputPath.

Definition expandHome (filepath : string) : string :=
  if filepath =? "" then filepath
  else if startsWith filepath "~/" || (filepath =? "~")
  then path_join host (os_homedir host) (slice1 filepath)
  else filepath.

Definition toAbsolutePath (inputPath : string) : string :=
  if inputPath =? "" then inputPath
  else
    let normalizedPath := normalizeWindowsPath inputPath in
    let expandedPath := expandHome normalizedPath in
    if path_isAbsolute host expandedPath
    then path_resolve host expandedPath
    else path_resolve_from host (process_cwd host) expandedPath.

(** *** utils/security.ts *)

(** The canonical form the gate compares:
    [path.normalize(path.resolve(p))]. *)
Definition canonical (p : string) : string :=
  path_normalize host (path_resolve host p).

(** The body of the [allowedDirs.some] callback. *)
Definition withinDir (normalizedPath dir : string) : bool :=
  let normalizedDir := canonical dir in
  if win32 host then
    let pathLower := toLowerCase normalizedPath in
    let dirLower := toLowerCase normalizedDir in
    (pathLower =? dirLower) || startsWith pathLower (dirLower ++ path_sep host)
  else
    (normalizedPath =? normalizedDir)
    || startsWith normalizedPath (normalizedDir ++ path_sep host).

Definition secureIsPathAllowed (targetPath : string)
  (allowedDirs : list string) : bool :=
  let normalizedPath := canonical targetPath in
  if includes normalizedPath ".." then false
  else existsb (withinDir normalizedPath) allowedDirs.

(** Which [return] of [isPathAllowed] produced the answer. *)
Inductive Verdict : Type :=
| TraversalDetected      (* line 17: the normalized path includes ".." *)
| OutsideAllowedRoots    (* line 21: [some] found no directory *)
| WithinAllowedRoot.     (* line 21: [some] found one *)

Definition secureVerdict (targetPath : string) (allowedDirs : list string)
  : Verdict :=
  let normalizedPath := canonical targetPath in
  if includes normalizedPath ".." then TraversalDetected
  else if existsb (withinDir normalizedPath) allowedDirs
       then WithinAllowedRoot else OutsideAllowedRoots.

(** *** tools/filesystem.ts *)

(** [isPathAllowed] of filesystem.ts; [allowedDirectories] is what
    [getAllowedDirs] returned. *)
Definition isPathAllowed (allowedDirectories : list string)
  (pathToCheck : string) : bool :=
  match allowedDirectories with
  | [] => false
  | _ => secureIsPathAllowed pathToCheck allowedDirectories
  end.

Variable disk : Disk.

(** [validateParentDirectories]: the recursion goes up one directory per
    call; [fuel] bounds the number of calls. *)
Fixpoint validateParentDirectories (fuel : nat) (directoryPath : string)
  : bool :=
  match fuel with
  | O => false
  | S fuel' =>
      let parentDir := path_dirname host directoryPath in
      if (parentDir =? directoryPath)
         || (parentDir =? path_dirname host parentDir)
      then false
      else match fs_realpath disk parentDir with
           | Some _ => true
           | None => validateParentDirectories fuel' parentDir
           end
  end.

(** What [validationOperation] settles to. *)
Inductive Admission : Type :=
| Allowed (validPath : string)
| PathNotAllowed (requestedPath : string) (allowedDirs : list string).

(** The message of the error thrown on denial. *)
Definition denialMessage (requestedPath : string) (allowedDirs : list string)
  : string :=
  "Path not allowed: " ++ requestedPath
  ++ ". Must be within one of these directories: " ++ join ", " allowedDirs.

(** [validatePath]: the operation it runs inside [withTimeout].  A
    validation that does not settle within the time limit, on which
    [validatePath] throws [Path validation failed for path], has no outcome
    here: the operation is taken to settle in time. *)
Definition validatePath (allowedDirectories : list string)
  (requestedPath : string) : Admission :=
  let absolute := toAbsolutePath requestedPath in
  if negb (isPathAllowed allowedDirectories absolute)
  then PathNotAllowed requestedPath allowedDirectories
  else
    if fs_stat disk absolute then
      match fs_realpath disk absolute with
      | Some real => Allowed real
      | None =>
          if validateParentDirectories (String.length absolute) absolute
          then Allowed absolute else Allowed absolute
      end
    else
      if validateParentDirectories (String.length absolute) absolute
      then Allowed absolute else Allowed absolute.

Definition admitted (allowedDirectories : list string) (requestedPath : string)
  : bool :=
  match validatePath allowedDirectories requestedPath with
  | Allowed _ => true
  | PathNotAllowed _ _ => false
  end.

End Gate.

End PathGate.


(* ===================================================================== *)
(** ** LineAddressableReader: the read strategies of [filesystem.ts]      *)
(* ===================================================================== *)

Module Reader.

(** File contents and lines. *)
Definition text : Type := list ascii.

Definition LF : ascii := "010"%char.
Definition CR : ascii := "013"%char.

Definition txt (s : string) : text := list_ascii_of_string s.

(** Decimal rendering of a number in a template literal. *)
Definition showZ (z : Z) : text :=
  txt (DecimalString.NilZero.string_of_int (Z.to_int z)).

(** [xs.join(sep)] on lines. *)
Fixpoint joinWith (sep : text) (xs : list text) : text :=
  match xs with
  | [] => []
  | [x] => x
  | x :: rest => x ++ sep ++ joinWith sep rest
  end.

(** [s.split('\n')]: the pieces between line feeds, never empty. *)
Fixpoint splitLFAcc (s cur : text) : list text :=
  match s with
  | [] => [cur]
  | c :: rest =>
      if Ascii.eqb c LF then cur :: splitLFAcc rest []
      else splitLFAcc rest (cur ++ [c])
  end.

Definition splitLF (s : text) : list text := splitLFAcc s [].

(** [xs.slice(start, end)] with JavaScript's treatment of negative and
    out-of-range indices. *)
Definition jsSlice {A : Type} (xs : list A) (start stop : Z) : list A :=
  let len := Z.of_nat (List.length xs) in
  let k := if (start <? 0)%Z then Z.max (len + start) 0 else Z.min start len in
  let fin := if (stop <? 0)%Z then Z.max (len + stop) 0 else Z.min stop len in
  firstn (Z.to_nat (fin - k)) (skipn (Z.to_nat k) xs).

(** [xs.slice(start)]. *)
Definition jsSliceFrom {A : Type} (xs : list A) (start : Z) : list A :=
  jsSlice xs start (Z.of_nat (List.length xs)).

(** The lines a [readline] interface with [crlfDelay: Infinity] yields for a
    stream: LF, CR LF and a lone CR end a line; what follows the last
    terminator is a line when it is not empty. *)
Fixpoint readlineAcc (s cur : text) : list text :=
  match s with
  | [] => match cur with [] => [] | _ => [cur] end
  | c :: rest =>
      if Ascii.eqb c LF then cur :: readlineAcc rest []
      else if Ascii.eqb c CR then
        match rest with
        | c' :: rest' =>
            if Ascii.eqb c' LF then cur :: readlineAcc rest' []
            else cur :: readlineAcc rest []
        | [] => cur :: readlineAcc rest []
        end
      else readlineAcc rest (cur ++ [c])
  end.

Definition readlineLines (content : text) : list text := readlineAcc content [].

(** *** Constants *)

Definition LARGE_FILE_THRESHOLD : Z := 10 * 1024 * 1024.
Definition LINE_COUNT_LIMIT : Z := 10 * 1024 * 1024.
Definition SMALL_READ_THRESHOLD : Z := 100.
Definition DEEP_OFFSET_THRESHOLD : Z := 1000.
Definition SAMPLE_SIZE : Z := 10000.
Definition CHUNK_SIZE : nat := 8 * 1024.
Definition MAX_SAFE_INTEGER : Z := 9007199254740991.

Definition fileSize (content : text) : Z := Z.of_nat (List.length content).

(** *** Line counting and the status line *)

Definition countLines (content : text) : Z :=
  Z.of_nat (List.length (splitLF content)).

Definition getFileLineCount (content : text) : option Z :=
  if (fileSize content <? LINE_COUNT_LIMIT)%Z then Some (countLines content)
  else None.

Definition generateEnhancedStatusMessage (readLines offset : Z)
  (totalLines : option Z) (isNegativeOffset : bool) : text :=
  if isNegativeOffset then
    match totalLines with
    | Some total =>
        txt "[Reading last " ++ showZ readLines ++ txt " lines (total: "
        ++ showZ total ++ txt " lines)]"
    | None => txt "[Reading last " ++ showZ readLines ++ txt " lines]"
    end
  else
    match totalLines with
    | Some total =>
        let endLine := (offset + readLines)%Z in
        let remainingLines := Z.max 0 (total - endLine) in
        if (offset =? 0)%Z then
          txt "[Reading " ++ showZ readLines ++ txt " lines from start (total: "
          ++ showZ total ++ txt " lines, " ++ showZ remainingLines
          ++ txt " remaining)]"
        else
          txt "[Reading " ++ showZ readLines ++ txt " lines from line "
          ++ showZ offset ++ txt " (total: " ++ showZ total ++ txt " lines, "
          ++ showZ remainingLines ++ txt " remaining)]"
    | None =>
        if (offset =? 0)%Z then
          txt "[Reading " ++ showZ readLines ++ txt " lines from start]"
        else
          txt "[Reading " ++ showZ readLines ++ txt " lines from line "
          ++ showZ offset ++ txt "]"
    end.

(** The [content] field both tail readers and both forward readers build. *)
Definition renderContent (includeStatusMessage : bool) (status : text)
  (result : list text) : text :=
  if includeStatusMessage then status ++ [LF; LF] ++ joinWith [LF] result
  else joinWith [LF] result.

Definition lengthZ {A : Type} (xs : list A) : Z := Z.of_nat (List.length xs).

(** *** [readLastNLinesReverse] *)

Lemma CHUNK_SIZE_pos : 0 < CHUNK_SIZE.
Proof. unfold CHUNK_SIZE. lia. Qed.

(** The chunk size is not to be unfolded into a unary numeral. *)
Opaque CHUNK_SIZE.

(** The [while (position > 0 && lines.length < n)] loop; the result is the
    final [(position, lines, partialLine)].  [buffer.toString('utf-8')] of a
    chunk is taken to be the chunk: so it is on a file of ASCII characters,
    where no character is cut by a chunk boundary. *)
Equations? reverseLoop (content : text) (n position : nat)
  (lines : list text) (partialLine : text) : nat * list text * text
  by wf position lt :=
  reverseLoop content n 0 lines partialLine := (0, lines, partialLine);
  reverseLoop content n (S p) lines partialLine with (List.length lines <? n) := {
    | false := (S p, lines, partialLine);
    | true :=
        reverseLoop content n (S p - Nat.min CHUNK_SIZE (S p))
          (tl (splitLF (firstn (Nat.min CHUNK_SIZE (S p))
                          (skipn (S p - Nat.min CHUNK_SIZE (S p)) content)
                        ++ partialLine)) ++ lines)
          (hd [] (splitLF (firstn (Nat.min CHUNK_SIZE (S p))
                             (skipn (S p - Nat.min CHUNK_SIZE (S p)) content)
                           ++ partialLine))) }.
Proof.
  pose proof CHUNK_SIZE_pos.
  destruct (Nat.min CHUNK_SIZE (S p)) eqn:Hmin; lia.
Qed.

(** The lines kept by [readLastNLinesReverse], before rendering. *)
Definition reverseTailLines (content : text) (n : nat) : list text :=
  let '(position, lines, partialLine) :=
    reverseLoop content n (List.length content) [] [] in
  let lines :=
    if (position =? 0) && negb (Nat.eqb (List.length partialLine) 0)
    then partialLine :: lines else lines in
  jsSliceFrom lines (- Z.of_nat n).

Definition readLastNLinesReverse (content : text) (n : nat)
  (includeStatusMessage : bool) (fileTotalLines : option Z) : text :=
  let result := reverseTailLines content n in
  renderContent includeStatusMessage
    (generateEnhancedStatusMessage (lengthZ result) (- Z.of_nat n)
       fileTotalLines true)
    result.

(** *** [readFromEndWithReadline] *)

(** [buffer[i] = x] for an index inside the array. *)
Fixpoint setAt {A : Type} (i : nat) (x : A) (xs : list A) : list A :=
  match xs, i with
  | [], _ => []
  | _ :: rest, O => x :: rest
  | y :: rest, S i' => y :: setAt i' x rest
  end.

(** The [for await (const line of rl)] loop over the circular buffer; a slot
    never written is [None] ([undefined]). *)
Fixpoint circularLoop (lines : list text) (requestedLines : nat)
  (buffer : list (option text)) (bufferIndex totalLines : nat)
  : list (option text) * nat * nat :=
  match lines with
  | [] => (buffer, bufferIndex, totalLines)
  | line :: rest =>
      circularLoop rest requestedLines
        (setAt bufferIndex (Some line) buffer)
        ((bufferIndex + 1) mod requestedLines)
        (totalLines + 1)
  end.

Definition isDefined (slot : option text) : bool :=
  match slot with Some _ => true | None => false end.

(** The lines kept by [readFromEndWithReadline], before rendering.
    [new Array(requestedLines)] is [requestedLines] empty slots: so it is
    for [requestedLines] below [2^32], from where on the source throws a
    [RangeError]. *)
Definition circularTailSlots (content : text) (requestedLines : nat)
  : list (option text) :=
  let '(buffer, bufferIndex, totalLines) :=
    circularLoop (readlineLines content) requestedLines
      (repeat None requestedLines) 0 0 in
  if requestedLines <=? totalLines then
    filter isDefined
      (jsSliceFrom buffer (Z.of_nat bufferIndex)
       ++ jsSlice buffer 0 (Z.of_nat bufferIndex))
  else jsSlice buffer 0 (Z.of_nat totalLines).

(** An [undefined] entry is joined as the empty string. *)
Definition slotText (slot : option text) : text :=
  match slot with Some line => line | None => [] end.

Definition readFromEndWithReadline (content : text) (requestedLines : nat)
  (includeStatusMessage : bool) (fileTotalLines : option Z) : text :=
  let result := circularTailSlots content requestedLines in
  renderContent includeStatusMessage
    (generateEnhancedStatusMessage (lengthZ result)
       (- Z.of_nat requestedLines) fileTotalLines true)
    (map slotText result).

(** *** [readFromStartWithReadline] *)

(** The [for await] loop with its early exit. *)
Fixpoint forwardLoop (lines : list text) (offset length lineNumber : Z)
  (result : list text) : list text :=
  match lines with
  | [] => result
  | line :: rest =>
      let result' :=
        if (offset <=? lineNumber)%Z && (lengthZ result <? length)%Z
        then result ++ [line] else result in
      if (length <=? lengthZ result')%Z then result'
      else forwardLoop rest offset length (lineNumber + 1) result'
  end.

Definition forwardLines (content : text) (offset length : Z) : list text :=
  forwardLoop (readlineLines content) offset length 0 [].

Definition readFromStartWithReadline (content : text) (offset length : Z)
  (includeStatusMessage : bool) (fileTotalLines : option Z) : text :=
  let result := forwardLines content offset length in
  renderContent includeStatusMessage
    (generateEnhancedStatusMessage (lengthZ result) offset fileTotalLines false)
    result.

(** *** [readFromEstimatedPosition] *)

(** The sampling loop: bytes and lines seen until [SAMPLE_SIZE] is reached. *)
Fixpoint sampleLoop (lines : list text) (bytesRead sampleLines : Z) : Z * Z :=
  match lines with
  | [] => (bytesRead, sampleLines)
  | line :: rest =>
      let bytesRead' := (bytesRead + lengthZ line + 1)%Z in
      let sampleLines' := (sampleLines + 1)%Z in
      if (SAMPLE_SIZE <=? bytesRead')%Z then (bytesRead', sampleLines')
      else sampleLoop rest bytesRead' sampleLines'
  end.

(** The second loop, after the possibly partial first line was dropped. *)
Fixpoint collectLoop (lines : list text) (length : Z) (result : list text)
  : list text :=
  match lines with
  | [] => result
  | line :: rest =>
      if (lengthZ result <? length)%Z
      then collectLoop rest length (result ++ [line])
      else result
  end.

(** [Math.floor(offset * (bytesRead / sampleLines))], computed exactly (the
    rounding of the intermediate double is left out). *)
Definition estimatedBytePosition (offset bytesRead sampleLines : Z) : Z :=
  (offset * bytesRead / sampleLines)%Z.

Definition readFromEstimatedPosition (content : text) (offset length : Z)
  (includeStatusMessage : bool) (fileTotalLines : option Z) : text :=
  let '(bytesRead, sampleLines) := sampleLoop (readlineLines content) 0 0 in
  if (sampleLines =? 0)%Z then
    readFromStartWithReadline content offset length includeStatusMessage
      fileTotalLines
  else
    let startPosition :=
      Z.min (estimatedBytePosition offset bytesRead sampleLines)
        (fileSize content) in
    let streamed := readlineLines (skipn (Z.to_nat startPosition) content) in
    let kept := if (0 <? startPosition)%Z then tl streamed else streamed in
    let result := collectLoop kept length [] in
    renderContent includeStatusMessage
      (generateEnhancedStatusMessage (lengthZ result) offset fileTotalLines
         false)
      result.

(** *** [readFileWithSmartPositioning] *)

(** Which reader the selector calls. *)
Inductive Strategy : Type :=
| ReverseChunks | CircularBuffer | ForwardStream | EstimatedSeek.

Definition chooseStrategy (size offset : Z) : Strategy :=
  if (offset <? 0)%Z then
    if (LARGE_FILE_THRESHOLD <? size)%Z
       && (Z.abs offset <=? SMALL_READ_THRESHOLD)%Z
    then ReverseChunks else CircularBuffer
  else
    if (size <? LARGE_FILE_THRESHOLD)%Z || (offset =? 0)%Z then ForwardStream
    else if (DEEP_OFFSET_THRESHOLD <? offset)%Z then EstimatedSeek
    else ForwardStream.

Definition readFileWithSmartPositioning (content : text) (offset length : Z)
  (includeStatusMessage : bool) : text :=
  let totalLines := getFileLineCount content in
  match chooseStrategy (fileSize content) offset with
  | ReverseChunks =>
      readLastNLinesReverse content (Z.to_nat (Z.abs offset))
        includeStatusMessage totalLines
  | CircularBuffer =>
      readFromEndWithReadline content (Z.to_nat (Z.abs offset))
        includeStatusMessage totalLines
  | ForwardStream =>
      readFromStartWithReadline content offset length includeStatusMessage
        totalLines
  | EstimatedSeek =>
      readFromEstimatedPosition content offset length includeStatusMessage
        totalLines
  end.

(** The lines a tail read keeps, per strategy (what is then joined). *)
Definition tailLines (content : text) (offset : Z) : list text :=
  match chooseStrategy (fileSize content) offset with
  | ReverseChunks => reverseTailLines content (Z.to_nat (Z.abs offset))
  | _ => map slotText (circularTailSlots content (Z.to_nat (Z.abs offset)))
  end.

(** *** Internal mode: [splitLinesPreservingEndings], [readFileInternal] *)

(** The [for] loop over the characters; [lines] and [currentLine] are the
    loop's variables, the skipped LF of a CR LF pair is consumed with its CR. *)
Fixpoint splitLoop (s : text) (lines : list text) (currentLine : text)
  : list text * text :=
  match s with
  | [] => (lines, currentLine)
  | c :: rest =>
      let currentLine := currentLine ++ [c] in
      if Ascii.eqb c LF then splitLoop rest (lines ++ [currentLine]) []
      else if Ascii.eqb c CR then
        match rest with
        | c' :: rest' =>
            if Ascii.eqb c' LF
            then splitLoop rest' (lines ++ [currentLine ++ [c']]) []
            else splitLoop rest (lines ++ [currentLine]) []
        | [] => splitLoop rest (lines ++ [currentLine]) []
        end
      else splitLoop rest lines currentLine
  end.

Definition splitLinesPreservingEndings (content : text) : list text :=
  match content with
  | [] => [[]]
  | _ =>
      let '(lines, currentLine) := splitLoop content [] [] in
      match currentLine with
      | [] => lines
      | _ => lines ++ [currentLine]
      end
  end.

(** The part of [readFileInternal] after the file was read. *)
Definition internalContent (content : text) (offset length : Z) : text :=
  if (offset =? 0)%Z && (MAX_SAFE_INTEGER <=? length)%Z then content
  else
    let lines := splitLinesPreservingEndings content in
    let selectedLines := jsSlice lines offset (offset + length) in
    joinWith [] selectedLines.

(** *** The two entry points, on a disk *)

Inductive ReadResult : Type :=
| FileOk (content : text) (mimeType : string) (isImage : bool)
| ReadFailed (message : string).

Section OnDisk.

Variable host : Host.
Variable disk : Disk.
Variable allowedDirectories : list string.
(** [fs.readFile] and the read streams: the bytes of a file, or a throw. *)
Variable readBytes : string -> option text.
(** [getMimeTypeInfo]. *)
Variable mimeTypeInfo : string -> string * bool.
(** [buffer.toString('base64')]. *)
Variable base64 : text -> text.
(** [config.fileReadLineLimit ?? 1000]. *)
Variable defaultReadLength : Z.

Local Open Scope string_scope.

(** [readFileFromDisk], for reads that settle within the time limit of
    [withTimeout] and readers that do not throw: the [catch] that returns
    the file as base64 text is then not entered.  A file that cannot be
    read fails with one fixed message, where the source passes on the
    message of [fs]. *)
Definition readFileFromDisk (filePath : string) (offset : Z)
  (length : option Z) : ReadResult :=
  if filePath =? "" then ReadFailed "Invalid file path provided"
  else
    let length :=
      match length with Some l => l | None => defaultReadLength end in
    match PathGate.validatePath host disk allowedDirectories filePath with
    | PathGate.PathNotAllowed requested dirs =>
        ReadFailed (PathGate.denialMessage requested dirs)
    | PathGate.Allowed validPath =>
        let '(mimeType, isImage) := mimeTypeInfo validPath in
        match readBytes validPath with
        | None => ReadFailed "ENOENT: no such file or directory"
        | Some content =>
            if isImage then FileOk (base64 content) mimeType isImage
            else
              FileOk (readFileWithSmartPositioning content offset length true)
                mimeType false
        end
    end.

Inductive InternalResult : Type :=
| InternalOk (content : text)
| InternalFailed (message : string).

Definition readFileInternal (filePath : string) (offset : Z)
  (length : option Z) : InternalResult :=
  let length :=
    match length with Some l => l | None => defaultReadLength end in
  match PathGate.validatePath host disk allowedDirectories filePath with
  | PathGate.PathNotAllowed requested dirs =>
      InternalFailed (PathGate.denialMessage requested dirs)
  | PathGate.Allowed validPath =>
      let '(_, isImage) := mimeTypeInfo validPath in
      if isImage then
        InternalFailed
          "Cannot read image files as text for internal operations"
      else
        match readBytes validPath with
        | None => InternalFailed "ENOENT: no such file or directory"
        | Some content => InternalOk (internalContent content offset length)
        end
  end.

End OnDisk.

End Reader.


(* ===================================================================== *)
(** ** AvailabilityProbe: [checkRipgrepAvailability] of [search.ts]       *)
(* ===================================================================== *)

Module Probe.

(** One spawned [rg --version] process with its three callbacks: which of
    them ran, and what the promise returned to the caller resolved to. *)
Record ProbeProcess : Type := {
  closeSeen : bool;
  errorSeen : bool;
  timerRan : bool;
  resolved : option bool
}.

(** The module-level flag, the probes spawned so far, the answers given
    without spawning, and every assignment made to the flag, oldest first. *)
Record State : Type := {
  ripgrepAvailable : option bool;
  probes : list ProbeProcess;
  immediateAnswers : list bool;
  assignments : list bool
}.

Definition initial : State := {|
  ripgrepAvailable := None;
  probes := [];
  immediateAnswers := [];
  assignments := []
|}.

(** What the event loop can run: an invocation of the check (whose [spawn]
    throws or not), and for a spawned probe its ['close'] event, its
    ['error'] event and its two-second timer. *)
Inductive Event : Type :=
| Call (spawnThrows : bool)
| ProcClose (pid : nat) (code : Z)
| ProcError (pid : nat)
| TimerFires (pid : nat).

Definition freshProbe : ProbeProcess :=
  {| closeSeen := false; errorSeen := false; timerRan := false;
     resolved := None |}.

(** [resolve(v)]: only the first call settles the promise. *)
Definition settle (v : bool) (p : ProbeProcess) : option bool :=
  match resolved p with
  | Some r => Some r
  | None => Some v
  end.

Definition assign (v : bool) (s : State) (probes' : list ProbeProcess)
  : State :=
  {| ripgrepAvailable := Some v;
     probes := probes';
     immediateAnswers := immediateAnswers s;
     assignments := assignments s ++ [v] |}.

(** [checkRipgrepAvailability()], up to the return of its promise: the memo
    is read first; a [spawn] that throws assigns the flag in the [catch];
    otherwise a probe is spawned and nothing is assigned yet. *)
Definition checkRipgrepAvailability (s : State) (spawnThrows : bool) : State :=
  match ripgrepAvailable s with
  | Some v =>
      {| ripgrepAvailable := ripgrepAvailable s;
         probes := probes s;
         immediateAnswers := immediateAnswers s ++ [v];
         assignments := assignments s |}
  | None =>
      if spawnThrows then
        {| ripgrepAvailable := Some false;
           probes := probes s;
           immediateAnswers := immediateAnswers s ++ [false];
           assignments := assignments s ++ [false] |}
      else
        {| ripgrepAvailable := ripgrepAvailable s;
           probes := probes s ++ [freshProbe];
           immediateAnswers := immediateAnswers s;
           assignments := assignments s |}
  end.

(** The ['close'] listener: [ripgrepAvailable = code === 0]. *)
Definition onClose (s : State) (pid : nat) (p : ProbeProcess) (code : Z)
  : State :=
  let v := (code =? 0)%Z in
  assign v s
    (Reader.setAt pid
       {| closeSeen := true; errorSeen := errorSeen p;
          timerRan := timerRan p; resolved := settle v p |}
       (probes s)).

(** The ['error'] listener: [ripgrepAvailable = false]. *)
Definition onError (s : State) (pid : nat) (p : ProbeProcess) : State :=
  assign false s
    (Reader.setAt pid
       {| closeSeen := closeSeen p; errorSeen := true;
          timerRan := timerRan p; resolved := settle false p |}
       (probes s)).

(** The [setTimeout] callback, which no listener clears: the process is
    killed and [ripgrepAvailable = false]. *)
Definition onTimeout (s : State) (pid : nat) (p : ProbeProcess) : State :=
  assign false s
    (Reader.setAt pid
       {| closeSeen := closeSeen p; errorSeen := errorSeen p;
          timerRan := true; resolved := settle false p |}
       (probes s)).

(** One turn of the event loop; a callback runs for a spawned probe, a
    ['close'] once, an ['error'] once and before the ['close'], the timer
    once. *)
Definition step (s : State) (e : Event) : option State :=
  match e with
  | Call spawnThrows => Some (checkRipgrepAvailability s spawnThrows)
  | ProcClose pid code =>
      match nth_error (probes s) pid with
      | Some p => if closeSeen p then None else Some (onClose s pid p code)
      | None => None
      end
  | ProcError pid =>
      match nth_error (probes s) pid with
      | Some p =>
          if errorSeen p || closeSeen p then None else Some (onError s pid p)
      | None => None
      end
  | TimerFires pid =>
      match nth_error (probes s) pid with
      | Some p => if timerRan p then None else Some (onTimeout s pid p)
      | None => None
      end
  end.

(** A run of the event loop; [None] when an event is not enabled. *)
Fixpoint run (s : State) (events : list Event) : option State :=
  match events with
  | [] => Some s
  | e :: rest =>
      match step s e with
      | Some s' => run s' rest
      | None => None
      end
  end.

(** The invocations made before the first event that assigns the flag: the
    leading [Call false] events of a run. *)
Fixpoint callsBeforeFirstSettle (events : list Event) : nat :=
  match events with
  | Call false :: rest => S (callsBeforeFirstSettle rest)
  | _ => 0
  end.

End Probe.


(* ===================================================================== *)
(** ** The directory tree both walkers enumerate                          *)
(* ===================================================================== *)

(** A directory entry as [fs.readdir(_, {withFileTypes: true})] reports it:
    a file with its content ([None] when [fs.readFile] throws), a directory
    with its listing ([None] when [fs.readdir] throws), or an entry that is
    neither (a symbolic link, a socket). *)
#[local] Set Warnings "-register-all".

Inductive Entry : Type :=
| File (name : string) (content : option string)
| Directory (name : string) (listing : option (list Entry))
| Special (name : string).

Definition entryName (e : Entry) : string :=
  match e with
  | File name _ => name
  | Directory name _ => name
  | Special name => name
  end.

Definition isFile (e : Entry) : bool :=
  match e with File _ _ => true | _ => false end.

(** The settled value of a promise. *)
Inductive Outcome (A : Type) : Type :=
| Resolved (value : A)
| Rejected (message : string).
Arguments Resolved {A} value.
Arguments Rejected {A} message.

(* ===================================================================== *)
(** ** ContentSearchEngine: [searchCode], [searchCodeFallback]            *)
(* ===================================================================== *)

Module ContentSearch.

Import JsString.
Local Open Scope string_scope.

Record SearchResult : Type := {
  file : string;
  line : Z;
  matchText : string                        (* the [match] field *)
}.

Record Options : Type := {
  rootPath : string;
  pattern : string;
  filePattern : option string;
  ignoreCase : option bool;
  maxResults : option Z;
  includeHidden : option bool;
  contextLines : option Z
}.

Definition ignoreCaseOf (o : Options) : bool :=
  match ignoreCase o with Some b => b | None => true end.
Definition maxResultsOf (o : Options) : Z :=
  match maxResults o with Some n => n | None => 1000%Z end.
Definition includeHiddenOf (o : Options) : bool :=
  match includeHidden o with Some b => b | None => false end.
Definition contextLinesOf (o : Options) : Z :=
  match contextLines o with Some n => n | None => 0%Z end.

(** [s.trim()], on the ASCII white space. *)
Definition isSpace (c : ascii) : bool :=
  let n := nat_of_ascii c in
  ((9 <=? n)%nat && (n <=? 13)%nat) || (n =? 32)%nat.

Fixpoint trimStart (s : string) : string :=
  match s with
  | EmptyString => EmptyString
  | String c rest => if isSpace c then trimStart rest else s
  end.

Fixpoint revString (s acc : string) : string :=
  match s with
  | EmptyString => acc
  | String c rest => revString rest (String c acc)
  end.

Definition trim (s : string) : string :=
  revString (trimStart (revString (trimStart s) "")) "".

Definition showZ (z : Z) : string :=
  DecimalString.NilZero.string_of_int (Z.to_int z).

(** *** The external engine *)

(** One line of ripgrep's [--json] output after [JSON.parse]: a [match]
    message with its path, line number and sub-matches, a [context] message,
    any other message ([begin], [end], [summary]), or a line that does not
    parse.  An absent field is [None]. *)
Inductive RgMessage : Type :=
| RgMatch (path : option string) (line_number : option Z)
    (submatches : list (option string))
| RgContext (path : option string) (line_number : option Z)
    (linesText : option string)
| RgOther
| RgUnparsable.

(** How the [rg] child process ends: an ['error'] event, or a ['close'] event
    with an exit code, the parsed standard output, and whether the 30 second
    timer fired first. *)
Inductive RgRun : Type :=
| RgError (message : string)
| RgClose (code : Z) (hasTimedOut : bool) (stdout : list RgMessage)
    (stderr : string).

(** [x || fallback] for a string field. *)
Definition orString (x : option string) (fallback : string) : string :=
  match x with
  | Some v => if v =? "" then fallback else v
  | None => fallback
  end.

Definition orZero (x : option Z) : Z :=
  match x with Some v => v | None => 0%Z end.

Definition truthy (x : option string) : bool :=
  match x with
  | Some v => negb (v =? "")
  | None => false
  end.

(** The records one output line adds to [results]. *)
Definition recordsOfMessage (contextLines : Z) (m : RgMessage)
  : list SearchResult :=
  match m with
  | RgMatch path line_number submatches =>
      flat_map
        (fun submatch =>
           if truthy submatch then
             [{| file := orString path "unknown";
                 line := orZero line_number;
                 matchText := orString submatch "" |}]
           else [])
        submatches
  | RgContext path line_number linesText =>
      if (0 <? contextLines)%Z && truthy linesText then
        [{| file := orString path "unknown";
            line := orZero line_number;
            matchText := trim (orString linesText "") |}]
      else []
  | RgOther => []
  | RgUnparsable => []
  end.

(** The command line of the engine. *)
Definition rgArgs (o : Options) (validPath : string) : list string :=
  (["--json"; "--line-number"]
   ++ (if ignoreCaseOf o then ["-i"] else [])
   ++ (if (maxResultsOf o =? 0)%Z then [] else ["-m"; showZ (maxResultsOf o)])
   ++ (if includeHiddenOf o then ["--hidden"] else [])
   ++ (if (0 <? contextLinesOf o)%Z then ["-C"; showZ (contextLinesOf o)]
       else [])
   ++ (if truthy (filePattern o)
       then ["-g"; orString (filePattern o) ""] else [])
   ++ [pattern o; validPath])%list.

Section Engines.

Variable host : Host.
Variable disk : Disk.
Variable allowedDirectories : list string.

(** [new RegExp(source, flags)]: [None] when the constructor throws, else the
    [test] method of the expression; the flag is ['i'] or none. *)
Variable compileRegExp : string -> bool -> option (string -> bool).

(** What [await checkRipgrepAvailability()] gives, and how the engine process
    started with given arguments ends. *)
Variable isRipgrepAvailable : bool.
Variable rg : list string -> RgRun.

Definition searchCode (o : Options) : Outcome (list SearchResult) :=
  if negb isRipgrepAvailable
  then Rejected "ripgrep not available, using fallback"
  else
    match PathGate.validatePath host disk allowedDirectories (rootPath o) with
    | PathGate.PathNotAllowed requested dirs =>
        Rejected (PathGate.denialMessage requested dirs)
    | PathGate.Allowed validPath =>
        match rg (rgArgs o validPath) with
        | RgError message => Rejected ("ripgrep process error: " ++ message)
        | RgClose code hasTimedOut stdout stderr =>
            if hasTimedOut then Resolved []
            else if (code =? 0)%Z || (code =? 1)%Z then
              Resolved (flat_map (recordsOfMessage (contextLinesOf o)) stdout)
            else
              Rejected ("ripgrep process exited with code " ++ showZ code
                        ++ ". stderr: " ++ stderr)
        end
    end.

(** *** The native fallback *)

Section Fallback.

Variable maxResultsV : Z.
Variable contextLinesV : Z.
Variable excludeDirs : list string.
Variable regexTest : string -> bool.
Variable fileRegexTest : option (string -> bool).

Definition count (results : list SearchResult) : Z :=
  Z.of_nat (List.length results).

(** The inner [for (let j = startIdx; j <= endIdx; j++)] loop. *)
Definition contextRecords (fullPath : string) (lines : list string) (i : nat)
  : list SearchResult :=
  let startIdx := Z.max 0 (Z.of_nat i - contextLinesV) in
  let endIdx :=
    Z.min (Z.of_nat (List.length lines) - 1) (Z.of_nat i + contextLinesV) in
  flat_map
    (fun j =>
       if (j =? i)%nat then []
       else [{| file := fullPath;
                line := Z.of_nat j + 1;
                matchText := trim (nth j lines "") |}])
    (seq (Z.to_nat startIdx) (Z.to_nat (endIdx - startIdx + 1))).

(** The [for (let i = 0; i < lines.length; i++)] loop; [todo] holds the lines
    from index [i] on. *)
Fixpoint scanLines (fullPath : string) (lines todo : list string) (i : nat)
  (results : list SearchResult) : list SearchResult :=
  match todo with
  | [] => results
  | current :: rest =>
      if regexTest current then
        let results :=
          (results ++ [{| file := fullPath;
                          line := Z.of_nat i + 1;
                          matchText := trim current |}])%list in
        let results :=
          if (0 <? contextLinesV)%Z
          then (results ++ contextRecords fullPath lines i)%list
          else results in
        if (maxResultsV <=? count results)%Z then results
        else scanLines fullPath lines rest (S i) results
      else scanLines fullPath lines rest (S i) results
  end.

Definition admitted (fullPath : string) : bool :=
  PathGate.admitted host disk allowedDirectories fullPath.

Definition nameIn (name : string) (names : list string) : bool :=
  existsb (String.eqb name) names.

(** [searchDir(dirPath)], for the directory whose listing is [listing]; the
    entry loop is [entriesLoop]. *)
Fixpoint searchEntry (dirPath : string) (entry : Entry)
  (results : list SearchResult) {struct entry} : list SearchResult :=
  let fullPath := path_join host dirPath (entryName entry) in
  if negb (admitted fullPath) then results
  else
    match entry with
    | Directory name listing =>
        if nameIn name excludeDirs then results
        else if (maxResultsV <=? count results)%Z then results
        else
          match listing with
          | None => results
          | Some entries =>
              (fix entriesLoop (todo : list Entry)
                 (results : list SearchResult) : list SearchResult :=
                 match todo with
                 | [] => results
                 | e :: rest =>
                     if (maxResultsV <=? count results)%Z then results
                     else entriesLoop rest (searchEntry fullPath e results)
                 end) entries results
          end
    | File name content =>
        let wanted :=
          match fileRegexTest with
          | None => true
          | Some test => test name
          end in
        if wanted then
          match content with
          | None => results
          | Some text =>
              let lines := split Reader.LF text in
              scanLines fullPath lines lines 0 results
          end
        else results
    | Special _ => results
    end.

Fixpoint entriesLoop (dirPath : string) (todo : list Entry)
  (results : list SearchResult) : list SearchResult :=
  match todo with
  | [] => results
  | e :: rest =>
      if (maxResultsV <=? count results)%Z then results
      else entriesLoop dirPath rest (searchEntry dirPath e results)
  end.

Definition searchDir (dirPath : string) (listing : option (list Entry))
  (results : list SearchResult) : list SearchResult :=
  if (maxResultsV <=? count results)%Z then results
  else
    match listing with
    | None => results
    | Some entries => entriesLoop dirPath entries results
    end.

End Fallback.

(** [searchCodeFallback]; [rootListing] is the listing of the directory the
    validated root path names. *)
Definition searchCodeFallback (rootListing : option (list Entry))
  (o : Options) (excludeDirs : option (list string))
  : Outcome (list SearchResult) :=
  let excludeDirs :=
    match excludeDirs with
    | Some dirs => dirs
    | None => ["node_modules"; ".git"]
    end in
  match PathGate.validatePath host disk allowedDirectories (rootPath o) with
  | PathGate.PathNotAllowed requested dirs =>
      Rejected (PathGate.denialMessage requested dirs)
  | PathGate.Allowed validPath =>
      match compileRegExp (pattern o) (ignoreCaseOf o) with
      | None => Rejected "Invalid regular expression"
      | Some regexTest =>
          let compileFilter :=
            if truthy (filePattern o)
            then
              match compileRegExp (orString (filePattern o) "") false with
              | None => None
              | Some test => Some (Some test)
              end
            else Some None in
          match compileFilter with
          | None => Rejected "Invalid regular expression"
          | Some fileRegexTest =>
              Resolved
                (searchDir (maxResultsOf o) (contextLinesOf o) excludeDirs
                   regexTest fileRegexTest validPath rootListing [])
          end
      end
  end.

(** [searchTextInFiles]: the engine, and the fallback when it rejects. *)
Definition searchTextInFiles (rootListing : option (list Entry))
  (o : Options) : Outcome (list SearchResult) :=
  match searchCode o with
  | Resolved results => Resolved results
  | Rejected _ =>
      searchCodeFallback rootListing o (Some ["node_modules"; ".git"; "dist"])
  end.

End Engines.

(** [new RegExp(source, flags).test] for a source without metacharacters: a
    substring test, on lower-cased text under the ['i'] flag. *)
Definition literalRegExp (source : string) (ignoreCase : bool)
  : option (string -> bool) :=
  Some (fun subject =>
          if ignoreCase
          then includes (toLowerCase subject) (toLowerCase source)
          else includes subject source).

End ContentSearch.

(* ===================================================================== *)
(** ** FilenameTreeWalker: [searchFiles] of [filesystem.ts]               *)
(* ===================================================================== *)

Module NameSearch.

Import JsString.
Local Open Scope string_scope.

(** What happens while the walker is suspended at one [await]: the time that
    passes, and whether the event loop runs the timeout timer's callback
    before it resumes the walker (it can only do so once the timer is due). *)
Record Tick : Type := {
  elapsed : Z;
  timerRunsFirst : bool
}.

Definition quiet : Tick := {| elapsed := 0; timerRunsFirst := false |}.

(** The variables of one [searchFiles] call: [results], [searchCancelled],
    the clock ([startTime] is 0), the ticks still to come, whether the timer
    callback ran, and the [results] seen by the [catch] block when the
    rejected timeout promise won the race. *)
Record Walk : Type := {
  results : list string;
  searchCancelled : bool;
  now : Z;
  ticks : list Tick;
  timerRan : bool;
  raceLostWith : option (list string)
}.

Record Options : Type := {
  maxResults : Z;
  maxDepth : Z;
  timeoutMs : Z;
  excludeDirs : list string
}.

Definition defaults : Options := {|
  maxResults := 1000;
  maxDepth := 10;
  timeoutMs := 10000;
  excludeDirs := ["node_modules"; ".git"; "dist"; ".cache"; "tmp"]
|}.

Section Walker.

Variable host : Host.
Variable disk : Disk.
Variable allowedDirectories : list string.
Variable pattern : string.
Variable opts : Options.

(** One suspension of the walker.  [racing] tells whether [Promise.race] is
    already waiting on the timeout promise. *)
Definition await (racing : bool) (w : Walk) : Walk :=
  let tick := hd quiet (ticks w) in
  let now' := (now w + elapsed tick)%Z in
  if negb (timerRan w) && timerRunsFirst tick && (timeoutMs opts <=? now')%Z
  then
    {| results := results w;
       searchCancelled := true;
       now := now';
       ticks := tl (ticks w);
       timerRan := true;
       raceLostWith := if racing then Some (results w) else raceLostWith w |}
  else
    {| results := results w;
       searchCancelled := searchCancelled w;
       now := now';
       ticks := tl (ticks w);
       timerRan := timerRan w;
       raceLostWith := raceLostWith w |}.

Definition push (fullPath : string) (w : Walk) : Walk :=
  {| results := (results w ++ [fullPath])%list;
     searchCancelled := searchCancelled w;
     now := now w;
     ticks := ticks w;
     timerRan := timerRan w;
     raceLostWith := raceLostWith w |}.

Definition cancel (w : Walk) : Walk :=
  {| results := results w;
     searchCancelled := true;
     now := now w;
     ticks := ticks w;
     timerRan := timerRan w;
     raceLostWith := raceLostWith w |}.

Definition full (w : Walk) : bool :=
  (maxResults opts <=? Z.of_nat (List.length (results w)))%Z.

(** The case policy of the name test. *)
Definition nameMatches (name : string) : bool :=
  if win32 host
  then includes (toLowerCase name) (toLowerCase pattern)
  else includes name pattern.

Definition admitted (fullPath : string) : bool :=
  PathGate.admitted host disk allowedDirectories fullPath.

(** The [for (const entry of files)] loop. *)
Fixpoint filesLoop (currentPath : string) (files : list Entry) (w : Walk)
  : Walk :=
  match files with
  | [] => w
  | entry :: rest =>
      if searchCancelled w || full w then w
      else
        let fullPath := path_join host currentPath (entryName entry) in
        let w := await true w in
        if admitted fullPath then
          filesLoop currentPath rest
            (if nameMatches (entryName entry) then push fullPath w else w)
        else filesLoop currentPath rest w
  end.

(** [search(currentPath, depth)] for the directory [dir]; the loop over
    [directories] is [dirsLoop], which passes over the entries that are not
    directories. *)
Fixpoint search (dir : Entry) (currentPath : string) (depth : Z) (w : Walk)
  {struct dir} : Walk :=
  match dir with
  | Directory _ listing =>
      if searchCancelled w || full w || (maxDepth opts <? depth)%Z then w
      else if (timeoutMs opts <? now w - 0)%Z then cancel w
      else
        let w := await true w in
        match listing with
        | None => w
        | Some entries =>
            let w := filesLoop currentPath (filter isFile entries) w in
            (fix dirsLoop (todo : list Entry) (w : Walk) : Walk :=
               match todo with
               | [] => w
               | entry :: rest =>
                   match entry with
                   | Directory name _ =>
                       if searchCancelled w || full w
                          || (maxDepth opts <=? depth)%Z
                       then w
                       else if existsb (String.eqb name) (excludeDirs opts)
                       then dirsLoop rest w
                       else
                         let fullPath := path_join host currentPath name in
                         let w := await true w in
                         if admitted fullPath then
                           let w :=
                             if nameMatches name then push fullPath w else w in
                           dirsLoop rest (search entry fullPath (depth + 1) w)
                         else dirsLoop rest w
                   | _ => dirsLoop rest w
                   end
               end) entries w
        end
  | _ => w
  end.

Definition start (schedule : list Tick) : Walk :=
  {| results := [];
     searchCancelled := false;
     now := 0;
     ticks := schedule;
     timerRan := false;
     raceLostWith := None |}.

Definition timeoutMessage : string :=
  "Search operation timed out after "
  ++ ContentSearch.showZ (timeoutMs opts) ++ "ms".

(** [searchFiles]; [root] is the directory the validated root path names.
    A list returned by the [catch] block is the array the walker may still
    append to afterwards; the value here is the array at the return.  A
    timer that fires while the root is validated rejects a promise that has
    no handler yet; what the runtime makes of that is left out. *)
Definition searchFiles (root : Entry) (rootPath : string)
  (schedule : list Tick) : Outcome (list string) :=
  let w := await false (start schedule) in
  match PathGate.validatePath host disk allowedDirectories rootPath with
  | PathGate.PathNotAllowed requested dirs =>
      let message := PathGate.denialMessage requested dirs in
      if includes message "timed out"
         && negb (Nat.eqb (List.length (results w)) 0)
      then Resolved (results w)
      else Rejected message
  | PathGate.Allowed validPath =>
      let w := search root validPath 0 w in
      match raceLostWith w with
      | Some partial =>
          match partial with
          | [] => Rejected timeoutMessage
          | _ => Resolved partial
          end
      | None => Resolved (results w)
      end
  end.

(** Whether the call ran past its deadline: the timer callback ran, or the
    walker cancelled itself on reading the clock. *)
Definition exceededTimeout (root : Entry) (rootPath : string)
  (schedule : list Tick) : bool :=
  match PathGate.validatePath host disk allowedDirectories rootPath with
  | PathGate.PathNotAllowed _ _ => false
  | PathGate.Allowed validPath =>
      searchCancelled (search root validPath 0 (await false (start schedule)))
  end.

End Walker.

End NameSearch.

(* ===================================================================== *)
(** ** [readMultipleFiles] of [filesystem.ts]                             *)
(* ===================================================================== *)

Module FileTools.

Import JsString.
Local Open Scope string_scope.

(** One element of the array [readMultipleFiles] resolves to: the requested
    path with the content read, or with the message of the error caught. *)
Inductive MultiFileResult : Type :=
| MultiRead (path : string) (content : Reader.text) (mimeType : string)
    (isImage : bool)
| MultiError (path : string) (error : string).

Definition resultPath (r : MultiFileResult) : string :=
  match r with
  | MultiRead path _ _ _ => path
  | MultiError path _ => path
  end.

Section OnDisk.

Variable host : Host.
Variable disk : Disk.
Variable allowedDirectories : list string.
Variable readBytes : string -> option Reader.text.
Variable mimeTypeInfo : string -> string * bool.
Variable base64 : Reader.text -> Reader.text.
Variable defaultReadLength : Z.

(** The callback of [paths.map]: the path is validated, and [readFile] is
    called on the validated path, which [readFileFromDisk] validates again;
    [readFile] is called without [isUrl], offset and length. *)
Definition readOne (filePath : string) : MultiFileResult :=
  match PathGate.validatePath host disk allowedDirectories filePath with
  | PathGate.PathNotAllowed requested dirs =>
      MultiError filePath (PathGate.denialMessage requested dirs)
  | PathGate.Allowed validPath =>
      match Reader.readFileFromDisk host disk allowedDirectories readBytes
              mimeTypeInfo base64 defaultReadLength validPath 0 None with
      | Reader.FileOk content mimeType isImage =>
          MultiRead filePath content mimeType isImage
      | Reader.ReadFailed message => MultiError filePath message
      end
  end.

Definition readMultipleFiles (paths : list string) : list MultiFileResult :=
  map readOne paths.

End OnDisk.

End FileTools.

(* ===================================================================== *)
(** ** [utils/security.ts]: the screening of directories                  *)
(* ===================================================================== *)

Module Security.

Import JsString.
Local Open Scope string_scope.

(** *** The regular expressions of the file

    The patterns of [security.ts] are built from literal text, [.], [\w],
    negated one-character classes, [*], [+], [|] and grouping; all carry the
    [i] flag and none is anchored.  [test] is therefore: some substring of
    the subject is in the language of the pattern. *)
Inductive RegExp : Type :=
| ReNever
| ReEmpty
| ReClass (accepts : ascii -> bool)
| ReSeq (r1 r2 : RegExp)
| ReAlt (r1 r2 : RegExp)
| ReStar (r : RegExp).

Fixpoint nullable (r : RegExp) : bool :=
  match r with
  | ReNever => false
  | ReEmpty => true
  | ReClass _ => false
  | ReSeq r1 r2 => nullable r1 && nullable r2
  | ReAlt r1 r2 => nullable r1 || nullable r2
  | ReStar _ => true
  end.

(** What remains to be matched after the character [c]. *)
Fixpoint deriv (c : ascii) (r : RegExp) : RegExp :=
  match r with
  | ReNever => ReNever
  | ReEmpty => ReNever
  | ReClass accepts => if accepts c then ReEmpty else ReNever
  | ReSeq r1 r2 =>
      if nullable r1
      then ReAlt (ReSeq (deriv c r1) r2) (deriv c r2)
      else ReSeq (deriv c r1) r2
  | ReAlt r1 r2 => ReAlt (deriv c r1) (deriv c r2)
  | ReStar r1 => ReSeq (deriv c r1) (ReStar r1)
  end.

(** Some prefix of [s] matches [r]. *)
Fixpoint matchesAtStart (r : RegExp) (s : string) : bool :=
  nullable r ||
  match s with
  | EmptyString => false
  | String c rest => matchesAtStart (deriv c r) rest
  end.

(** [pattern.test(s)] for a pattern without anchors. *)
Fixpoint test (r : RegExp) (s : string) : bool :=
  matchesAtStart r s ||
  match s with
  | EmptyString => false
  | String _ rest => test r rest
  end.

(** A literal character under the [i] flag. *)
Definition letter (c : ascii) : ascii -> bool :=
  fun x => Ascii.eqb (lower_char x) (lower_char c).

(** [.]: any character but a line terminator. *)
Definition anyChar : ascii -> bool :=
  fun x => negb (Ascii.eqb x Reader.LF || Ascii.eqb x Reader.CR).

(** [\w]. *)
Definition wordChar : ascii -> bool :=
  fun x =>
    let n := nat_of_ascii x in
    is_lower x || is_upper x || ((48 <=? n)%nat && (n <=? 57)%nat)
    || Ascii.eqb x "_"%char.

(** [[^c]]. *)
Definition notChar (c : ascii) : ascii -> bool :=
  fun x => negb (Ascii.eqb x c).

Fixpoint literal (s : string) : RegExp :=
  match s with
  | EmptyString => ReEmpty
  | String c rest => ReSeq (ReClass (letter c)) (literal rest)
  end.

Definition plus (r : RegExp) : RegExp := ReSeq r (ReStar r).

(** [.*] *)
Definition anything : RegExp := ReStar (ReClass anyChar).

Definition seqOf (parts : list RegExp) : RegExp :=
  fold_right ReSeq ReEmpty parts.

(** *** [detectEnterpriseSync] *)

Inductive SyncType : Type :=
| OneDrive | SharePoint | Teams | Office365 | UnknownSync.

Record EnterpriseDetection : Type := {
  isEnterprise : bool;
  syncType : option SyncType;
  reason : option string
}.

Definition oneDriveBusinessPatterns : list RegExp :=
  [ seqOf [literal "onedrive"; anything; literal "-"; anything;
           plus (ReClass wordChar)];
    seqOf [literal "onedrive"; anything; literal "business"];
    seqOf [literal "onedrive"; anything; literal "entreprise"];
    seqOf [literal "users/"; plus (ReClass (notChar "/")); literal "/onedrive";
           anything; literal "-"] ].

Definition sharePointPatterns : list RegExp :=
  [ literal "sharepoint";
    seqOf [literal "sites/"; plus (ReClass (notChar "/"))];
    seqOf [literal "shared"; anything; literal "documents"];
    seqOf [literal "company"; anything; literal "sharepoint"] ].

Definition teamsPatterns : list RegExp :=
  [ seqOf [literal "teams/"; plus (ReClass (notChar "/"))];
    seqOf [literal "microsoft"; anything; literal "teams"];
    seqOf [literal "teams"; anything; literal "files"];
    seqOf [literal "\teams\"; plus (ReClass (notChar "\"))];
    seqOf [literal "teams"; anything; literal "chat"];
    seqOf [literal "teams"; anything; literal "project"] ].

Definition office365Patterns : list RegExp :=
  [ literal "office365";
    literal "o365";
    seqOf [literal "microsoft"; anything; literal "365"] ].

Definition enterpriseHeuristics : list RegExp :=
  [ seqOf [literal "sync"; anything; plus (ReClass wordChar); literal ".";
           plus (ReClass wordChar)];
    seqOf [plus (ReClass wordChar); literal "."; plus (ReClass wordChar);
           anything; literal "sync"];
    seqOf [literal "corporate"; anything; literal "data"];
    seqOf [literal "company"; anything; literal "files"] ].

(** [patterns.some(pattern => pattern.test(s))] *)
Definition someTest (patterns : list RegExp) (s : string) : bool :=
  existsb (fun pattern => test pattern s) patterns.

Definition detected (kind : SyncType) (why : string) : EnterpriseDetection :=
  {| isEnterprise := true; syncType := Some kind; reason := Some why |}.

Section OnHost.

Variable host : Host.

Definition detectEnterpriseSync (pathToCheck : string)
  : EnterpriseDetection :=
  let normalized := toLowerCase (path_normalize host pathToCheck) in
  if someTest oneDriveBusinessPatterns normalized then
    detected OneDrive "OneDrive Business/Enterprise directory detected"
  else if someTest sharePointPatterns normalized then
    detected SharePoint "SharePoint directory detected"
  else if someTest teamsPatterns normalized then
    detected Teams "Microsoft Teams directory detected"
  else if someTest office365Patterns normalized then
    detected Office365 "Office 365 directory detected"
  else if someTest enterpriseHeuristics normalized then
    detected UnknownSync "Corporate sync directory pattern detected"
  else {| isEnterprise := false; syncType := None; reason := None |}.

(** *** [analyzePathSecurity] *)

Record PathAnalysis : Type := {
  containsTraversal : bool;
  isAbsolute : bool;
  potentiallyDangerous : bool;
  recommendations : list string
}.

Definition dangerousPatterns : list RegExp :=
  [ literal "system32";
    literal "windows";
    literal "boot";
    seqOf [literal "etc/"; ReAlt (literal "passwd") (literal "shadow")];
    literal "program files";
    literal "program files (x86)";
    literal "/bin";
    literal "/sbin";
    literal "/usr/bin";
    literal "/var";
    seqOf [literal "onedrive"; anything; literal "business"];
    seqOf [literal "onedrive"; anything; literal "entreprise"];
    literal "sharepoint";
    seqOf [literal "sites/"; plus (ReClass (notChar "/"))];
    seqOf [literal "teams/"; plus (ReClass (notChar "/"))];
    seqOf [literal "microsoft"; anything; literal "teams"];
    literal "office365";
    literal "o365";
    seqOf [literal "sync"; anything; plus (ReClass wordChar); literal ".";
           plus (ReClass wordChar)];
    seqOf [literal "shared"; anything; literal "documents"];
    seqOf [literal "company"; anything; literal "files"];
    seqOf [literal "corporate"; anything; literal "data"];
    seqOf [literal "users/"; plus (ReClass (notChar "/")); literal "/onedrive";
           anything; literal "-"];
    seqOf [literal "onedrive"; anything; literal "-"; anything;
           plus (ReClass wordChar)] ].

Definition analyzePathSecurity (pathToAnalyze : string) : PathAnalysis :=
  let normalized := path_normalize host pathToAnalyze in
  let traversal := includes normalized ".." in
  let absolute := path_isAbsolute host normalized in
  let dangerous := someTest dangerousPatterns normalized in
  {| containsTraversal := traversal;
     isAbsolute := absolute;
     potentiallyDangerous := dangerous;
     recommendations :=
       ((if traversal
         then ["Avoid directory traversal sequences (..)"] else [])
        ++ (if negb absolute
            then ["Prefer absolute paths to avoid ambiguity"] else [])
        ++ (if dangerous
            then ["This path accesses a sensitive system area"] else []))%list
  |}.

(** *** [validateAllowedDirectory] *)

(** What the text of [generateConciseSecurityMessage] is built from: the
    directory, the reason, and the kind of synchronisation it names when the
    directory is detected as an enterprise one.  The wording is left out. *)
Record ConciseMessage : Type := {
  blockedDirectory : string;
  blockedReason : string;
  namedSync : option SyncType
}.

Definition generateConciseSecurityMessage (directory why : string)
  : ConciseMessage :=
  let enterpriseDetection := detectEnterpriseSync directory in
  {| blockedDirectory := directory;
     blockedReason := why;
     namedSync := if isEnterprise enterpriseDetection
                  then syncType enterpriseDetection else None |}.

Inductive Validation : Type :=
| CanBeAdded (message : string)
| Blocked (error : ConciseMessage).

Definition success (v : Validation) : bool :=
  match v with CanBeAdded _ => true | Blocked _ => false end.

Definition sensitiveDirectories : list string :=
  [ "C:\Windows"; "C:\Program Files"; "C:\Program Files (x86)";
    "/bin"; "/sbin"; "/usr/bin"; "/etc"; "/var"; "/boot";
    "/System"; "/Library"; "/Applications";
    "OneDrive - ";
    "SharePoint"; "Sites"; "Teams"; "Microsoft Teams";
    "Office365"; "O365";
    "Sync"; "Shared Documents"; "Company Files"; "Corporate Data" ].

Definition orReason (x : option string) (fallback : string) : string :=
  match x with
  | Some v => if v =? "" then fallback else v
  | None => fallback
  end.

Definition validateAllowedDirectory (directory : string) : Validation :=
  let normalizedDir := path_normalize host directory in
  if existsb (fun dir => startsWith normalizedDir dir) sensitiveDirectories
  then Blocked (generateConciseSecurityMessage directory
                  "Sensitive system directory detected")
  else if includes normalizedDir ".."
  then Blocked (generateConciseSecurityMessage directory
                  "Directory path contains traversal sequences")
  else
    let enterpriseDetection := detectEnterpriseSync directory in
    if isEnterprise enterpriseDetection
    then Blocked (generateConciseSecurityMessage directory
                    (orReason (reason enterpriseDetection)
                       "Enterprise sync directory detected"))
    else CanBeAdded ("Directory can be safely added: " ++ directory).

End OnHost.

End Security.

(* ===================================================================== *)
(** ** [tools/config.ts] and [getAllowedDirs]: the allowed set            *)
(* ===================================================================== *)

Module Config.

Import JsString.
Local Open Scope string_scope.

(** What [addAllowedDirectory] answers. *)
Inductive AddResult : Type :=
| CannotAdd (directory : string) (error : Security.ConciseMessage)
| AlreadyPresent (directory : string)
| Added (directory : string) (newDirs : list string).

Definition isError (r : AddResult) : bool :=
  match r with
  | CannotAdd _ _ => true
  | _ => false
  end.

Section Store.

Variable host : Host.

(** The configuration manager, whose source is not part of these files: a
    store [getConfig] reads [allowedDirectories] from ([None] when the key
    holds no array) and [setValue('allowedDirectories', _)] writes to.
    Neither is taken to throw. *)
Variable Store : Type.
Variable allowedDirectoriesOf : Store -> option (list string).
Variable setAllowedDirectories : Store -> list string -> Store.

(** [os.tmpdir()] *)
Variable tmpdir : string.

Definition secureDefaults : list string :=
  [ path_join host (path_join host (os_homedir host) ".claude-server-commander")
      "workspace";
    path_join host (path_join host (os_homedir host) "Documents")
      "claude-projects";
    tmpdir ].

(** [getAllowedDirs] of [filesystem.ts]: the list the gate uses, and the
    store it leaves. *)
Definition getAllowedDirs (s : Store) : list string * Store :=
  match allowedDirectoriesOf s with
  | Some dirs => (dirs, s)
  | None => (secureDefaults, setAllowedDirectories s secureDefaults)
  end.

(** [addAllowedDirectory] of [config.ts]. *)
Definition addAllowedDirectory (s : Store) (directory : string)
  : AddResult * Store :=
  match Security.validateAllowedDirectory host directory with
  | Security.Blocked error => (CannotAdd directory error, s)
  | Security.CanBeAdded _ =>
      let currentDirs :=
        match allowedDirectoriesOf s with
        | Some dirs => dirs
        | None => []
        end in
      if existsb (String.eqb directory) currentDirs
      then (AlreadyPresent directory, s)
      else
        let newDirs := (currentDirs ++ [directory])%list in
        (Added directory newDirs, setAllowedDirectories s newDirs)
  end.

End Store.

End Config.

(* ===================================================================== *)
(** * Properties                                                          *)
(* ===================================================================== *)

(** ** PathGate *)

Module PathGateFacts.

Import JsString PathGate.
Local Open Scope string_scope.

(** The comparison of the specification: equality or nesting under a
    directory, nesting being a prefix match on the directory followed by the
    separator, on lower-cased text on Windows and on the text as it is
    elsewhere. *)
Definition foldCase (host : Host) (s : string) : string :=
  if win32 host then toLowerCase s else s.

Definition equalsOrNestedUnder (host : Host) (p d : string) : Prop :=
  foldCase host p = foldCase host d
  \/ startsWith (foldCase host p) (foldCase host d ++ path_sep host) = true.

(** The canonicalized absolute form of a requested path. *)
Definition canonicalAbsolute (host : Host) (p : string) : string :=
  canonical host (toAbsolutePath host p).

(** Admission as the specification words it: the canonical form of the path
    equals or is nested under some canonicalized member of the allowed set. *)
Definition specAdmits (host : Host) (allowed : list string) (p : string)
  : Prop :=
  exists d, In d allowed
            /\ equalsOrNestedUnder host (canonicalAbsolute host p)
                 (canonical host d).

(** The containment the specification expects of an admitted existing path:
    what [validatePath] returns is the real path and is itself inside the
    allowed set. *)
Definition returnedPathContained (host : Host) (disk : Disk)
  (allowed : list string) (p : string) : Prop :=
  forall real,
    fs_stat disk (toAbsolutePath host p) = true ->
    fs_realpath disk (toAbsolutePath host p) = Some real ->
    admitted host disk allowed p = true ->
    validatePath host disk allowed p = Allowed real
    /\ isPathAllowed host allowed real = true.

(** A denial that comes from the traversal test of [isPathAllowed]. *)
Definition deniedForTraversal (host : Host) (allowed : list string)
  (p : string) : Prop :=
  secureVerdict host (toAbsolutePath host p) allowed = TraversalDetected.

(** A disk on which [/workspace/link] is a symbolic link to [/etc/passwd]. *)
Definition linkDisk : Disk := {|
  fs_stat := fun p => (p =? "/workspace/link") || (p =? "/workspace");
  fs_realpath := fun p =>
    if p =? "/workspace/link" then Some "/etc/passwd"
    else if p =? "/workspace" then Some "/workspace"
    else None
|}.

Section Facts.

Variable host : Host.
Variable disk : Disk.

Lemma withinDir_spec (p d : string) :
  withinDir host p d = true
  <-> equalsOrNestedUnder host p (canonical host d).
Proof.
  unfold withinDir, equalsOrNestedUnder, foldCase.
  destruct (win32 host); rewrite orb_true_iff, String.eqb_eq; tauto.
Qed.

Lemma secureIsPathAllowed_spec (p : string) (allowed : list string) :
  secureIsPathAllowed host p allowed = true
  <-> includes (canonical host p) ".." = false
      /\ exists d, In d allowed
                   /\ equalsOrNestedUnder host (canonical host p)
                        (canonical host d).
Proof.
  unfold secureIsPathAllowed.
  destruct (includes (canonical host p) "..") eqn:Hdots.
  - split; [discriminate | intros [H _]; discriminate].
  - rewrite existsb_exists. split.
    + intros [d [Hin Hd]]. split; [reflexivity |].
      exists d. split; [exact Hin | now apply withinDir_spec].
    + intros [_ [d [Hin Hd]]]. exists d.
      split; [exact Hin | now apply withinDir_spec].
Qed.

Lemma isPathAllowed_secure (allowed : list string) (p : string) :
  isPathAllowed host allowed p = secureIsPathAllowed host p allowed.
Proof.
  destruct allowed as [|d rest]; [|reflexivity].
  unfold isPathAllowed, secureIsPathAllowed. simpl.
  now destruct (includes (canonical host p) "..").
Qed.

Lemma admitted_isPathAllowed (allowed : list string) (p : string) :
  admitted host disk allowed p
  = isPathAllowed host allowed (toAbsolutePath host p).
Proof.
  unfold admitted, validatePath.
  destruct (isPathAllowed host allowed (toAbsolutePath host p)); simpl;
    [|reflexivity].
  destruct (fs_stat disk (toAbsolutePath host p));
    [destruct (fs_realpath disk (toAbsolutePath host p)) |];
    try reflexivity;
    now destruct (validateParentDirectories _ _ _ _).
Qed.

Lemma secureVerdict_allowed (p : string) (allowed : list string) :
  secureIsPathAllowed host p allowed = true
  <-> secureVerdict host p allowed = WithinAllowedRoot.
Proof.
  unfold secureIsPathAllowed, secureVerdict.
  destruct (includes (canonical host p) "..");
    [|destruct (existsb _ allowed)]; split; congruence.
Qed.

(** C2, amended.  For every path [p] and allowed set [A], admission succeeds
    if and only if the canonicalized absolute form of [p] does not contain
    [..] and equals some canonicalized member of [A] or is nested under one,
    nesting being the prefix match on the directory followed by the
    separator, compared case-insensitively on Windows and case-sensitively
    elsewhere. *)
Theorem admission_characterised (allowed : list string) (p : string) :
  admitted host disk allowed p = true
  <-> includes (canonicalAbsolute host p) ".." = false
      /\ specAdmits host allowed p.
Proof.
  rewrite admitted_isPathAllowed, isPathAllowed_secure.
  apply secureIsPathAllowed_spec.
Qed.

(** For every requested path that exists on disk and is admitted,
    [validatePath] returns the real path [fs.realpath] gives for its absolute
    form, whatever that path is: the allowed set is consulted for the
    absolute form only, before the links are resolved. *)
Lemma validatePath_returns_realpath (allowed : list string)
  (p real : string) :
  fs_stat disk (toAbsolutePath host p) = true ->
  fs_realpath disk (toAbsolutePath host p) = Some real ->
  admitted host disk allowed p = true ->
  validatePath host disk allowed p = Allowed real
  /\ isPathAllowed host allowed (toAbsolutePath host p) = true.
Proof.
  intros Hstat Hreal Hadm.
  rewrite admitted_isPathAllowed in Hadm.
  split; [|exact Hadm].
  unfold validatePath. now rewrite Hadm, Hstat, Hreal.
Qed.

(** C3, amended.  For every requested path whose normalized absolute form
    still contains [..], admission returns the denial, whatever the allowed
    set and the disk.  The path [/workspace/../etc/passwd] is denied as well
    when [/workspace] is the allowed set, by the test on the allowed roots and
    with the same error: once normalized it is [/etc/passwd] and holds no
    [..]. *)
Theorem traversal_is_denied (allowed : list string) (p : string) :
  includes (canonicalAbsolute host p) ".." = true ->
  (validatePath host disk allowed p = PathNotAllowed p allowed
   /\ deniedForTraversal host allowed p)
  /\ (validatePath posix disk ["/workspace"] "/workspace/../etc/passwd"
      = PathNotAllowed "/workspace/../etc/passwd" ["/workspace"]
      /\ secureVerdict posix
           (toAbsolutePath posix "/workspace/../etc/passwd") ["/workspace"]
         = OutsideAllowedRoots).
Proof.
  intros Hdots. unfold canonicalAbsolute in Hdots. split; split.
  - unfold validatePath. rewrite isPathAllowed_secure.
    unfold secureIsPathAllowed. now rewrite Hdots.
  - unfold deniedForTraversal, secureVerdict. now rewrite Hdots.
  - reflexivity.
  - reflexivity.
Qed.

End Facts.

(** C2, counterexample.  With [/workspace] allowed, [/workspace/a..b] is
    nested under an allowed directory and yet is not admitted. *)
Lemma nested_path_with_dots_not_admitted :
  ~ (admitted posix linkDisk ["/workspace"] "/workspace/a..b" = true
     <-> specAdmits posix ["/workspace"] "/workspace/a..b").
Proof.
  intros [_ H].
  assert (Hspec : specAdmits posix ["/workspace"] "/workspace/a..b").
  { exists "/workspace". split; [now left |]. right. reflexivity. }
  specialize (H Hspec). vm_compute in H. discriminate.
Qed.

(** With [/workspace] allowed and [/workspace/link] a link to [/etc/passwd],
    the link is admitted and the path returned, [/etc/passwd], is outside
    the allowed set. *)
Lemma symlink_target_escapes :
  ~ returnedPathContained posix linkDisk ["/workspace"] "/workspace/link".
Proof.
  intros H. destruct (H "/etc/passwd" eq_refl eq_refl eq_refl) as [_ Hin].
  vm_compute in Hin. discriminate.
Qed.

Lemma symlink_is_admitted :
  validatePath posix linkDisk ["/workspace"] "/workspace/link"
  = Allowed "/etc/passwd".
Proof. reflexivity. Qed.

(** What [fs.readFile] finds on that disk: the one file [/etc/passwd]. *)
Definition passwdBytes (p : string) : option Reader.text :=
  if p =? "/etc/passwd" then Some (Reader.txt "root:x:0:0") else None.

Definition alwaysText (p : string) : string * bool := ("text/plain", false).

(** C1, at the failing input.  [/workspace] is the one allowed directory and
    [/workspace/link] a symbolic link to [/etc/passwd].  The gate denies
    [/etc/passwd] when it is asked for; [validatePath] admits the link and
    returns [/etc/passwd], a path outside every allowed directory;
    [readFileFromDisk] on the link then returns the content of
    [/etc/passwd].  [readMultipleFiles], which sends the path [validatePath]
    returned through [validatePath] again, refuses the same link. *)
Theorem symlink_escapes_allowed_set :
  validatePath posix linkDisk ["/workspace"] "/etc/passwd"
  = PathNotAllowed "/etc/passwd" ["/workspace"]
  /\ validatePath posix linkDisk ["/workspace"] "/workspace/link"
     = Allowed "/etc/passwd"
  /\ isPathAllowed posix ["/workspace"] "/etc/passwd" = false
  /\ Reader.readFileFromDisk posix linkDisk ["/workspace"] passwdBytes
       alwaysText (fun b => b) 1000 "/workspace/link" 0 None
     = Reader.FileOk
         (Reader.renderContent true
            (Reader.generateEnhancedStatusMessage 1 0 (Some 1%Z) false)
            [Reader.txt "root:x:0:0"])
         "text/plain" false
  /\ FileTools.readMultipleFiles posix linkDisk ["/workspace"] passwdBytes
       alwaysText (fun b => b) 1000 ["/workspace/link"]
     = [FileTools.MultiError "/workspace/link"
          (denialMessage "/etc/passwd" ["/workspace"])].
Proof.
  split; [reflexivity |].
  split; [reflexivity |].
  split; [reflexivity |].
  split; vm_compute; reflexivity.
Qed.

(** C3, counterexample.  [/workspace/../etc/passwd] is denied, but not by the
    traversal test: normalization leaves [/etc/passwd], which is outside the
    allowed roots. *)
Lemma example_not_denied_for_traversal :
  ~ deniedForTraversal posix ["/workspace"] "/workspace/../etc/passwd".
Proof. unfold deniedForTraversal. vm_compute. discriminate. Qed.

(** Witnesses. *)

Lemma traversal_is_denied_witness :
  (validatePath posix linkDisk ["/workspace"] "/workspace/a..b"
   = PathNotAllowed "/workspace/a..b" ["/workspace"]
   /\ deniedForTraversal posix ["/workspace"] "/workspace/a..b")
  /\ (validatePath posix linkDisk ["/workspace"] "/workspace/../etc/passwd"
      = PathNotAllowed "/workspace/../etc/passwd" ["/workspace"]
      /\ secureVerdict posix
           (toAbsolutePath posix "/workspace/../etc/passwd") ["/workspace"]
         = OutsideAllowedRoots).
Proof.
  apply (@traversal_is_denied posix linkDisk ["/workspace"] "/workspace/a..b").
  reflexivity.
Defined.

End PathGateFacts.

(** ** LineAddressableReader *)

Module ReaderFacts.

Import Reader.

(** *** Lists *)

(** The last [k] entries of a list. *)
Definition lastn {A : Type} (k : nat) (xs : list A) : list A :=
  skipn (List.length xs - k) xs.

Lemma jsSlice_all {A : Type} (xs : list A) (stop : Z) :
  (lengthZ xs <= stop)%Z -> jsSlice xs 0 stop = xs.
Proof.
  unfold jsSlice, lengthZ. intros Hstop.
  assert (Hneg : (stop <? 0)%Z = false) by (apply Z.ltb_ge; lia).
  rewrite Hneg. simpl.
  rewrite Z.min_r by lia. rewrite Z.min_l by lia.
  rewrite Z.sub_0_r, Nat2Z.id. apply firstn_all.
Qed.

Lemma jsSliceFrom_lastn {A : Type} (xs : list A) (k : nat) :
  0 < k -> jsSliceFrom xs (- Z.of_nat k) = lastn k xs.
Proof.
  intros Hk. unfold jsSliceFrom, jsSlice, lastn.
  assert (Hneg : (- Z.of_nat k <? 0)%Z = true) by (apply Z.ltb_lt; lia).
  rewrite Hneg.
  assert (Hstop : (Z.of_nat (List.length xs) <? 0)%Z = false)
    by (apply Z.ltb_ge; lia).
  rewrite Hstop, Z.min_id.
  replace (Z.to_nat (Z.max (Z.of_nat (List.length xs) + - Z.of_nat k) 0))
    with (List.length xs - k) by lia.
  apply firstn_all2. rewrite length_skipn. lia.
Qed.

Lemma lastn_app {A : Type} (k : nat) (xs ys : list A) :
  k <= List.length ys -> lastn k (xs ++ ys) = lastn k ys.
Proof.
  intros Hk. unfold lastn. rewrite length_app.
  replace (List.length xs + List.length ys - k)
    with (List.length xs + (List.length ys - k)) by lia.
  rewrite skipn_app.
  rewrite skipn_all2 by lia.
  replace (List.length xs + (List.length ys - k) - List.length xs)
    with (List.length ys - k) by lia.
  reflexivity.
Qed.

Lemma joinWith_nil (xs : list text) : joinWith [] xs = List.concat xs.
Proof.
  induction xs as [|x rest IH]; [reflexivity |].
  destruct rest as [|y rest].
  - simpl. now rewrite app_nil_r.
  - change (joinWith [] (x :: y :: rest))
      with (x ++ [] ++ joinWith [] (y :: rest)).
    rewrite IH. reflexivity.
Qed.

(** *** Internal mode *)

Lemma splitLoop_concat_bounded (n : nat) :
  forall (s : text) (lines : list text) (cur : text),
    List.length s <= n ->
    List.concat (fst (splitLoop s lines cur)) ++ snd (splitLoop s lines cur)
    = List.concat lines ++ cur ++ s.
Proof.
  induction n as [|n IH]; intros s lines cur Hlen.
  - destruct s; [simpl; now rewrite app_nil_r | simpl in Hlen; lia].
  - destruct s as [|c rest]; simpl; [now rewrite app_nil_r |].
    simpl in Hlen.
    destruct (Ascii.eqb c LF) eqn:Hlf.
    + rewrite IH by lia.
      rewrite concat_app. simpl.
      repeat rewrite app_nil_r. now repeat rewrite <- app_assoc.
    + destruct (Ascii.eqb c CR) eqn:Hcr.
      * destruct rest as [|c' rest'].
        -- rewrite IH by (simpl; lia).
           rewrite concat_app. simpl.
           repeat rewrite app_nil_r. now repeat rewrite <- app_assoc.
        -- simpl in Hlen. destruct (Ascii.eqb c' LF) eqn:Hlf'.
           ++ rewrite IH by lia.
              rewrite concat_app. simpl.
              repeat rewrite app_nil_r. now repeat rewrite <- app_assoc.
           ++ rewrite IH by (simpl; lia).
              rewrite concat_app. simpl.
              repeat rewrite app_nil_r. now repeat rewrite <- app_assoc.
      * rewrite IH by lia. now repeat rewrite <- app_assoc.
Qed.

Lemma splitLoop_concat (s : text) (lines : list text) (cur : text) :
  List.concat (fst (splitLoop s lines cur)) ++ snd (splitLoop s lines cur)
  = List.concat lines ++ cur ++ s.
Proof. now apply (@splitLoop_concat_bounded (List.length s)). Qed.

Lemma splitLinesPreservingEndings_concat (content : text) :
  List.concat (splitLinesPreservingEndings content) = content.
Proof.
  unfold splitLinesPreservingEndings.
  destruct content as [|c rest]; [reflexivity |].
  pose proof (splitLoop_concat (c :: rest) [] []) as H.
  destruct (splitLoop (c :: rest) [] []) as [lines cur]. simpl in H.
  destruct cur as [|a cur'].
  - now rewrite app_nil_r in H.
  - rewrite concat_app. simpl. now rewrite app_nil_r.
Qed.

Lemma internalContent_whole (content : text) (length : Z) :
  (lengthZ (splitLinesPreservingEndings content) <= length)%Z ->
  internalContent content 0 length = content.
Proof.
  intros Hlen. unfold internalContent.
  destruct ((0 =? 0)%Z && (MAX_SAFE_INTEGER <=? length)%Z); [reflexivity |].
  rewrite Z.add_0_l, jsSlice_all by exact Hlen.
  rewrite joinWith_nil. apply splitLinesPreservingEndings_concat.
Qed.

(** *** Forward reads past the end *)

Lemma forwardLoop_past_end (lines : list text) (offset length lineNumber : Z) :
  (lineNumber + lengthZ lines <= offset)%Z ->
  forwardLoop lines offset length lineNumber [] = [].
Proof.
  revert lineNumber.
  induction lines as [|line rest IH]; intros lineNumber Hpast;
    [reflexivity |].
  unfold lengthZ in Hpast. simpl List.length in Hpast.
  simpl.
  assert (Hbefore : (offset <=? lineNumber)%Z = false)
    by (apply Z.leb_gt; lia).
  rewrite Hbefore. simpl.
  destruct (length <=? lengthZ (@nil text))%Z; [reflexivity |].
  apply IH. unfold lengthZ. lia.
Qed.

(** *** Splitting on line feeds *)

Lemma splitLFAcc_hd_tl (s cur : text) :
  splitLFAcc s cur = (cur ++ hd [] (splitLF s)) :: tl (splitLF s).
Proof.
  revert cur. unfold splitLF.
  induction s as [|c rest IH]; intros cur; simpl.
  - now rewrite app_nil_r.
  - destruct (Ascii.eqb c LF).
    + simpl. now rewrite app_nil_r.
    + rewrite (IH (cur ++ [c])), (IH [c]). simpl.
      now rewrite <- app_assoc.
Qed.

Lemma splitLFAcc_no_LF (p cur : text) :
  ~ In LF p -> splitLFAcc p cur = [cur ++ p].
Proof.
  revert cur. induction p as [|c rest IH]; intros cur Hno; simpl.
  - now rewrite app_nil_r.
  - destruct (Ascii.eqb c LF) eqn:Hc.
    + apply Ascii.eqb_eq in Hc. subst c. exfalso. apply Hno. now left.
    + rewrite IH by (intros Hin; apply Hno; now right).
      now rewrite <- app_assoc.
Qed.

Lemma splitLFAcc_hd_no_LF (s cur : text) :
  ~ In LF cur -> ~ In LF (hd [] (splitLFAcc s cur)).
Proof.
  revert cur. induction s as [|c rest IH]; intros cur Hno; simpl.
  - exact Hno.
  - destruct (Ascii.eqb c LF) eqn:Hc; [exact Hno |].
    apply IH. intros Hin. apply in_app_or in Hin.
    destruct Hin as [Hin | [Heq | []]]; [now apply Hno |].
    subst c. now rewrite Ascii.eqb_refl in Hc.
Qed.

(** Cutting a text in front of a split: the pieces after the first one are
    not touched by what is put in front. *)
Lemma splitLFAcc_prepend (chunk rest partialLine cur : text)
  (lines : list text) :
  ~ In LF partialLine ->
  splitLF rest = partialLine :: lines ->
  splitLFAcc (chunk ++ rest) cur
  = splitLFAcc (chunk ++ partialLine) cur ++ lines.
Proof.
  intros Hno Hrest. revert cur.
  induction chunk as [|c chunk' IH]; intros cur; simpl.
  - rewrite splitLFAcc_hd_tl, Hrest. simpl.
    now rewrite splitLFAcc_no_LF.
  - destruct (Ascii.eqb c LF); [now rewrite IH | apply IH].
Qed.

Lemma splitLF_hd_tl (s : text) :
  splitLF s = hd [] (splitLF s) :: tl (splitLF s).
Proof.
  unfold splitLF at 1. now rewrite splitLFAcc_hd_tl.
Qed.

(** *** The backward chunk loop *)

(** The first entry of a split is dropped by the loop when it is empty. *)
Definition dropEmptyHead (xs : list text) : list text :=
  match xs with
  | [] :: rest => rest
  | _ => xs
  end.

Lemma skipn_chunk (content : text) (position readSize : nat) :
  readSize <= position ->
  skipn (position - readSize) content
  = firstn readSize (skipn (position - readSize) content)
    ++ skipn position content.
Proof.
  intros Hle.
  rewrite <- (firstn_skipn readSize (skipn (position - readSize) content))
    at 1.
  rewrite skipn_skipn.
  now replace (readSize + (position - readSize)) with position by lia.
Qed.

Lemma reverseLoop_invariant (content : text) (n position : nat)
  (lines : list text) (partialLine : text) :
  ~ In LF partialLine ->
  splitLF (skipn position content) = partialLine :: lines ->
  let '(position', lines', partialLine') :=
    reverseLoop content n position lines partialLine in
  ~ In LF partialLine'
  /\ splitLF (skipn position' content) = partialLine' :: lines'
  /\ (position' = 0 \/ n <= List.length lines').
Proof.
  funelim (reverseLoop content n position lines partialLine);
    intros Hno Hsplit.
  - auto.
  - match goal with
    | IH : _ -> _ -> _ |- _ => apply IH
    end.
    + apply splitLFAcc_hd_no_LF. intros [].
    + pose proof (@skipn_chunk content (S p) (Nat.min CHUNK_SIZE (S p))
                    (Nat.le_min_r _ _)) as Hcut.
      set (chunk := firstn (Nat.min CHUNK_SIZE (S p))
                      (skipn (S p - Nat.min CHUNK_SIZE (S p)) content)) in *.
      rewrite Hcut. unfold splitLF at 1.
      rewrite (@splitLFAcc_prepend _ _ partialLine [] lines Hno Hsplit).
      fold (splitLF (chunk ++ partialLine)).
      now rewrite (splitLF_hd_tl (chunk ++ partialLine)) at 1.
  - apply Nat.ltb_ge in Heq. auto.
Qed.

(** What the backward chunk reader keeps: the last [n] entries of the file
    split on line feeds, the first entry being left out when it is empty. *)
Lemma reverseTailLines_spec (content : text) (n : nat) :
  0 < n ->
  reverseTailLines content n = lastn n (dropEmptyHead (splitLF content)).
Proof.
  intros Hn. unfold reverseTailLines.
  assert (Hstart : splitLF (skipn (List.length content) content) = [[]])
    by now rewrite skipn_all.
  pose proof (@reverseLoop_invariant content n (List.length content) [] []
                (fun H => H) Hstart) as Hinv.
  destruct (reverseLoop content n (List.length content) [] [])
    as [[position lines] partialLine].
  destruct Hinv as [Hno [Hsplit Hexit]].
  rewrite jsSliceFrom_lastn by exact Hn.
  destruct position as [|position].
  - simpl in Hsplit. rewrite Hsplit. simpl.
    destruct partialLine; reflexivity.
  - destruct Hexit as [Hzero | Hfull]; [discriminate |].
    cbn [Nat.eqb andb].
    assert (Hwhole : splitLF content
                     = splitLF (firstn (S position) content ++ partialLine)
                       ++ lines).
    { rewrite <- (firstn_skipn (S position) content) at 1.
      unfold splitLF at 1.
      now rewrite (@splitLFAcc_prepend _ _ partialLine [] lines Hno Hsplit). }
    rewrite Hwhole.
    rewrite (splitLF_hd_tl (firstn (S position) content ++ partialLine)).
    rewrite <- app_comm_cons.
    destruct (hd [] (splitLF (firstn (S position) content ++ partialLine)));
      unfold dropEmptyHead; symmetry.
    + now apply lastn_app.
    + rewrite app_comm_cons. now apply lastn_app.
Qed.

(** *** The circular buffer *)

Lemma setAt_length {A : Type} (i : nat) (x : A) (xs : list A) :
  List.length (setAt i x xs) = List.length xs.
Proof.
  revert i. induction xs as [|y rest IH]; intros [|i]; simpl; auto.
Qed.

Lemma setAt_middle {A : Type} (front : list A) (x y : A) (back : list A) :
  setAt (List.length front) x (front ++ y :: back) = front ++ x :: back.
Proof.
  induction front as [|z front IH]; simpl; [reflexivity | now rewrite IH].
Qed.

Lemma setAt_middle_at {A : Type} (i : nat) (front : list A) (x y : A)
  (back : list A) :
  i = List.length front ->
  setAt i x (front ++ y :: back) = front ++ x :: back.
Proof. intros ->. apply setAt_middle. Qed.

Lemma map_tail {A B : Type} (f : A -> B) (xs : list A) :
  map f (tl xs) = tl (map f xs).
Proof. now destruct xs. Qed.

Lemma tl_skipn {A : Type} (n : nat) (xs : list A) :
  tl (skipn n xs) = skipn (S n) xs.
Proof.
  revert xs. induction n as [|n IH]; intros [|x rest]; simpl; auto.
Qed.

Lemma lastn_snoc {A : Type} (k : nat) (xs : list A) (x : A) :
  0 < k -> k <= List.length xs ->
  lastn k (xs ++ [x]) = tl (lastn k xs) ++ [x].
Proof.
  intros Hk Hle. unfold lastn.
  rewrite tl_skipn, length_app, skipn_app. simpl List.length.
  replace (List.length xs + 1 - k) with (S (List.length xs - k)) by lia.
  replace (S (List.length xs - k) - List.length xs) with 0 by lia.
  reflexivity.
Qed.

Lemma lastn_short {A : Type} (k : nat) (xs : list A) :
  List.length xs <= k -> lastn k xs = xs.
Proof.
  intros Hle. unfold lastn.
  now replace (List.length xs - k) with 0 by lia.
Qed.

(** The state of the buffer once the lines [seen] went through it. *)
Definition bufferHolds (k : nat) (seen : list text)
  (buffer : list (option text)) (bufferIndex : nat) : Prop :=
  List.length buffer = k
  /\ bufferIndex = List.length seen mod k
  /\ (List.length seen < k ->
      buffer = map Some seen ++ repeat None (k - List.length seen))
  /\ (k <= List.length seen ->
      skipn bufferIndex buffer ++ firstn bufferIndex buffer
      = map Some (lastn k seen)).

Lemma bufferHolds_step (k : nat) (seen : list text)
  (buffer : list (option text)) (bufferIndex : nat) (line : text) :
  0 < k ->
  bufferHolds k seen buffer bufferIndex ->
  bufferHolds k (seen ++ [line]) (setAt bufferIndex (Some line) buffer)
    ((bufferIndex + 1) mod k).
Proof.
  intros Hk [Hlen [Hidx [Hfill Hrot]]].
  assert (Hlt : bufferIndex < k)
    by (rewrite Hidx; apply Nat.mod_upper_bound; lia).
  repeat split.
  - now rewrite setAt_length.
  - rewrite Hidx, length_app. simpl List.length.
    now rewrite Nat.Div0.add_mod_idemp_l.
  - rewrite length_app. simpl List.length. intros Hshort.
    assert (Hseen : List.length seen < k) by lia.
    rewrite (Hfill Hseen).
    rewrite Hidx, (Nat.mod_small (List.length seen) k) by lia.
    replace (k - List.length seen) with (S (k - (List.length seen + 1)))
      by lia.
    simpl repeat.
    rewrite setAt_middle_at by now rewrite length_map.
    rewrite map_app. simpl. now rewrite <- app_assoc.
  - rewrite length_app. simpl List.length. intros Hfull.
    destruct (Nat.lt_ge_cases (List.length seen) k) as [Hseen | Hseen].
    + (* the buffer becomes full with this line *)
      assert (Hk' : k = List.length seen + 1) by lia.
      rewrite (Hfill Hseen).
      rewrite Hidx, (Nat.mod_small (List.length seen) k) by lia.
      replace (k - List.length seen) with 1 by lia. simpl repeat.
      rewrite setAt_middle_at by now rewrite length_map.
      replace ((List.length seen + 1) mod k) with 0
        by (rewrite <- Hk'; now rewrite Nat.Div0.mod_same).
      simpl. rewrite app_nil_r, lastn_short
        by (rewrite length_app; simpl; lia).
      now rewrite map_app.
    + (* the oldest line is overwritten *)
      specialize (Hrot Hseen).
      rewrite (lastn_snoc line Hk Hseen), map_app, map_tail, <- Hrot.
      assert (Hbuf : buffer = firstn bufferIndex buffer
                              ++ skipn bufferIndex buffer)
        by now rewrite firstn_skipn.
      destruct (skipn bufferIndex buffer) as [|old back] eqn:Hback.
      { exfalso.
        assert (List.length (skipn bufferIndex buffer) = 0)
          by now rewrite Hback.
        rewrite length_skipn in *. lia. }
      assert (Hfront : List.length (firstn bufferIndex buffer) = bufferIndex)
        by (rewrite length_firstn; lia).
      set (front := firstn bufferIndex buffer) in *.
      assert (Hnew : setAt bufferIndex (Some line) buffer
                     = front ++ Some line :: back).
      { rewrite Hbuf at 1. apply setAt_middle_at. now rewrite Hfront. }
      rewrite Hnew. simpl tl.
      assert (Hsize : bufferIndex + S (List.length back) = k).
      { rewrite <- Hlen, Hbuf, length_app. simpl. lia. }
      destruct (Nat.eq_dec (bufferIndex + 1) k) as [Hwrap | Hnowrap].
      * rewrite Hwrap, Nat.Div0.mod_same. simpl.
        destruct back; [|simpl in Hsize; lia].
        simpl. now rewrite app_nil_r.
      * rewrite Nat.mod_small by lia.
        rewrite skipn_app, firstn_app.
        rewrite (skipn_all2 front) by lia.
        rewrite (firstn_all2 front) by lia.
        rewrite Hfront.
        replace (bufferIndex + 1 - bufferIndex) with 1 by lia.
        simpl. now rewrite <- app_assoc.
Qed.

Lemma circularLoop_spec (k : nat) (lines seen : list text)
  (buffer : list (option text)) (bufferIndex : nat) :
  0 < k ->
  bufferHolds k seen buffer bufferIndex ->
  let '(buffer', bufferIndex', totalLines') :=
    circularLoop lines k buffer bufferIndex (List.length seen) in
  bufferHolds k (seen ++ lines) buffer' bufferIndex'
  /\ totalLines' = List.length (seen ++ lines).
Proof.
  intros Hk. revert seen buffer bufferIndex.
  induction lines as [|line rest IH]; intros seen buffer bufferIndex Hinv.
  - simpl. now rewrite app_nil_r.
  - simpl.
    pose proof (bufferHolds_step line Hk Hinv) as Hstep.
    specialize (IH (seen ++ [line]) _ _ Hstep).
    rewrite length_app in IH. simpl List.length in IH.
    rewrite <- app_assoc in IH. exact IH.
Qed.

Lemma jsSlice_prefix {A : Type} (xs : list A) (i : nat) :
  i <= List.length xs -> jsSlice xs 0 (Z.of_nat i) = firstn i xs.
Proof.
  intros Hi. unfold jsSlice.
  assert (Hneg : (Z.of_nat i <? 0)%Z = false) by (apply Z.ltb_ge; lia).
  rewrite Hneg. change (0 <? 0)%Z with false. cbv iota.
  rewrite (Z.min_l 0) by lia. rewrite Z.min_l by lia.
  now rewrite Z.sub_0_r, Nat2Z.id.
Qed.

Lemma jsSliceFrom_suffix {A : Type} (xs : list A) (i : nat) :
  i <= List.length xs -> jsSliceFrom xs (Z.of_nat i) = skipn i xs.
Proof.
  intros Hi. unfold jsSliceFrom, jsSlice.
  assert (Hneg : (Z.of_nat i <? 0)%Z = false) by (apply Z.ltb_ge; lia).
  assert (Hstop : (Z.of_nat (List.length xs) <? 0)%Z = false)
    by (apply Z.ltb_ge; lia).
  rewrite Hneg, Hstop, Z.min_id, Z.min_l, Nat2Z.id by lia.
  apply firstn_all2. rewrite length_skipn. lia.
Qed.

Lemma filter_defined (xs : list text) :
  filter isDefined (map Some xs) = map Some xs.
Proof.
  induction xs as [|x rest IH]; simpl; [reflexivity | now rewrite IH].
Qed.

(** What the circular-buffer reader keeps: the last [k] lines the line
    reader yields. *)
Lemma circularTailSlots_spec (content : text) (k : nat) :
  0 < k ->
  circularTailSlots content k = map Some (lastn k (readlineLines content)).
Proof.
  intros Hk. unfold circularTailSlots.
  assert (Hstart : bufferHolds k [] (repeat None k) 0).
  { repeat split.
    - apply repeat_length.
    - simpl. now rewrite Nat.Div0.mod_0_l.
    - intros _. simpl. now rewrite Nat.sub_0_r.
    - simpl. lia. }
  pose proof (@circularLoop_spec k (readlineLines content) [] _ _ Hk Hstart)
    as Hspec.
  simpl List.length in Hspec. simpl app in Hspec.
  destruct (circularLoop (readlineLines content) k (repeat None k) 0 0)
    as [[buffer bufferIndex] totalLines].
  destruct Hspec as [[Hlen [Hidx [Hfill Hrot]]] Htotal]. subst totalLines.
  assert (Hlt : bufferIndex < k)
    by (rewrite Hidx; apply Nat.mod_upper_bound; lia).
  destruct (k <=? List.length (readlineLines content)) eqn:Hfull.
  - apply Nat.leb_le in Hfull.
    rewrite jsSliceFrom_suffix, jsSlice_prefix by lia.
    rewrite (Hrot Hfull). apply filter_defined.
  - apply Nat.leb_gt in Hfull.
    rewrite jsSlice_prefix by lia.
    rewrite (Hfill Hfull), lastn_short by lia.
    rewrite <- (length_map Some (readlineLines content)) at 1.
    now rewrite firstn_app, firstn_all, Nat.sub_diag, app_nil_r.
Qed.

(** *** Lines counted and lines read *)

(** Every carriage return of the text is followed by a line feed. *)
Fixpoint crOnlyBeforeLF (s : text) : bool :=
  match s with
  | [] => true
  | c :: rest =>
      if Ascii.eqb c CR then
        match rest with
        | c' :: _ => Ascii.eqb c' LF && crOnlyBeforeLF rest
        | [] => false
        end
      else crOnlyBeforeLF rest
  end.

Lemma readline_le_split_bounded (n : nat) :
  forall (s cur cur' : text),
    List.length s <= n ->
    crOnlyBeforeLF s = true ->
    List.length (readlineAcc s cur) <= List.length (splitLFAcc s cur').
Proof.
  induction n as [|n IH]; intros s cur cur' Hlen Hcr.
  - destruct s; [|simpl in Hlen; lia]. simpl. destruct cur; simpl; lia.
  - destruct s as [|c rest]; [simpl; destruct cur; simpl; lia |].
    simpl in Hlen. simpl in Hcr. simpl.
    destruct (Ascii.eqb c LF) eqn:Hlf.
    + assert (Hc : Ascii.eqb c CR = false).
      { apply Ascii.eqb_eq in Hlf. now subst c. }
      rewrite Hc in Hcr. simpl.
      specialize (IH rest [] [] ltac:(lia) Hcr). lia.
    + destruct (Ascii.eqb c CR) eqn:Hcar.
      * destruct rest as [|c' rest']; [discriminate |].
        apply andb_prop in Hcr. destruct Hcr as [Hnext Hrest].
        rewrite Hnext. simpl. rewrite Hnext. simpl.
        simpl in Hlen.
        assert (Hrest' : crOnlyBeforeLF rest' = true).
        { simpl in Hrest.
          assert (Hc' : Ascii.eqb c' CR = false).
          { apply Ascii.eqb_eq in Hnext. now subst c'. }
          now rewrite Hc' in Hrest. }
        specialize (IH rest' [] [] ltac:(lia) Hrest'). lia.
      * apply IH; [lia | exact Hcr].
Qed.

(** On a text whose carriage returns all precede a line feed, the line
    reader yields at most as many lines as [countLines] counts. *)
Lemma readline_count_le_countLines (content : text) :
  crOnlyBeforeLF content = true ->
  (lengthZ (readlineLines content) <= countLines content)%Z.
Proof.
  intros Hcr. unfold lengthZ, countLines, readlineLines, splitLF.
  apply inj_le.
  now apply (@readline_le_split_bounded (List.length content)).
Qed.

(** *** Tail reads *)

Lemma lastn_dropEmptyHead_app (k : nat) (front : list text) (first : text)
  (lines : list text) :
  k <= List.length lines ->
  lastn k (dropEmptyHead ((first :: front) ++ lines)) = lastn k lines.
Proof.
  intros Hk. rewrite <- app_comm_cons.
  destruct first; unfold dropEmptyHead.
  - now apply lastn_app.
  - rewrite app_comm_cons. now apply lastn_app.
Qed.

Lemma splitLFAcc_plain_prefix (c : ascii) (n : nat) (s cur : text) :
  Ascii.eqb c LF = false ->
  splitLFAcc (repeat c n ++ s) cur = splitLFAcc s (cur ++ repeat c n).
Proof.
  intros Hc. revert cur.
  induction n as [|n IH]; intros cur; simpl.
  - now rewrite app_nil_r.
  - rewrite Hc, IH. now rewrite <- app_assoc.
Qed.

Lemma readlineAcc_plain_prefix (c : ascii) (n : nat) (s cur : text) :
  Ascii.eqb c LF = false -> Ascii.eqb c CR = false ->
  readlineAcc (repeat c n ++ s) cur = readlineAcc s (cur ++ repeat c n).
Proof.
  intros Hlf Hcr. revert cur.
  induction n as [|n IH]; intros cur; simpl.
  - now rewrite app_nil_r.
  - rewrite Hlf, Hcr, IH. now rewrite <- app_assoc.
Qed.

(** A file of ten mebibytes of [x], then a line feed and the five lines
    [L1] to [L5], each ended by a line feed. *)
Definition fiveLines : text :=
  txt "L1" ++ [LF] ++ txt "L2" ++ [LF] ++ txt "L3" ++ [LF]
  ++ txt "L4" ++ [LF] ++ txt "L5" ++ [LF].

Definition tenMebibytes : nat := Z.to_nat LARGE_FILE_THRESHOLD.

Lemma tenMebibytes_size : Z.of_nat tenMebibytes = LARGE_FILE_THRESHOLD.
Proof. unfold tenMebibytes. apply Z2Nat.id. discriminate. Qed.

(** The size is not to be unfolded into a unary numeral. *)
Opaque tenMebibytes.

Definition largeFile : text :=
  repeat "x"%char tenMebibytes ++ [LF] ++ fiveLines.

Lemma largeFile_size :
  fileSize largeFile = (LARGE_FILE_THRESHOLD + 16)%Z.
Proof.
  unfold fileSize, largeFile.
  rewrite length_app, repeat_length.
  change (List.length ([LF] ++ fiveLines)) with 16.
  now rewrite Nat2Z.inj_add, tenMebibytes_size.
Qed.

Lemma largeFile_splitLF :
  splitLF largeFile
  = repeat "x"%char tenMebibytes
    :: [txt "L1"; txt "L2"; txt "L3"; txt "L4"; txt "L5"; []].
Proof.
  unfold splitLF, largeFile.
  rewrite splitLFAcc_plain_prefix by reflexivity.
  reflexivity.
Qed.

Lemma largeFile_readline :
  readlineLines largeFile
  = repeat "x"%char tenMebibytes
    :: [txt "L1"; txt "L2"; txt "L3"; txt "L4"; txt "L5"].
Proof.
  unfold readlineLines, largeFile.
  rewrite readlineAcc_plain_prefix by reflexivity.
  reflexivity.
Qed.

(** C4, at the failing input.  On a file above the large-file threshold that
    ends with a line feed, a read with offset -2 takes the backward chunk
    strategy and returns [L5] and an empty entry, where the last two lines
    of the file, which the circular-buffer strategy returns on the same
    content, are [L4] and [L5]. *)
Theorem tail_of_large_file_ending_in_newline :
  chooseStrategy (fileSize largeFile) (-2) = ReverseChunks
  /\ tailLines largeFile (-2) = [txt "L5"; []]
  /\ readFileWithSmartPositioning largeFile (-2) 1000 false = txt "L5" ++ [LF]
  /\ readFileWithSmartPositioning largeFile (-2) 1000 true
     = txt "[Reading last 2 lines]" ++ [LF; LF] ++ txt "L5" ++ [LF]
  /\ map slotText (circularTailSlots largeFile 2) = [txt "L4"; txt "L5"]
  /\ lastn 2 (readlineLines largeFile) = [txt "L4"; txt "L5"].
Proof.
  assert (Hstrategy : chooseStrategy (fileSize largeFile) (-2) = ReverseChunks).
  { rewrite largeFile_size. reflexivity. }
  assert (Hcount : getFileLineCount largeFile = None).
  { unfold getFileLineCount. rewrite largeFile_size. reflexivity. }
  assert (Hreverse : reverseTailLines largeFile 2 = [txt "L5"; []]).
  { rewrite reverseTailLines_spec by lia.
    rewrite largeFile_splitLF.
    change (repeat "x"%char tenMebibytes
            :: [txt "L1"; txt "L2"; txt "L3"; txt "L4"; txt "L5"; []])
      with ((repeat "x"%char tenMebibytes :: [])
            ++ [txt "L1"; txt "L2"; txt "L3"; txt "L4"; txt "L5"; []]).
    rewrite lastn_dropEmptyHead_app by (simpl; lia).
    reflexivity. }
  assert (Hlast : lastn 2 (readlineLines largeFile) = [txt "L4"; txt "L5"]).
  { rewrite largeFile_readline.
    change (repeat "x"%char tenMebibytes
            :: [txt "L1"; txt "L2"; txt "L3"; txt "L4"; txt "L5"])
      with ([repeat "x"%char tenMebibytes]
            ++ [txt "L1"; txt "L2"; txt "L3"; txt "L4"; txt "L5"]).
    rewrite lastn_app by (simpl; lia).
    reflexivity. }
  split; [|split; [|split; [|split; [|split]]]].
  - exact Hstrategy.
  - unfold tailLines. rewrite Hstrategy. exact Hreverse.
  - unfold readFileWithSmartPositioning. rewrite Hstrategy.
    unfold readLastNLinesReverse, renderContent.
    change (Z.to_nat (Z.abs (-2))) with 2.
    rewrite Hreverse. reflexivity.
  - unfold readFileWithSmartPositioning. rewrite Hstrategy, Hcount.
    unfold readLastNLinesReverse, renderContent.
    change (Z.to_nat (Z.abs (-2))) with 2.
    rewrite Hreverse. reflexivity.
  - rewrite circularTailSlots_spec by lia. rewrite Hlast. reflexivity.
  - exact Hlast.
Qed.

(** The two tail strategies on one small content: the backward chunk reader
    and the circular buffer disagree as soon as the file ends with a line
    feed. *)
Lemma tail_strategies_disagree :
  reverseTailLines fiveLines 2 = [txt "L5"; []]
  /\ map slotText (circularTailSlots fiveLines 2) = [txt "L4"; txt "L5"].
Proof. split; reflexivity. Qed.

(** *** The entry points on a disk *)

Section OnDisk.

Variable host : Host.
Variable disk : Disk.
Variable allowedDirectories : list string.
Variable readBytes : string -> option text.
Variable mimeTypeInfo : string -> string * bool.
Variable base64 : text -> text.
Variable defaultReadLength : Z.

Lemma forward_past_end_content (content : text) (offset length : Z) :
  (fileSize content < LARGE_FILE_THRESHOLD)%Z ->
  (lengthZ (readlineLines content) <= offset)%Z ->
  forwardLines content offset length = []
  /\ readFileWithSmartPositioning content offset length true
     = generateEnhancedStatusMessage 0 offset (getFileLineCount content) false
       ++ [LF; LF].
Proof.
  intros Hsmall Hpast.
  assert (Hnone : forwardLines content offset length = []).
  { unfold forwardLines. apply forwardLoop_past_end. lia. }
  split; [exact Hnone |].
  unfold readFileWithSmartPositioning, chooseStrategy.
  assert (Hpos : (offset <? 0)%Z = false)
    by (apply Z.ltb_ge; unfold lengthZ in Hpast; lia).
  assert (Hlt : (fileSize content <? LARGE_FILE_THRESHOLD)%Z = true)
    by now apply Z.ltb_lt.
  rewrite Hpos, Hlt. simpl orb. cbv iota.
  unfold readFromStartWithReadline, renderContent.
  rewrite Hnone. reflexivity.
Qed.

(** The same when the total is the one the status line reports, on a text
    whose carriage returns all precede a line feed. *)
Lemma forward_read_past_counted_total (content : text) (offset length : Z) :
  crOnlyBeforeLF content = true ->
  (countLines content <= offset)%Z ->
  forwardLines content offset length = [].
Proof.
  intros Hcr Hpast. unfold forwardLines. apply forwardLoop_past_end.
  pose proof (readline_count_le_countLines Hcr). lia.
Qed.

(** C10.  For a text file below the large-file threshold whose line reader
    yields [T] lines, a forward read with [offset >= T] succeeds: no content
    line is kept and the display content is the status header followed by
    the blank separator. *)
Theorem forward_read_past_end (filePath validPath mimeType : string)
  (content : text) (offset length : Z) :
  filePath <> ""%string ->
  PathGate.validatePath host disk allowedDirectories filePath
  = PathGate.Allowed validPath ->
  mimeTypeInfo validPath = (mimeType, false) ->
  readBytes validPath = Some content ->
  (fileSize content < LARGE_FILE_THRESHOLD)%Z ->
  (lengthZ (readlineLines content) <= offset)%Z ->
  forwardLines content offset length = []
  /\ readFileFromDisk host disk allowedDirectories readBytes mimeTypeInfo
       base64 defaultReadLength filePath offset (Some length)
     = FileOk
         (generateEnhancedStatusMessage 0 offset (getFileLineCount content)
            false ++ [LF; LF])
         mimeType false.
Proof.
  intros Hpath Hvalid Hmime Hbytes Hsmall Hpast.
  destruct (@forward_past_end_content content offset length Hsmall Hpast)
    as [Hnone Hcontent].
  split; [exact Hnone |].
  unfold readFileFromDisk.
  apply String.eqb_neq in Hpath. rewrite Hpath, Hvalid, Hmime, Hbytes.
  now rewrite Hcontent.
Qed.

(** C5.  For every text file, whatever its mix of LF and CR LF terminators,
    an internal-mode read with offset 0 and a length that covers all of its
    lines returns the content of the file unchanged. *)
Theorem internal_read_round_trip (filePath validPath mimeType : string)
  (content : text) (length : Z) :
  PathGate.validatePath host disk allowedDirectories filePath
  = PathGate.Allowed validPath ->
  mimeTypeInfo validPath = (mimeType, false) ->
  readBytes validPath = Some content ->
  (lengthZ (splitLinesPreservingEndings content) <= length)%Z ->
  readFileInternal host disk allowedDirectories readBytes mimeTypeInfo
    defaultReadLength filePath 0 (Some length)
  = InternalOk content.
Proof.
  intros Hvalid Hmime Hbytes Hcover.
  unfold readFileInternal. rewrite Hvalid, Hmime, Hbytes.
  now rewrite internalContent_whole.
Qed.

End OnDisk.

(** *** Witnesses *)

Local Open Scope string_scope.

(** A disk with [/workspace/a.txt] and [/workspace/mixed.txt]. *)
Definition workspaceDisk : Disk := {|
  fs_stat := fun p =>
    (p =? "/workspace/a.txt") || (p =? "/workspace/mixed.txt")
    || (p =? "/workspace");
  fs_realpath := fun p =>
    if (p =? "/workspace/a.txt") || (p =? "/workspace/mixed.txt")
       || (p =? "/workspace")
    then Some p else None
|}.

Definition mixedEndings : text :=
  (txt "a" ++ [CR; LF] ++ txt "b" ++ [LF] ++ txt "c" ++ [CR; LF; LF]
   ++ txt "d")%list.

Definition workspaceBytes (p : string) : option text :=
  if p =? "/workspace/a.txt" then Some fiveLines
  else if p =? "/workspace/mixed.txt" then Some mixedEndings
  else None.

Definition plainText (p : string) : string * bool := ("text/plain", false).

Lemma forward_read_past_end_witness :
  forwardLines fiveLines 5 3 = []
  /\ readFileFromDisk posix workspaceDisk ["/workspace"] workspaceBytes
       plainText (fun b => b) 1000 "/workspace/a.txt" 5 (Some 3%Z)
     = FileOk
         (generateEnhancedStatusMessage 0 5 (getFileLineCount fiveLines) false
            ++ [LF; LF])%list
         "text/plain" false.
Proof.
  apply (@forward_read_past_end posix workspaceDisk ["/workspace"]
           workspaceBytes plainText (fun b => b) 1000
           "/workspace/a.txt" "/workspace/a.txt" "text/plain" fiveLines 5 3).
  - discriminate.
  - reflexivity.
  - reflexivity.
  - reflexivity.
  - vm_compute. reflexivity.
  - vm_compute. intros H. discriminate H.
Defined.

Lemma internal_read_round_trip_witness :
  readFileInternal posix workspaceDisk ["/workspace"] workspaceBytes plainText
    1000 "/workspace/mixed.txt" 0 (Some 5%Z)
  = InternalOk mixedEndings.
Proof.
  apply (@internal_read_round_trip posix workspaceDisk ["/workspace"]
           workspaceBytes plainText 1000
           "/workspace/mixed.txt" "/workspace/mixed.txt" "text/plain"
           mixedEndings 5).
  - reflexivity.
  - reflexivity.
  - reflexivity.
  - vm_compute. intros H. discriminate H.
Defined.

End ReaderFacts.

(** ** AvailabilityProbe *)

Module ProbeFacts.

Import Probe.

(** The memo as the specification describes it: along a run the flag is
    assigned at most once and exactly one probe process is spawned. *)
Definition memoSetOnceSingleProbe (events : list Event) : Prop :=
  forall s, run initial events = Some s ->
            List.length (assignments s) <= 1 /\ List.length (probes s) = 1.

Lemma step_settled (s s' : State) (e : Event) (v : bool) :
  ripgrepAvailable s = Some v ->
  step s e = Some s' ->
  ripgrepAvailable s' <> None
  /\ List.length (probes s') = List.length (probes s).
Proof.
  intros Hflag Hstep. destruct e as [throws | pid code | pid | pid];
    simpl in Hstep.
  - injection Hstep as <-. unfold checkRipgrepAvailability.
    rewrite Hflag. simpl.
    split; [discriminate | reflexivity].
  - destruct (nth_error (probes s) pid) as [p|]; [|discriminate].
    destruct (closeSeen p); [discriminate |].
    injection Hstep as <-. simpl.
    split; [discriminate | apply ReaderFacts.setAt_length].
  - destruct (nth_error (probes s) pid) as [p|]; [|discriminate].
    destruct (errorSeen p || closeSeen p); [discriminate |].
    injection Hstep as <-. simpl.
    split; [discriminate | apply ReaderFacts.setAt_length].
  - destruct (nth_error (probes s) pid) as [p|]; [|discriminate].
    destruct (timerRan p); [discriminate |].
    injection Hstep as <-. simpl.
    split; [discriminate | apply ReaderFacts.setAt_length].
Qed.

Lemma run_settled (events : list Event) :
  forall (s s' : State) (v : bool),
    ripgrepAvailable s = Some v ->
    run s events = Some s' ->
    ripgrepAvailable s' <> None
    /\ List.length (probes s') = List.length (probes s).
Proof.
  induction events as [|e rest IH]; intros s s' v Hflag Hrun;
    simpl in Hrun.
  - injection Hrun as <-. rewrite Hflag. split; [discriminate | reflexivity].
  - destruct (step s e) as [s1|] eqn:Hstep; [|discriminate].
    destruct (step_settled Hflag Hstep) as [Hsome Hlen].
    destruct (ripgrepAvailable s1) as [v1|] eqn:Hflag1; [|contradiction].
    destruct (IH s1 s' v1 Hflag1 Hrun) as [Hsome' Hlen'].
    split; [exact Hsome' | congruence].
Qed.

Lemma run_unsettled (events : list Event) :
  forall (s s' : State),
    ripgrepAvailable s = None ->
    run s events = Some s' ->
    List.length (probes s')
    = List.length (probes s) + callsBeforeFirstSettle events.
Proof.
  induction events as [|e rest IH]; intros s s' Hflag Hrun; simpl in Hrun.
  - injection Hrun as <-. simpl. lia.
  - destruct (step s e) as [s1|] eqn:Hstep; [|discriminate].
    assert (Hsettled :
              forall v, ripgrepAvailable s1 = Some v ->
                        List.length (probes s1) = List.length (probes s) ->
                        List.length (probes s') = List.length (probes s)).
    { intros v Hv Hsame.
      destruct (run_settled Hv Hrun) as [_ Hlen]. congruence. }
    destruct e as [throws | pid code | pid | pid]; simpl in Hstep.
    + unfold checkRipgrepAvailability in Hstep.
      rewrite Hflag in Hstep. destruct throws.
      * injection Hstep as <-.
        rewrite (Hsettled false eq_refl eq_refl). simpl. lia.
      * injection Hstep as <-. clear Hsettled.
        apply IH in Hrun; [|reflexivity].
        rewrite Hrun. simpl.
        rewrite length_app. simpl. lia.
    + destruct (nth_error (probes s) pid) as [p|]; [|discriminate].
      destruct (closeSeen p); [discriminate |].
      injection Hstep as <-.
      rewrite (Hsettled _ eq_refl (ReaderFacts.setAt_length _ _ _)).
      simpl. lia.
    + destruct (nth_error (probes s) pid) as [p|]; [|discriminate].
      destruct (errorSeen p || closeSeen p); [discriminate |].
      injection Hstep as <-.
      rewrite (Hsettled _ eq_refl (ReaderFacts.setAt_length _ _ _)).
      simpl. lia.
    + destruct (nth_error (probes s) pid) as [p|]; [|discriminate].
      destruct (timerRan p); [discriminate |].
      injection Hstep as <-.
      rewrite (Hsettled _ eq_refl (ReaderFacts.setAt_length _ _ _)).
      simpl. lia.
Qed.

(** C7, amended.  Along every run of the event loop, an invocation of the
    availability check made once the flag is non-null answers with the
    memoized value, spawns no probe and leaves the flag as it is, and every
    invocation made while the flag is still null spawns a probe of its own:
    the probes spawned are as many as the invocations made before the first
    assignment of the flag. *)
Theorem probes_spawned_before_first_settle (events : list Event)
  (s : State) :
  run initial events = Some s ->
  List.length (probes s) = callsBeforeFirstSettle events
  /\ forall (v throws : bool),
       ripgrepAvailable s = Some v ->
       exists s',
         step s (Call throws) = Some s'
         /\ probes s' = probes s
         /\ ripgrepAvailable s' = Some v
         /\ assignments s' = assignments s
         /\ immediateAnswers s' = (immediateAnswers s ++ [v])%list.
Proof.
  intros Hrun. split.
  - now rewrite (@run_unsettled events initial s eq_refl Hrun).
  - intros v throws Hflag. unfold step, checkRipgrepAvailability.
    rewrite Hflag.
    eexists. split; [reflexivity |]. simpl. auto.
Qed.

(** C7, counterexample.  Two invocations interleaved before the first probe
    settles spawn two probe processes. *)
Lemma concurrent_calls_spawn_two_probes :
  ~ memoSetOnceSingleProbe [Call false; Call false].
Proof.
  intros H. destruct (H _ eq_refl) as [_ Hone]. simpl in Hone. discriminate.
Qed.

(** The two-second timer of a probe is never cleared: it assigns the flag
    again after the probe settled it. *)
Lemma timer_overwrites_settled_flag :
  exists s,
    run initial [Call false; ProcClose 0 0; TimerFires 0] = Some s
    /\ assignments s = [true; false]
    /\ ripgrepAvailable s = Some false.
Proof. eexists. repeat split. Qed.

Lemma probes_spawned_before_first_settle_witness :
  exists s,
    run initial [Call false; Call false; ProcClose 0 0; Call false] = Some s
    /\ List.length (probes s) = 2
    /\ immediateAnswers s = [true].
Proof.
  eexists. split; [reflexivity |].
  destruct (@probes_spawned_before_first_settle
              [Call false; Call false; ProcClose 0 0; Call false] _ eq_refl)
    as [Hcount _].
  split; [exact Hcount | reflexivity].
Defined.

End ProbeFacts.

(** ** ContentSearchEngine *)

Module ContentSearchFacts.

Import JsString ContentSearch.
Local Open Scope string_scope.

(** Induction on a directory tree: a directory has the property when all the
    entries of its listing have it. *)
Fixpoint Entry_tree_ind (P : Entry -> Prop)
  (Hfile : forall name content, P (File name content))
  (Hdir : forall name listing,
      (forall entries, listing = Some entries -> Forall P entries) ->
      P (Directory name listing))
  (Hspecial : forall name, P (Special name))
  (e : Entry) {struct e} : P e :=
  match e with
  | File name content => Hfile name content
  | Directory name listing =>
      Hdir name listing
        (match listing as l
               return forall entries, l = Some entries -> Forall P entries
         with
         | None => fun entries H => match H with
                                    | eq_refl => I
                                    end
         | Some es =>
             fun entries H =>
               match H in _ = r
                     return match r with
                            | Some entries' => Forall P entries'
                            | None => True
                            end
               with
               | eq_refl =>
                   (fix all (l : list Entry) : Forall P l :=
                      match l with
                      | [] => Forall_nil P
                      | x :: rest =>
                          Forall_cons x
                            (Entry_tree_ind Hfile Hdir Hspecial x) (all rest)
                      end) es
               end
         end)
  | Special name => Hspecial name
  end.

(** *** The bound on the number of records *)

Section Bound.

Variable host : Host.
Variable disk : Disk.
Variable allowedDirectories : list string.
Variable maxResultsV : Z.
Variable contextLinesV : Z.
Variable excludeDirs : list string.
Variable regexTest : string -> bool.
Variable fileRegexTest : option (string -> bool).

Hypothesis no_context : (contextLinesV <= 0)%Z.

Lemma scanLines_bound (fullPath : string) (lines todo : list string)
  (i : nat) (results : list SearchResult) :
  (count results < maxResultsV)%Z ->
  (count
     (scanLines maxResultsV contextLinesV regexTest fullPath lines todo i
        results) <= maxResultsV)%Z.
Proof.
  revert i results.
  induction todo as [|current rest IH]; intros i results Hbelow; simpl.
  - lia.
  - destruct (regexTest current); [|now apply IH].
    assert (Hctx : (0 <? contextLinesV)%Z = false) by (apply Z.ltb_ge; lia).
    rewrite Hctx.
    assert (Hone : count (results ++ [{| file := fullPath;
                                          line := Z.of_nat i + 1;
                                          matchText := trim current |}])
                   = (count results + 1)%Z).
    { unfold count. rewrite length_app. simpl. lia. }
    destruct (maxResultsV <=? count (results ++ _))%Z eqn:Hfull.
    + rewrite Hone. lia.
    + apply IH. apply Z.leb_gt in Hfull. exact Hfull.
Qed.

Lemma searchEntry_bound (entry : Entry) :
  forall (dirPath : string) (results : list SearchResult),
    (count results < maxResultsV)%Z ->
    (count
       (searchEntry host disk allowedDirectories maxResultsV contextLinesV
          excludeDirs regexTest fileRegexTest dirPath entry results)
     <= maxResultsV)%Z.
Proof.
  induction entry as [name content | name listing IH | name]
    using Entry_tree_ind; intros dirPath results Hbelow.
  - simpl.
    destruct (negb (admitted host disk allowedDirectories _)); [lia |].
    destruct (match fileRegexTest with
              | Some test => test name
              | None => true
              end); [|lia].
    destruct content as [text|]; [|lia].
    now apply scanLines_bound.
  - simpl.
    destruct (negb (admitted host disk allowedDirectories _)); [lia |].
    destruct (nameIn name excludeDirs); [lia |].
    destruct (maxResultsV <=? count results)%Z; [lia |].
    destruct listing as [entries|]; [|lia].
    specialize (IH entries eq_refl).
    assert (Hle : (count results <= maxResultsV)%Z) by lia.
    clear Hbelow. revert results Hle.
    induction IH as [|e rest He Hrest IHrest]; intros results Hle.
    + exact Hle.
    + destruct (maxResultsV <=? count results)%Z eqn:Hfull; [exact Hle |].
      apply IHrest. apply He. apply Z.leb_gt in Hfull. exact Hfull.
  - simpl.
    destruct (negb (admitted host disk allowedDirectories _)); lia.
Qed.

Lemma searchDir_bound (dirPath : string) (listing : option (list Entry)) :
  (0 <= maxResultsV)%Z ->
  (count
     (searchDir host disk allowedDirectories maxResultsV contextLinesV
        excludeDirs regexTest fileRegexTest dirPath listing [])
   <= maxResultsV)%Z.
Proof.
  intros Hmax. unfold searchDir.
  destruct (maxResultsV <=? count [])%Z; [exact Hmax |].
  destruct listing as [entries|]; [|exact Hmax].
  assert (Hle : (count (@nil SearchResult) <= maxResultsV)%Z) by exact Hmax.
  revert Hle. generalize (@nil SearchResult).
  induction entries as [|e rest IH]; intros results Hle; simpl.
  - exact Hle.
  - destruct (maxResultsV <=? count results)%Z eqn:Hfull; [exact Hle |].
    apply IH. apply searchEntry_bound. apply Z.leb_gt in Hfull. exact Hfull.
Qed.

End Bound.

(** The fallback keeps to [maxResults] when no context lines are asked for. *)
Lemma fallback_bound_without_context (host : Host) (disk : Disk)
  (allowed : list string)
  (compileRegExp : string -> bool -> option (string -> bool))
  (listing : option (list Entry)) (o : Options)
  (excludeDirs : option (list string)) (results : list SearchResult) :
  (0 <= maxResultsOf o)%Z ->
  (contextLinesOf o <= 0)%Z ->
  searchCodeFallback host disk allowed compileRegExp listing o excludeDirs
  = Resolved results ->
  (count results <= maxResultsOf o)%Z.
Proof.
  intros Hmax Hctx. unfold searchCodeFallback.
  destruct (PathGate.validatePath host disk allowed (rootPath o));
    [|discriminate].
  destruct (compileRegExp (pattern o) (ignoreCaseOf o)) as [test|];
    [|discriminate].
  destruct (if truthy (filePattern o)
            then match compileRegExp (orString (filePattern o) "") false with
                 | Some t => Some (Some t)
                 | None => None
                 end
            else Some None) as [filter|]; [|discriminate].
  intros H. injection H as <-. now apply searchDir_bound.
Qed.

(** *** Concrete corpora *)

Definition nl : string := String Reader.LF "".

(** The allowed root [/workspace], present on the disk. *)
Definition rootDisk : Disk := {|
  fs_stat := fun p => p =? "/workspace";
  fs_realpath := fun p => if p =? "/workspace" then Some p else None
|}.

(** One file of three lines whose middle line matches [foo]. *)
Definition threeLineCorpus : option (list Entry) :=
  Some [File "a.txt" (Some ("x" ++ nl ++ "foo" ++ nl ++ "y"))].

Definition boundedQuery : Options := {|
  rootPath := "/workspace";
  pattern := "foo";
  filePattern := None;
  ignoreCase := None;
  maxResults := Some 1%Z;
  includeHidden := None;
  contextLines := Some 1%Z
|}.

(** What the engine prints, under [-m 1], for a file whose first line
    [foo foo] matches twice. *)
Definition twoSubmatches (args : list string) : RgRun :=
  RgClose 0 false
    [RgOther;
     RgMatch (Some "/workspace/a.txt") (Some 1%Z) [Some "foo"; Some "foo"];
     RgOther; RgOther]
    "".

(** C9, at the failing inputs.  With [maxResults = 1] and one context line,
    the fallback returns three records for a single matching line; with
    [maxResults = 1], the engine path returns two records for a line that
    matches twice. *)
Theorem maxResults_exceeded :
  searchCodeFallback posix rootDisk ["/workspace"] literalRegExp
    threeLineCorpus boundedQuery None
  = Resolved
      [{| file := "/workspace/a.txt"; line := 2; matchText := "foo" |};
       {| file := "/workspace/a.txt"; line := 1; matchText := "x" |};
       {| file := "/workspace/a.txt"; line := 3; matchText := "y" |}]
  /\ searchCode posix rootDisk ["/workspace"] true twoSubmatches boundedQuery
     = Resolved
         [{| file := "/workspace/a.txt"; line := 1; matchText := "foo" |};
          {| file := "/workspace/a.txt"; line := 1; matchText := "foo" |}]
  /\ maxResultsOf boundedQuery = 1%Z.
Proof. split; [|split]; vm_compute; reflexivity. Qed.

(** *** The two engines on one corpus *)

(** Two lists of records hold the same set of records. *)
Definition sameRecords (a b : list SearchResult) : Prop :=
  forall r, In r a <-> In r b.

(** Fallback transparency as the specification states it: on one corpus and
    one query, the search with the engine unavailable and the search with
    the engine available return the same set of records. *)
Definition enginesAgree (host : Host) (disk : Disk) (allowed : list string)
  (compileRegExp : string -> bool -> option (string -> bool))
  (rg : list string -> RgRun) (listing : option (list Entry)) (o : Options)
  : Prop :=
  forall viaEngine viaFallback,
    searchTextInFiles host disk allowed compileRegExp true rg listing o
    = Resolved viaEngine ->
    searchTextInFiles host disk allowed compileRegExp false rg listing o
    = Resolved viaFallback ->
    sameRecords viaEngine viaFallback.

(** One file whose only line is [  hello foo bar]. *)
Definition oneLineCorpus : option (list Entry) :=
  Some [File "a.txt" (Some "  hello foo bar")].

Definition plainQuery : Options := {|
  rootPath := "/workspace";
  pattern := "foo";
  filePattern := None;
  ignoreCase := None;
  maxResults := None;
  includeHidden := None;
  contextLines := None
|}.

(** What the engine prints for that corpus and [foo]: one [match] message
    for line 1, with the matched text [foo] as its only sub-match. *)
Definition oneLineEngine (args : list string) : RgRun :=
  RgClose 0 false
    [RgOther;
     RgMatch (Some "/workspace/a.txt") (Some 1%Z) [Some "foo"];
     RgOther; RgOther]
    "".

(** On a one-line file the engine path reports the matched text [foo] and
    the fallback the trimmed line [hello foo bar]. *)
Lemma engines_disagree_on_match_text :
  ~ enginesAgree posix rootDisk ["/workspace"] literalRegExp oneLineEngine
      oneLineCorpus plainQuery.
Proof.
  intros H.
  assert (Hengine :
            searchTextInFiles posix rootDisk ["/workspace"] literalRegExp true
              oneLineEngine oneLineCorpus plainQuery
            = Resolved [{| file := "/workspace/a.txt"; line := 1;
                           matchText := "foo" |}])
    by (vm_compute; reflexivity).
  assert (Hfallback :
            searchTextInFiles posix rootDisk ["/workspace"] literalRegExp false
              oneLineEngine oneLineCorpus plainQuery
            = Resolved [{| file := "/workspace/a.txt"; line := 1;
                           matchText := "hello foo bar" |}])
    by (vm_compute; reflexivity).
  destruct (H _ _ Hengine Hfallback
              {| file := "/workspace/a.txt"; line := 1; matchText := "foo" |})
    as [Hin _].
  destruct (Hin (or_introl eq_refl)) as [Heq | []].
  discriminate Heq.
Qed.

(** What the engine's records for a [match] message are made of: the path
    and the line number of the message, and the text of one sub-match. *)
Lemma recordsOfMatch_fields (ctx : Z) (f : string) (n : Z)
  (subs : list (option string)) (r : SearchResult) :
  In r (recordsOfMessage ctx (RgMatch (Some f) (Some n) subs)) ->
  file r = orString (Some f) "unknown" /\ line r = n
  /\ In (Some (matchText r)) subs.
Proof.
  unfold recordsOfMessage. rewrite in_flat_map. intros [sub [Hin Hr]].
  destruct sub as [text|]; [|destruct Hr].
  unfold truthy in Hr.
  destruct (text =? "") eqn:Hempty; [destruct Hr |].
  cbn [negb] in Hr. destruct Hr as [<- | []].
  cbn [file line matchText orZero].
  split; [reflexivity | split; [reflexivity |]].
  unfold orString. now rewrite Hempty.
Qed.

(** [/workspace] holding one directory [dist] with one file [b.txt] whose
    only line is [foo]. *)
Definition distCorpus : option (list Entry) :=
  Some [Directory "dist" (Some [File "b.txt" (Some "foo")])].

(** What the engine prints for that corpus and [foo]. *)
Definition distEngine (args : list string) : RgRun :=
  RgClose 0 false
    [RgOther;
     RgMatch (Some "/workspace/dist/b.txt") (Some 1%Z) [Some "foo"];
     RgOther; RgOther]
    "".

(** C6, at the failing inputs.  On the one-line file [  hello foo bar] and
    the pattern [foo], the search with the engine available returns the
    record with the matched text [foo] and the search with the engine
    unavailable the record with the whole line trimmed, [hello foo bar].  On
    the file [dist/b.txt], the engine is started without any exclusion
    among its arguments and its match is returned, while with the engine
    unavailable nothing is returned: [searchTextInFiles] has the fallback
    skip [dist], which the fallback called with its own defaults does not
    skip. *)
Theorem engines_diverge_on_one_corpus :
  searchTextInFiles posix rootDisk ["/workspace"] literalRegExp true
    oneLineEngine oneLineCorpus plainQuery
  = Resolved [{| file := "/workspace/a.txt"; line := 1; matchText := "foo" |}]
  /\ searchTextInFiles posix rootDisk ["/workspace"] literalRegExp false
       oneLineEngine oneLineCorpus plainQuery
     = Resolved [{| file := "/workspace/a.txt"; line := 1;
                    matchText := "hello foo bar" |}]
  /\ rgArgs plainQuery "/workspace"
     = ["--json"; "--line-number"; "-i"; "-m"; "1000"; "foo"; "/workspace"]
  /\ searchTextInFiles posix rootDisk ["/workspace"] literalRegExp true
       distEngine distCorpus plainQuery
     = Resolved [{| file := "/workspace/dist/b.txt"; line := 1;
                    matchText := "foo" |}]
  /\ searchTextInFiles posix rootDisk ["/workspace"] literalRegExp false
       distEngine distCorpus plainQuery
     = Resolved []
  /\ searchCodeFallback posix rootDisk ["/workspace"] literalRegExp
       distCorpus plainQuery None
     = Resolved [{| file := "/workspace/dist/b.txt"; line := 1;
                    matchText := "foo" |}].
Proof.
  split; [vm_compute; reflexivity |].
  split; [vm_compute; reflexivity |].
  split; [vm_compute; reflexivity |].
  split; [vm_compute; reflexivity |].
  split; vm_compute; reflexivity.
Qed.

End ContentSearchFacts.

(** ** FilenameTreeWalker *)

Module NameSearchFacts.

Import NameSearch.
Local Open Scope string_scope.

(** [/workspace] holding one directory [sub] with one file [zzz.txt]. *)
Definition smallTree : Entry :=
  Directory "workspace" (Some [Directory "sub" (Some [File "zzz.txt" None])]).

Definition oneSecond : Options := {|
  maxResults := 1000;
  maxDepth := 10;
  timeoutMs := 1000;
  excludeDirs := ["node_modules"; ".git"; "dist"; ".cache"; "tmp"]
|}.

(** The validation of [sub] takes 1.5 seconds and the walker is resumed
    before the timer callback runs: the walker reads the clock itself. *)
Definition walkerSeesDeadline : list Tick :=
  [quiet; quiet; {| elapsed := 1500; timerRunsFirst := false |}].

(** The same delay, the timer callback running first. *)
Definition timerSeesDeadline : list Tick :=
  [quiet; quiet; {| elapsed := 1500; timerRunsFirst := true |}].

(** The timer callback runs while the name [zzz.txt] is being validated,
    after [sub] itself was found. *)
Definition timerAfterFirstResult : list Tick :=
  [quiet; quiet; quiet; quiet; {| elapsed := 1500; timerRunsFirst := true |}].

Section Outcomes.

Variable host : Host.
Variable disk : Disk.
Variable allowed : list string.
Variable pattern : string.
Variable opts : Options.

(** When the rejected timeout promise wins the race, the call returns the
    results gathered so far if there are any and fails with the timeout
    error otherwise; when the walker ends first, the call returns its
    results. *)
Lemma searchFiles_outcome (root : Entry) (rootPath validPath : string)
  (schedule : list Tick) :
  PathGate.validatePath host disk allowed rootPath
  = PathGate.Allowed validPath ->
  let w :=
    search host disk allowed pattern opts root validPath 0
      (await opts false (start schedule)) in
  searchFiles host disk allowed pattern opts root rootPath schedule
  = match raceLostWith w with
    | Some [] => Rejected (timeoutMessage opts)
    | Some partial => Resolved partial
    | None => Resolved (results w)
    end.
Proof.
  intros Hvalid. unfold searchFiles. rewrite Hvalid. simpl.
  destruct (raceLostWith _) as [[|first rest]|]; reflexivity.
Qed.

End Outcomes.

(** C8, at the failing input.  The search runs past its deadline with no
    result collected; the walker notices the deadline itself, before the
    timer callback runs, and the call returns the empty list instead of
    failing with the timeout error.  When the timer callback runs first, the
    same search fails with the timeout error, and with one result collected
    it returns that result. *)
Theorem deadline_seen_by_walker_returns_empty :
  searchFiles posix ContentSearchFacts.rootDisk ["/workspace"] "zzz" oneSecond
    smallTree "/workspace" walkerSeesDeadline
  = Resolved []
  /\ exceededTimeout posix ContentSearchFacts.rootDisk ["/workspace"] "zzz"
       oneSecond smallTree "/workspace" walkerSeesDeadline = true
  /\ searchFiles posix ContentSearchFacts.rootDisk ["/workspace"] "zzz"
       oneSecond smallTree "/workspace" []
     = Resolved ["/workspace/sub/zzz.txt"]
  /\ searchFiles posix ContentSearchFacts.rootDisk ["/workspace"] "zzz"
       oneSecond smallTree "/workspace" timerSeesDeadline
     = Rejected "Search operation timed out after 1000ms"
  /\ searchFiles posix ContentSearchFacts.rootDisk ["/workspace"] "sub"
       oneSecond smallTree "/workspace" timerAfterFirstResult
     = Resolved ["/workspace/sub"].
Proof. split; [|split; [|split; [|split]]]; vm_compute; reflexivity. Qed.

End NameSearchFacts.

(** ** LineAddressableReader: windows, line counts and the two modes *)

Module ReaderWindowFacts.

Import Reader ReaderFacts.

(** *** Forward windows *)

Lemma forwardLoop_window (lines : list text) :
  forall (offset length lineNumber : Z) (result : list text),
    result = [] \/ ((offset <= lineNumber)%Z /\ (lengthZ result < length)%Z) ->
    forwardLoop lines offset length lineNumber result
    = result
      ++ firstn (Z.to_nat (length - lengthZ result))
           (skipn (Z.to_nat (offset - lineNumber)) lines).
Proof.
  induction lines as [|line rest IH];
    intros offset length lineNumber result Hinv.
  - simpl. now rewrite skipn_nil, firstn_nil, app_nil_r.
  - simpl.
    destruct ((offset <=? lineNumber)%Z && (lengthZ result <? length)%Z)
      eqn:Hpush.
    + apply andb_prop in Hpush. destruct Hpush as [Hoff Hroom].
      apply Z.leb_le in Hoff. apply Z.ltb_lt in Hroom.
      assert (Hlen : lengthZ (result ++ [line]) = (lengthZ result + 1)%Z).
      { unfold lengthZ. rewrite length_app. simpl. lia. }
      replace (Z.to_nat (offset - lineNumber)) with 0 by lia.
      replace (Z.to_nat (length - lengthZ result))
        with (S (Z.to_nat (length - lengthZ result - 1))) by lia.
      simpl skipn. simpl firstn.
      destruct (length <=? lengthZ (result ++ [line]))%Z eqn:Hfull.
      * apply Z.leb_le in Hfull.
        replace (Z.to_nat (length - lengthZ result - 1)) with 0 by lia.
        reflexivity.
      * apply Z.leb_gt in Hfull.
        rewrite IH by (right; lia).
        replace (Z.to_nat (offset - (lineNumber + 1))) with 0 by lia.
        rewrite Hlen, <- app_assoc. simpl skipn.
        now replace (length - (lengthZ result + 1))%Z
          with (length - lengthZ result - 1)%Z by lia.
    + assert (Hempty : result = []).
      { destruct Hinv as [Hnil | [Hoff Hroom]]; [exact Hnil |].
        apply Z.leb_le in Hoff. apply Z.ltb_lt in Hroom.
        rewrite Hoff, Hroom in Hpush. discriminate. }
      subst result. change (lengthZ (@nil text)) with 0%Z in *.
      rewrite Z.sub_0_r.
      destruct (length <=? 0)%Z eqn:Hnone.
      * apply Z.leb_le in Hnone.
        now replace (Z.to_nat length) with 0 by lia.
      * apply Z.leb_gt in Hnone.
        rewrite IH by now left.
        change (lengthZ (@nil text)) with 0%Z. rewrite Z.sub_0_r.
        assert (Hbefore : (lineNumber < offset)%Z).
        { apply andb_false_iff in Hpush.
          destruct Hpush as [Hoff | Hroom].
          - now apply Z.leb_gt in Hoff.
          - apply Z.ltb_ge in Hroom.
            change (lengthZ (@nil text)) with 0%Z in Hroom. lia. }
        replace (Z.to_nat (offset - lineNumber))
          with (S (Z.to_nat (offset - (lineNumber + 1)))) by lia.
        reflexivity.
Qed.

Lemma forwardLines_window (content : text) (offset length : Z) :
  forwardLines content offset length
  = firstn (Z.to_nat length)
      (skipn (Z.to_nat offset) (readlineLines content)).
Proof.
  unfold forwardLines. rewrite forwardLoop_window by now left.
  change (lengthZ (@nil text)) with 0%Z.
  now rewrite !Z.sub_0_r.
Qed.

(** X1.  A forward read keeps exactly the lines of the window: [length]
    lines of the line reader's output from line [offset] on, fewer when the
    file ends first, none when [length] is zero or negative. *)
Theorem forward_window_exact (content : text) (offset length : Z)
  (includeStatusMessage : bool) (fileTotalLines : option Z) :
  let window :=
    firstn (Z.to_nat length)
      (skipn (Z.to_nat offset) (readlineLines content)) in
  forwardLines content offset length = window
  /\ readFromStartWithReadline content offset length includeStatusMessage
       fileTotalLines
     = renderContent includeStatusMessage
         (generateEnhancedStatusMessage (lengthZ window) offset
            fileTotalLines false)
         window.
Proof.
  split; [apply forwardLines_window |].
  unfold readFromStartWithReadline. now rewrite forwardLines_window.
Qed.

Lemma firstn_plus {A : Type} (n m : nat) (xs : list A) :
  firstn (n + m) xs = firstn n xs ++ firstn m (skipn n xs).
Proof.
  revert xs. induction n as [|n IH]; intros [|x rest]; simpl;
    try reflexivity.
  - now rewrite firstn_nil.
  - now rewrite IH.
Qed.

(** X2.  Forward reads of two adjacent windows, one after the other, keep
    the lines that one read of the joined window keeps. *)
Theorem forward_windows_compose (content : text) (offset n m : Z) :
  (0 <= offset)%Z -> (0 <= n)%Z -> (0 <= m)%Z ->
  forwardLines content offset n ++ forwardLines content (offset + n) m
  = forwardLines content offset (n + m).
Proof.
  intros Hoff Hn Hm.
  rewrite !forwardLines_window.
  rewrite !Z2Nat.inj_add by lia.
  rewrite firstn_plus, skipn_skipn.
  now rewrite (Nat.add_comm (Z.to_nat n) (Z.to_nat offset)).
Qed.

Lemma forward_windows_compose_witness :
  forwardLines fiveLines 1 2 ++ forwardLines fiveLines (1 + 2) 1
  = forwardLines fiveLines 1 (2 + 1).
Proof. apply (@forward_windows_compose fiveLines 1 2 1); lia. Defined.

(** *** Internal windows *)

Lemma jsSlice_window {A : Type} (xs : list A) (offset length : Z) :
  (0 <= offset)%Z -> (0 <= length)%Z ->
  jsSlice xs offset (offset + length)
  = firstn (Z.to_nat length) (skipn (Z.to_nat offset) xs).
Proof.
  intros Hoff Hlen. unfold jsSlice.
  assert (H1 : (offset <? 0)%Z = false) by (apply Z.ltb_ge; lia).
  assert (H2 : (offset + length <? 0)%Z = false) by (apply Z.ltb_ge; lia).
  rewrite H1, H2.
  destruct (Z.le_gt_cases (Z.of_nat (List.length xs)) offset) as [Hout | Hin].
  - rewrite !Z.min_r by lia. rewrite Z.sub_diag, Nat2Z.id.
    rewrite skipn_all. simpl.
    rewrite (skipn_all2 xs) by lia. now rewrite firstn_nil.
  - rewrite (Z.min_l offset) by lia.
    destruct (Z.le_gt_cases (offset + length) (Z.of_nat (List.length xs)))
      as [Hfit | Hover].
    + rewrite Z.min_l by lia.
      now replace (offset + length - offset)%Z with length by lia.
    + rewrite Z.min_r by lia.
      rewrite firstn_all2 by (rewrite length_skipn; lia).
      rewrite firstn_all2 by (rewrite length_skipn; lia).
      reflexivity.
Qed.

Lemma internalContent_window (content : text) (offset length : Z) :
  (0 <= offset)%Z -> (0 <= length)%Z ->
  (length < MAX_SAFE_INTEGER)%Z ->
  internalContent content offset length
  = List.concat
      (firstn (Z.to_nat length)
         (skipn (Z.to_nat offset) (splitLinesPreservingEndings content))).
Proof.
  intros Hoff Hlen Hmax. unfold internalContent.
  assert (Hshort : (MAX_SAFE_INTEGER <=? length)%Z = false)
    by (apply Z.leb_gt; lia).
  rewrite Hshort, andb_false_r.
  now rewrite jsSlice_window, joinWith_nil.
Qed.

(** X3.  In internal mode the content of a window is the concatenation of
    its lines with their endings, and the contents of two adjacent windows,
    put end to end, are the content of the joined window. *)
Theorem internal_windows_compose (content : text) (offset n m : Z) :
  (0 <= offset)%Z -> (0 <= n)%Z -> (0 <= m)%Z ->
  (n + m < MAX_SAFE_INTEGER)%Z ->
  internalContent content offset n ++ internalContent content (offset + n) m
  = internalContent content offset (n + m).
Proof.
  intros Hoff Hn Hm Hmax.
  rewrite !internalContent_window by lia.
  rewrite !Z2Nat.inj_add by lia.
  rewrite firstn_plus, skipn_skipn, concat_app.
  now rewrite (Nat.add_comm (Z.to_nat n) (Z.to_nat offset)).
Qed.

Lemma internal_windows_compose_witness :
  internalContent mixedEndings 1 2 ++ internalContent mixedEndings (1 + 2) 2
  = internalContent mixedEndings 1 (2 + 2).
Proof.
  apply (@internal_windows_compose mixedEndings 1 2 2);
    try lia; reflexivity.
Defined.

(** *** The lines of the two modes *)















(** *** The total of the status line *)

(** Whether a split on line feeds ends with an empty entry: the text is
    empty or ends with a line feed. *)
Definition endsClosed (s cur : text) : bool :=
  match s with
  | [] => match cur with [] => true | _ => false end
  | _ => Ascii.eqb (last s LF) LF
  end.

Lemma splitLFAcc_readlineAcc (s : text) :
  forall cur : text,
    ~ In CR s ->
    splitLFAcc s cur
    = readlineAcc s cur ++ (if endsClosed s cur then [[]] else []).
Proof.
  induction s as [|c rest IH]; intros cur Hcr.
  - simpl. now destruct cur.
  - assert (Hrest : ~ In CR rest) by (intros H; apply Hcr; now right).
    assert (Hc : Ascii.eqb c CR = false).
    { destruct (Ascii.eqb c CR) eqn:E; [|reflexivity].
      apply Ascii.eqb_eq in E. subst c. exfalso. apply Hcr. now left. }
    simpl splitLFAcc. simpl readlineAcc. rewrite Hc.
    destruct (Ascii.eqb c LF) eqn:Hlf.
    + rewrite (IH [] Hrest). simpl.
      destruct rest as [|c' rest']; [now rewrite Hlf | reflexivity].
    + rewrite (IH (cur ++ [c]) Hrest).
      destruct rest as [|c' rest']; simpl.
      * rewrite Hlf. now destruct cur.
      * reflexivity.
Qed.



(** *** Tail reads *)

(** The lengths [new Array] accepts are those below [2^32]. *)
Definition ARRAY_LENGTH_LIMIT : Z := 4294967296.

(** A character that UTF-8 encodes as one byte. *)
Definition isAscii (c : ascii) : bool := (nat_of_ascii c <? 128)%nat.

Lemma map_slotText_Some (xs : list text) : map slotText (map Some xs) = xs.
Proof.
  induction xs as [|x rest IH]; simpl; [reflexivity | now rewrite IH].
Qed.

(** The two tail readers as embedded, before the limits of the source are
    taken into account. *)
Lemma readFromEndWithReadline_tail (content : text) (k : nat)
  (includeStatusMessage : bool) (fileTotalLines : option Z) :
  0 < k ->
  readFromEndWithReadline content k includeStatusMessage fileTotalLines
  = renderContent includeStatusMessage
      (generateEnhancedStatusMessage
         (lengthZ (lastn k (readlineLines content))) (- Z.of_nat k)
         fileTotalLines true)
      (lastn k (readlineLines content)).
Proof.
  intros Hk. unfold readFromEndWithReadline.
  rewrite circularTailSlots_spec by exact Hk.
  rewrite map_slotText_Some. unfold lengthZ. now rewrite length_map.
Qed.

Lemma readLastNLinesReverse_tail (content : text) (n : nat)
  (includeStatusMessage : bool) (fileTotalLines : option Z) :
  0 < n ->
  readLastNLinesReverse content n includeStatusMessage fileTotalLines
  = renderContent includeStatusMessage
      (generateEnhancedStatusMessage
         (lengthZ (lastn n (dropEmptyHead (splitLF content)))) (- Z.of_nat n)
         fileTotalLines true)
      (lastn n (dropEmptyHead (splitLF content))).
Proof.
  intros Hn. unfold readLastNLinesReverse.
  now rewrite reverseTailLines_spec.
Qed.

(** X6.  The circular-buffer tail reader, asked for [k] lines with [k]
    positive and below [2^32] (the lengths [new Array] accepts), returns the
    last [k] lines the line reader yields, all of them when the file has
    fewer than [k], and reports their number in the status line. *)
Theorem circular_tail_read (content : text) (k : nat)
  (includeStatusMessage : bool) (fileTotalLines : option Z) :
  0 < k ->
  (Z.of_nat k < ARRAY_LENGTH_LIMIT)%Z ->
  let tail := lastn k (readlineLines content) in
  readFromEndWithReadline content k includeStatusMessage fileTotalLines
  = renderContent includeStatusMessage
      (generateEnhancedStatusMessage (lengthZ tail) (- Z.of_nat k)
         fileTotalLines true)
      tail
  /\ (List.length (readlineLines content) <= k ->
      tail = readlineLines content).
Proof.
  intros Hk _ tail. split.
  - now apply readFromEndWithReadline_tail.
  - apply lastn_short.
Qed.

Lemma circular_tail_read_witness :
  readFromEndWithReadline fiveLines 2 false None
  = renderContent false
      (generateEnhancedStatusMessage
         (lengthZ (lastn 2 (readlineLines fiveLines))) (- Z.of_nat 2) None
         true)
      (lastn 2 (readlineLines fiveLines))
  /\ (List.length (readlineLines fiveLines) <= 2 ->
      lastn 2 (readlineLines fiveLines) = readlineLines fiveLines).
Proof.
  apply (@circular_tail_read fiveLines 2 false None); [lia | reflexivity].
Defined.

(** X7.  On a file of ASCII characters, where decoding a chunk gives the
    chunk, the backward chunk reader returns the last [n] entries of the
    file split on line feeds, the first entry being left out when it is
    empty: the piece after a final line feed counts as an entry, and a CR
    before a line feed stays on its line. *)
Theorem reverse_tail_read (content : text) (n : nat)
  (includeStatusMessage : bool) (fileTotalLines : option Z) :
  0 < n ->
  forallb isAscii content = true ->
  let tail := lastn n (dropEmptyHead (splitLF content)) in
  readLastNLinesReverse content n includeStatusMessage fileTotalLines
  = renderContent includeStatusMessage
      (generateEnhancedStatusMessage (lengthZ tail) (- Z.of_nat n)
         fileTotalLines true)
      tail.
Proof.
  intros Hn _ tail. now apply readLastNLinesReverse_tail.
Qed.

Lemma reverse_tail_read_witness :
  readLastNLinesReverse fiveLines 2 false None
  = renderContent false
      (generateEnhancedStatusMessage
         (lengthZ (lastn 2 (dropEmptyHead (splitLF fiveLines))))
         (- Z.of_nat 2) None true)
      (lastn 2 (dropEmptyHead (splitLF fiveLines))).
Proof.
  apply (@reverse_tail_read fiveLines 2 false None); [lia | reflexivity].
Defined.

Lemma splitLF_head_nonempty (c : ascii) (rest : text) :
  Ascii.eqb c LF = false ->
  dropEmptyHead (splitLF (c :: rest)) = splitLF (c :: rest).
Proof.
  intros Hc. unfold splitLF. simpl. rewrite Hc.
  now rewrite splitLFAcc_hd_tl.
Qed.

(** X8.  For a number of lines that is positive and below [2^32], the two
    tail strategies return the same content on a file of ASCII characters
    that has no carriage return, does not begin with a line feed and does
    not end with one. *)
Theorem tail_strategies_agree (content : text) (n : nat)
  (includeStatusMessage : bool) (fileTotalLines : option Z) :
  0 < n ->
  (Z.of_nat n < ARRAY_LENGTH_LIMIT)%Z ->
  forallb isAscii content = true ->
  ~ In CR content ->
  Ascii.eqb (hd LF content) LF = false ->
  Ascii.eqb (last content LF) LF = false ->
  readLastNLinesReverse content n includeStatusMessage fileTotalLines
  = readFromEndWithReadline content n includeStatusMessage fileTotalLines.
Proof.
  intros Hn _ _ Hcr Hfirst Hlast.
  rewrite readFromEndWithReadline_tail by exact Hn.
  rewrite readLastNLinesReverse_tail by exact Hn.
  assert (Hsplit : splitLF content
                   = readlineLines content
                     ++ (if endsClosed content [] then [[]] else []))
    by now apply splitLFAcc_readlineAcc.
  destruct content as [|c rest]; [simpl in Hfirst; discriminate |].
  simpl hd in Hfirst.
  rewrite splitLF_head_nonempty by exact Hfirst.
  rewrite Hsplit. unfold endsClosed. rewrite Hlast.
  now rewrite app_nil_r.
Qed.

Definition openLines : text :=
  txt "L1" ++ [LF] ++ txt "L2" ++ [LF] ++ txt "L3".

Lemma tail_strategies_agree_witness :
  readLastNLinesReverse openLines 2 true (Some 3%Z)
  = readFromEndWithReadline openLines 2 true (Some 3%Z).
Proof.
  apply (@tail_strategies_agree openLines 2 true (Some 3%Z)).
  - lia.
  - reflexivity.
  - reflexivity.
  - vm_compute. intros H.
    repeat (destruct H as [H | H]; [discriminate H |]). exact H.
  - reflexivity.
  - reflexivity.
Defined.

(** *** Estimated positions on lines of one length *)














(** *** The selector *)

(** X10.  Where the selector reads forward, the window is exact: for an
    offset that is not negative, on a file under ten mebibytes or at an
    offset of at most 1000, [readFileWithSmartPositioning] returns the
    lines of the window, with the total [getFileLineCount] gives. *)
Theorem smart_read_forward_exact (content : text) (offset length : Z)
  (includeStatusMessage : bool) :
  (0 <= offset)%Z ->
  (fileSize content < LARGE_FILE_THRESHOLD)%Z
  \/ (offset <= DEEP_OFFSET_THRESHOLD)%Z ->
  let window :=
    firstn (Z.to_nat length)
      (skipn (Z.to_nat offset) (readlineLines content)) in
  readFileWithSmartPositioning content offset length includeStatusMessage
  = renderContent includeStatusMessage
      (generateEnhancedStatusMessage (lengthZ window) offset
         (getFileLineCount content) false)
      window.
Proof.
  intros Hoffset Hregion window.
  assert (Hforward : chooseStrategy (fileSize content) offset
                     = ForwardStream).
  { unfold chooseStrategy.
    destruct (Z.ltb_spec offset 0); [lia |].
    destruct (Z.ltb_spec (fileSize content) LARGE_FILE_THRESHOLD);
      [reflexivity |].
    destruct (Z.eqb_spec offset 0); [reflexivity |]. cbn [orb].
    destruct (Z.ltb_spec DEEP_OFFSET_THRESHOLD offset); [lia | reflexivity]. }
  unfold readFileWithSmartPositioning. rewrite Hforward.
  unfold readFromStartWithReadline. now rewrite forwardLines_window.
Qed.

(** X11.  Where the selector reads the tail through the line reader, the
    tail is exact: for a negative offset above [-2^32], on a file of at most
    ten mebibytes or for more than 100 lines, [readFileWithSmartPositioning]
    returns the last [-offset] lines the line reader yields. *)
Theorem smart_read_tail_exact (content : text) (offset length : Z)
  (includeStatusMessage : bool) :
  (offset < 0)%Z ->
  (- offset < ARRAY_LENGTH_LIMIT)%Z ->
  (fileSize content <= LARGE_FILE_THRESHOLD)%Z
  \/ (SMALL_READ_THRESHOLD < - offset)%Z ->
  let tail := lastn (Z.to_nat (- offset)) (readlineLines content) in
  readFileWithSmartPositioning content offset length includeStatusMessage
  = renderContent includeStatusMessage
      (generateEnhancedStatusMessage (lengthZ tail) offset
         (getFileLineCount content) true)
      tail.
Proof.
  intros Hoffset _ Hregion tail.
  assert (Hcircular : chooseStrategy (fileSize content) offset
                      = CircularBuffer).
  { unfold chooseStrategy.
    destruct (Z.ltb_spec offset 0); [|lia].
    destruct (Z.ltb_spec LARGE_FILE_THRESHOLD (fileSize content));
      [|reflexivity].
    destruct (Z.leb_spec (Z.abs offset) SMALL_READ_THRESHOLD);
      [lia | reflexivity]. }
  unfold readFileWithSmartPositioning. rewrite Hcircular.
  assert (Habs : Z.abs offset = (- offset)%Z) by lia. rewrite Habs.
  rewrite readFromEndWithReadline_tail by lia.
  subst tail. now rewrite Z2Nat.id, Z.opp_involutive by lia.
Qed.

Lemma smart_read_forward_exact_witness :
  readFileWithSmartPositioning fiveLines 1 2 false
  = renderContent false
      (generateEnhancedStatusMessage
         (lengthZ (firstn 2 (skipn 1 (readlineLines fiveLines)))) 1
         (getFileLineCount fiveLines) false)
      (firstn 2 (skipn 1 (readlineLines fiveLines))).
Proof.
  apply (@smart_read_forward_exact fiveLines 1 2 false).
  - lia.
  - left. vm_compute. reflexivity.
Defined.

Lemma smart_read_tail_exact_witness :
  readFileWithSmartPositioning fiveLines (-2) 10 false
  = renderContent false
      (generateEnhancedStatusMessage
         (lengthZ (lastn 2 (readlineLines fiveLines))) (-2)
         (getFileLineCount fiveLines) true)
      (lastn 2 (readlineLines fiveLines)).
Proof.
  apply (@smart_read_tail_exact fiveLines (-2) 10 false).
  - lia.
  - reflexivity.
  - left. vm_compute. discriminate.
Defined.

End ReaderWindowFacts.

(** ** PathGate: what admission is closed under *)

Module PathGateClosureFacts.

Import JsString PathGate PathGateFacts.
Local Open Scope string_scope.

(** *** Strings *)

Lemma prefix_iff (a b : string) :
  String.prefix a b = true <-> exists c, b = a ++ c.
Proof.
  revert b. induction a as [|x a IH]; intros b.
  - split; [intros _; now exists b | now destruct b].
  - destruct b as [|y b]; simpl.
    + split; [discriminate | intros [c Hc]; discriminate].
    + destruct (ascii_dec x y) as [-> | Hxy].
      * rewrite IH. split; intros [c Hc]; exists c;
          [now rewrite Hc | now injection Hc].
      * split; [discriminate |].
        intros [c Hc]. injection Hc as Hyx _. now symmetry in Hyx.
Qed.

Lemma append_assoc (a b c : string) : (a ++ b) ++ c = a ++ (b ++ c).
Proof. induction a as [|x a IH]; simpl; [reflexivity | now rewrite IH]. Qed.

Lemma prefix_append_cancel (a b c : string) :
  String.prefix (a ++ b) (a ++ c) = String.prefix b c.
Proof.
  induction a as [|x a IH]; simpl; [now destruct b, c |].
  destruct (ascii_dec x x) as [_ | Hne]; [exact IH | contradiction].
Qed.

Lemma append_eq_self (a x : string) : a ++ x = a -> x = "".
Proof.
  induction a as [|y a IH]; simpl; [auto |].
  intros H. injection H as H. now apply IH.
Qed.

Lemma toLowerCase_append (a b : string) :
  toLowerCase (a ++ b) = toLowerCase a ++ toLowerCase b.
Proof. induction a as [|x a IH]; simpl; [reflexivity | now rewrite IH]. Qed.

Section Closure.

Variable host : Host.
Variable disk : Disk.

(** Admission grows with the allowed set: a path admitted under a set of
    directories is admitted under every set that holds them all. *)
Lemma admitted_mono (allowed allowed' : list string) (p : string) :
  (forall d, In d allowed -> In d allowed') ->
  admitted host disk allowed p = true ->
  admitted host disk allowed' p = true.
Proof.
  intros Hsub.
  rewrite !admitted_isPathAllowed, !isPathAllowed_secure.
  rewrite !secureIsPathAllowed_spec.
  intros [Hdots [d [Hin Hd]]]. split; [exact Hdots |].
  exists d. split; [now apply Hsub | exact Hd].
Qed.

(** X13.  What lies below an admitted path is admitted: if the canonical
    form of [q] is the canonical form of an allowed path [p] followed by the
    separator and more, and holds no [..], then [q] is allowed. *)
Theorem descendant_of_allowed_is_allowed (allowed : list string)
  (p q : string) :
  (win32 host = true -> toLowerCase (path_sep host) = path_sep host) ->
  isPathAllowed host allowed p = true ->
  startsWith (canonical host q) (canonical host p ++ path_sep host) = true ->
  includes (canonical host q) ".." = false ->
  isPathAllowed host allowed q = true.
Proof.
  intros Hsep Hp Hbelow Hdots.
  rewrite isPathAllowed_secure in *.
  rewrite secureIsPathAllowed_spec in *.
  destruct Hp as [_ [d [Hin Hd]]].
  split; [exact Hdots |]. exists d. split; [exact Hin |].
  unfold startsWith in Hbelow. apply prefix_iff in Hbelow.
  destruct Hbelow as [x Hq]. rewrite Hq.
  assert (Hfold : foldCase host (path_sep host) = path_sep host).
  { unfold foldCase. destruct (win32 host); [now apply Hsep | reflexivity]. }
  assert (Hfold_app : forall a b,
             foldCase host (a ++ b) = foldCase host a ++ foldCase host b).
  { intros a b. unfold foldCase. destruct (win32 host);
      [apply toLowerCase_append | reflexivity]. }
  right. unfold startsWith. apply prefix_iff.
  rewrite !Hfold_app, Hfold.
  destruct Hd as [Heq | Hnested].
  - rewrite Heq. exists (foldCase host x). now rewrite append_assoc.
  - unfold startsWith in Hnested. apply prefix_iff in Hnested.
    destruct Hnested as [y Hy]. rewrite Hy.
    exists (y ++ path_sep host ++ foldCase host x).
    now rewrite !append_assoc.
Qed.

(** X14.  A path that only shares a name prefix with an allowed directory is
    not below it: when the canonical form of [p] is the canonical form of
    the one allowed directory followed by text that does not begin with the
    separator, [p] is denied. *)
Theorem sibling_with_common_prefix_is_denied (d p extra : string) :
  canonical host p = canonical host d ++ extra ->
  extra <> "" ->
  startsWith (foldCase host extra) (path_sep host) = false ->
  isPathAllowed host [d] p = false.
Proof.
  intros Hp Hextra Hsep.
  destruct (isPathAllowed host [d] p) eqn:Hallowed; [|reflexivity].
  exfalso.
  rewrite isPathAllowed_secure, secureIsPathAllowed_spec in Hallowed.
  destruct Hallowed as [_ [d' [[<- | []] Hd]]].
  assert (Hfold_app : forall a b,
             foldCase host (a ++ b) = foldCase host a ++ foldCase host b).
  { intros a b. unfold foldCase. destruct (win32 host);
      [apply toLowerCase_append | reflexivity]. }
  unfold equalsOrNestedUnder in Hd.
  rewrite Hp, Hfold_app in Hd. destruct Hd as [Heq | Hnested].
  - apply append_eq_self in Heq. apply Hextra.
    unfold foldCase in Heq. destruct (win32 host); [|exact Heq].
    destruct extra; [reflexivity | discriminate].
  - unfold startsWith in *. rewrite prefix_append_cancel in Hnested.
    congruence.
Qed.

End Closure.

(** *** Witnesses *)

Lemma descendant_of_allowed_is_allowed_witness :
  isPathAllowed posix ["/workspace"] "/workspace/src/deep/a.txt" = true.
Proof.
  apply (@descendant_of_allowed_is_allowed posix ["/workspace"]
           "/workspace/src" "/workspace/src/deep/a.txt").
  - discriminate.
  - reflexivity.
  - reflexivity.
  - reflexivity.
Defined.

Lemma sibling_with_common_prefix_is_denied_witness :
  isPathAllowed posix ["/allowed"] "/allowed-extra/a.txt" = false.
Proof.
  apply (@sibling_with_common_prefix_is_denied posix "/allowed"
           "/allowed-extra/a.txt" "-extra/a.txt").
  - reflexivity.
  - discriminate.
  - reflexivity.
Defined.

End PathGateClosureFacts.

(** ** windowsPathFix.ts: the collapsing of backslash runs *)

Module WindowsPathFacts.

Import JsString PathGate.
Local Open Scope string_scope.

Definition backslash : ascii := "\"%char.

Definition firstChar (s : string) : option ascii :=
  match s with
  | EmptyString => None
  | String c _ => Some c
  end.

Lemma prefix_one (a : ascii) (t : string) :
  String.prefix (String a "") t
  = match firstChar t with
    | Some b => Ascii.eqb a b
    | None => false
    end.
Proof.
  destruct t as [|b t]; simpl; [reflexivity |].
  destruct (ascii_dec a b) as [-> | Hne].
  - rewrite Ascii.eqb_refl. now destruct t.
  - symmetry. now apply Ascii.eqb_neq.
Qed.

Lemma prefix_two (a b c : ascii) (t : string) :
  String.prefix (String a (String b "")) (String c t)
  = Ascii.eqb a c && String.prefix (String b "") t.
Proof.
  cbn [String.prefix].
  destruct (ascii_dec a c) as [-> | Hne].
  - now rewrite Ascii.eqb_refl.
  - apply Ascii.eqb_neq in Hne. now rewrite Hne.
Qed.

Lemma includes_cons (c : ascii) (t needle : string) :
  includes (String c t) needle
  = String.prefix needle (String c t) || includes t needle.
Proof. reflexivity. Qed.

Lemma collapseBackslashes_firstChar (s : string) :
  firstChar (collapseBackslashes s) = firstChar s.
Proof.
  induction s as [|c rest IH]; [reflexivity |].
  cbn [collapseBackslashes].
  destruct (Ascii.eqb c "\") eqn:Hc; [|reflexivity].
  destruct rest as [|c' r]; [reflexivity |].
  destruct (Ascii.eqb c' "\") eqn:Hc'; [|reflexivity].
  rewrite IH. apply Ascii.eqb_eq in Hc, Hc'. cbn [firstChar]. congruence.
Qed.

Lemma collapseBackslashes_no_run (s : string) :
  includes (collapseBackslashes s) "\\" = false.
Proof.
  induction s as [|c rest IH]; [reflexivity |].
  cbn [collapseBackslashes].
  destruct (Ascii.eqb c "\") eqn:Hc.
  - destruct rest as [|c' r]; [apply Ascii.eqb_eq in Hc; now subst |].
    destruct (Ascii.eqb c' "\") eqn:Hc'; [exact IH |].
    rewrite includes_cons, IH, orb_false_r, prefix_two, prefix_one.
    rewrite collapseBackslashes_firstChar. cbn [firstChar].
    rewrite (Ascii.eqb_sym "\"%char c'), Hc'. apply andb_false_r.
  - rewrite includes_cons, IH, orb_false_r, prefix_two.
    now rewrite (Ascii.eqb_sym "\"%char c), Hc.
Qed.

Lemma collapseBackslashes_fixes (s : string) :
  includes s "\\" = false -> collapseBackslashes s = s.
Proof.
  induction s as [|c rest IH]; [reflexivity |].
  rewrite includes_cons, orb_false_iff, prefix_two, prefix_one.
  intros [Hhere Hrest]. cbn [collapseBackslashes].
  rewrite (IH Hrest).
  destruct (Ascii.eqb c "\") eqn:Hc; [|reflexivity].
  destruct rest as [|c' r]; [reflexivity |].
  cbn [firstChar] in Hhere. rewrite (Ascii.eqb_sym "\"%char c), Hc in Hhere.
  cbn [andb] in Hhere. rewrite (Ascii.eqb_sym "\"%char c') in Hhere.
  now rewrite Hhere.
Qed.

(** X15.  [replace(/\\+/g, '\\')] as embedded: the result holds no two
    backslashes in a row, it keeps the first character of its input, a
    string without such a pair is returned unchanged, and so collapsing
    twice is collapsing once. *)
Theorem collapseBackslashes_normal_form (s : string) :
  includes (collapseBackslashes s) "\\" = false
  /\ firstChar (collapseBackslashes s) = firstChar s
  /\ (includes s "\\" = false -> collapseBackslashes s = s)
  /\ collapseBackslashes (collapseBackslashes s) = collapseBackslashes s.
Proof.
  split; [apply collapseBackslashes_no_run |].
  split; [apply collapseBackslashes_firstChar |].
  split; [apply collapseBackslashes_fixes |].
  apply collapseBackslashes_fixes, collapseBackslashes_no_run.
Qed.

End WindowsPathFacts.

(** ** FilenameTreeWalker: what every returned list satisfies *)

Module NameSearchInvariants.

Import JsString NameSearch.
Local Open Scope string_scope.

Section Invariant.

Variable host : Host.
Variable disk : Disk.
Variable allowed : list string.
Variable pattern : string.
Variable opts : Options.

(** A property of result lists that survives the one way the walker adds to
    [results]: appending the joined path of an admitted entry whose name
    matches, while [results.length < maxResults]. *)
Variable Q : list string -> Prop.

Hypothesis Q_push :
  forall (found : list string) (currentPath name : string),
    Q found ->
    (Z.of_nat (List.length found) < maxResults opts)%Z ->
    admitted host disk allowed (path_join host currentPath name) = true ->
    nameMatches host pattern name = true ->
    Q (found ++ [path_join host currentPath name]).

(** Both lists the call can return have the property: [results], and the
    [results] the [catch] block saw. *)
Definition holds (w : Walk) : Prop :=
  Q (results w) /\ forall partial, raceLostWith w = Some partial -> Q partial.

Lemma await_results (racing : bool) (w : Walk) :
  results (await opts racing w) = results w.
Proof. unfold await. now destruct (_ && _). Qed.

Lemma await_holds (racing : bool) (w : Walk) :
  holds w -> holds (await opts racing w).
Proof.
  intros [Hresults Hlost]. unfold holds, await.
  destruct (_ && _); cbn [results raceLostWith]; (split; [exact Hresults |]).
  - destruct racing; [|exact Hlost].
    intros partial Heq. injection Heq as <-. exact Hresults.
  - exact Hlost.
Qed.

Lemma cancel_holds (w : Walk) : holds w -> holds (cancel w).
Proof. intros H. exact H. Qed.

Lemma found_holds (racing : bool) (w : Walk) (currentPath name : string) :
  holds w ->
  full opts w = false ->
  admitted host disk allowed (path_join host currentPath name) = true ->
  holds (if nameMatches host pattern name
         then push (path_join host currentPath name) (await opts racing w)
         else await opts racing w).
Proof.
  intros Hw Hfull Hadm.
  pose proof (await_holds racing Hw) as [Hresults Hlost].
  destruct (nameMatches host pattern name) eqn:Hname;
    [|split; assumption].
  split; [|exact Hlost]. cbn [push results].
  apply Q_push; try assumption.
  rewrite await_results. unfold full in Hfull.
  now apply Z.leb_gt in Hfull.
Qed.

Lemma filesLoop_holds (currentPath : string) (files : list Entry) :
  forall w, holds w ->
            holds (filesLoop host disk allowed pattern opts currentPath files w).
Proof.
  induction files as [|entry rest IH]; intros w Hw; cbn [filesLoop];
    [exact Hw |].
  destruct (searchCancelled w || full opts w) eqn:Hstop; [exact Hw |].
  apply orb_false_iff in Hstop. destruct Hstop as [_ Hfull].
  destruct (admitted host disk allowed
              (path_join host currentPath (entryName entry))) eqn:Hadm.
  - apply IH. now apply found_holds.
  - apply IH. now apply await_holds.
Qed.

(** The loop over the entries of one directory, as [search] runs it. *)
Definition dirsLoop (currentPath : string) (depth : Z) :=
  fix dirsLoop (todo : list Entry) (w : Walk) : Walk :=
    match todo with
    | [] => w
    | entry :: rest =>
        match entry with
        | Directory name _ =>
            if searchCancelled w || full opts w || (maxDepth opts <=? depth)%Z
            then w
            else if existsb (String.eqb name) (excludeDirs opts)
            then dirsLoop rest w
            else
              let fullPath := path_join host currentPath name in
              let w := await opts true w in
              if admitted host disk allowed fullPath then
                let w := if nameMatches host pattern name
                         then push fullPath w else w in
                dirsLoop rest
                  (search host disk allowed pattern opts entry fullPath
                     (depth + 1) w)
              else dirsLoop rest w
        | _ => dirsLoop rest w
        end
    end.

Lemma search_directory (name : string) (entries : list Entry)
  (currentPath : string) (depth : Z) (w : Walk) :
  search host disk allowed pattern opts (Directory name (Some entries))
    currentPath depth w
  = if searchCancelled w || full opts w || (maxDepth opts <? depth)%Z then w
    else if (timeoutMs opts <? now w - 0)%Z then cancel w
    else dirsLoop currentPath depth entries
           (filesLoop host disk allowed pattern opts currentPath
              (filter isFile entries) (await opts true w)).
Proof. reflexivity. Qed.

Lemma search_holds (dir : Entry) :
  forall (currentPath : string) (depth : Z) (w : Walk),
    holds w ->
    holds (search host disk allowed pattern opts dir currentPath depth w).
Proof.
  induction dir as [name content | name listing IH | name]
    using ContentSearchFacts.Entry_tree_ind; intros currentPath depth w Hw;
    [exact Hw | | exact Hw].
  destruct listing as [entries|].
  - rewrite search_directory.
    destruct (searchCancelled w || full opts w || (maxDepth opts <? depth)%Z);
      [exact Hw |].
    destruct (timeoutMs opts <? now w - 0)%Z; [exact Hw |].
    specialize (IH entries eq_refl).
    assert (Hstart :
              holds (filesLoop host disk allowed pattern opts currentPath
                       (filter isFile entries) (await opts true w)))
      by now apply filesLoop_holds, await_holds.
    revert Hstart. generalize (filesLoop host disk allowed pattern opts
                                 currentPath (filter isFile entries)
                                 (await opts true w)).
    induction IH as [|entry rest Hentry _ IHrest]; intros w' Hw';
      [exact Hw' |].
    destruct entry as [fname fcontent | dname dlisting | sname];
      cbn [dirsLoop]; [now apply IHrest | | now apply IHrest].
    fold (dirsLoop currentPath depth).
    destruct (searchCancelled w' || full opts w' || (maxDepth opts <=? depth)%Z)
      eqn:Hstop; [exact Hw' |].
    apply orb_false_iff in Hstop. destruct Hstop as [Hstop _].
    apply orb_false_iff in Hstop. destruct Hstop as [_ Hfull].
    destruct (existsb (String.eqb dname) (excludeDirs opts));
      [now apply IHrest |].
    destruct (admitted host disk allowed (path_join host currentPath dname))
      eqn:Hadm.
    + apply IHrest. apply Hentry. now apply found_holds.
    + apply IHrest. now apply await_holds.
  - cbn [search].
    destruct (searchCancelled w || full opts w || (maxDepth opts <? depth)%Z);
      [exact Hw |].
    destruct (timeoutMs opts <? now w - 0)%Z; [exact Hw |].
    now apply await_holds.
Qed.

(** Every list [searchFiles] returns has the property, given that the empty
    list has it. *)
Lemma searchFiles_holds (root : Entry) (rootPath : string)
  (schedule : list Tick) (found : list string) :
  Q [] ->
  searchFiles host disk allowed pattern opts root rootPath schedule
  = Resolved found ->
  Q found.
Proof.
  intros Hnil. unfold searchFiles.
  assert (Hstart : holds (await opts false (start schedule))).
  { apply await_holds. split; [exact Hnil | discriminate]. }
  destruct (PathGate.validatePath host disk allowed rootPath)
    as [validPath | requested dirs].
  - pose proof (search_holds root validPath 0 Hstart) as [Hresults Hlost].
    destruct (raceLostWith _) as [partial|] eqn:Hrace.
    + destruct partial as [|first rest]; [discriminate |].
      intros Heq. injection Heq as <-. now apply Hlost.
    + intros Heq. injection Heq as <-. exact Hresults.
  - destruct (_ && _); [|discriminate].
    intros Heq. injection Heq as <-. exact (proj1 Hstart).
Qed.

End Invariant.

(** X16.  [searchFiles] keeps to [maxResults]: whether the walker finished,
    was cancelled, or lost the race against the timeout, a returned list
    holds at most [maxResults] paths. *)
Theorem searchFiles_within_maxResults (host : Host) (disk : Disk)
  (allowed : list string) (pattern : string) (opts : Options) (root : Entry)
  (rootPath : string) (schedule : list Tick) (found : list string) :
  (0 <= maxResults opts)%Z ->
  searchFiles host disk allowed pattern opts root rootPath schedule
  = Resolved found ->
  (Z.of_nat (List.length found) <= maxResults opts)%Z.
Proof.
  intros Hmax Hfound.
  refine (@searchFiles_holds host disk allowed pattern opts
            (fun l => (Z.of_nat (List.length l) <= maxResults opts)%Z)
            _ root rootPath schedule found _ Hfound).
  - intros l currentPath name _ Hbelow _ _.
    rewrite length_app. cbn [List.length]. lia.
  - exact Hmax.
Qed.


(** *** Witnesses *)

Definition twoFiles : Entry :=
  Directory "workspace"
    (Some [File "zzz1.txt" None; File "zzz2.txt" None;
           Directory "sub" (Some [File "zzz3.txt" None])]).

Definition atMostOne : Options := {|
  maxResults := 1;
  maxDepth := 10;
  timeoutMs := 1000;
  excludeDirs := []
|}.

Lemma searchFiles_within_maxResults_witness :
  searchFiles posix ContentSearchFacts.rootDisk ["/workspace"] "zzz"
    atMostOne twoFiles "/workspace" []
  = Resolved ["/workspace/zzz1.txt"]
  /\ (Z.of_nat (List.length ["/workspace/zzz1.txt"]) <= 1)%Z.
Proof.
  split; [reflexivity |].
  apply (@searchFiles_within_maxResults posix ContentSearchFacts.rootDisk
           ["/workspace"] "zzz" atMostOne twoFiles "/workspace" []
           ["/workspace/zzz1.txt"]).
  - discriminate.
  - reflexivity.
Defined.


End NameSearchInvariants.

(** ** ContentSearchEngine: what the native fallback returns *)

Module ContentSearchInvariants.

Import JsString ContentSearch.
Local Open Scope string_scope.

(** The readable files below an entry found in the directory [dirPath], each
    with the path the walker builds for it and its text. *)
Fixpoint filesUnder (host : Host) (dirPath : string) (e : Entry)
  : list (string * string) :=
  match e with
  | File name (Some text) => [(path_join host dirPath name, text)]
  | Directory name (Some entries) =>
      flat_map (filesUnder host (path_join host dirPath name)) entries
  | _ => []
  end.

Definition filesOfListing (host : Host) (dirPath : string)
  (listing : option (list Entry)) : list (string * string) :=
  match listing with
  | Some entries => flat_map (filesUnder host dirPath) entries
  | None => []
  end.

Lemma skipn_cons_inv (A : Type) (i : nat) :
  forall (l rest : list A) (x : A),
    skipn i l = x :: rest ->
    skipn (S i) l = rest /\ nth_error l i = Some x /\ i < List.length l.
Proof.
  induction i as [|i IH]; intros l rest x Hskip.
  - destruct l as [|y l]; [discriminate |].
    cbn [skipn] in Hskip. injection Hskip as -> ->.
    cbn [List.length]. repeat split; lia.
  - destruct l as [|y l]; [discriminate |].
    cbn [skipn] in Hskip. destruct (IH l rest x Hskip) as [H1 [H2 H3]].
    cbn [List.length]. repeat split; [exact H1 | exact H2 | lia].
Qed.

(** *** The context records of one match *)

Lemma skipping_one_length (A : Type) (f : nat -> A) (i n : nat) :
  forall s,
    List.length
      (flat_map (fun j => if (j =? i)%nat then [] else [f j]) (seq s n))
    + (if (s <=? i)%nat && (i <? s + n)%nat then 1 else 0)
    = n.
Proof.
  induction n as [|n IH]; intros s; cbn [seq flat_map].
  - cbn [List.length]. replace (s + 0) with s by lia.
    destruct (s <=? i)%nat eqn:H1, (i <? s)%nat eqn:H2; cbn [andb];
      try reflexivity.
    apply Nat.leb_le in H1. apply Nat.ltb_lt in H2. lia.
  - rewrite length_app. specialize (IH (S s)).
    destruct (s =? i)%nat eqn:Hhere.
    + apply Nat.eqb_eq in Hhere. subst s.
      assert (H1 : (S i <=? i)%nat = false) by (apply Nat.leb_gt; lia).
      rewrite H1 in IH. cbn [andb] in IH.
      assert (H2 : (i <=? i)%nat = true) by (apply Nat.leb_le; lia).
      assert (H3 : (i <? i + S n)%nat = true) by (apply Nat.ltb_lt; lia).
      rewrite H2, H3. cbn [andb List.length]. lia.
    + apply Nat.eqb_neq in Hhere.
      assert (Hsame : (s <=? i)%nat && (i <? s + S n)%nat
                      = (S s <=? i)%nat && (i <? S s + n)%nat).
      { destruct (s <=? i)%nat eqn:H1, (i <? s + S n)%nat eqn:H2,
          (S s <=? i)%nat eqn:H3, (i <? S s + n)%nat eqn:H4;
          cbn [andb]; try reflexivity; exfalso;
          repeat match goal with
            | H : (_ <=? _)%nat = true |- _ => apply Nat.leb_le in H
            | H : (_ <=? _)%nat = false |- _ => apply Nat.leb_gt in H
            | H : (_ <? _)%nat = true |- _ => apply Nat.ltb_lt in H
            | H : (_ <? _)%nat = false |- _ => apply Nat.ltb_ge in H
            end; lia. }
      rewrite Hsame. cbn [List.length]. lia.
Qed.

Lemma contextRecords_length (ctx : Z) (fullPath : string)
  (lines : list string) (i : nat) :
  (0 < ctx)%Z -> i < List.length lines ->
  (count (contextRecords ctx fullPath lines i) <= 2 * ctx)%Z.
Proof.
  intros Hctx Hi. unfold count, contextRecords.
  set (startIdx := Z.max 0 (Z.of_nat i - ctx)).
  set (endIdx := Z.min (Z.of_nat (List.length lines) - 1) (Z.of_nat i + ctx)).
  pose proof (skipping_one_length
                (fun j => {| file := fullPath; line := Z.of_nat j + 1;
                             matchText := trim (nth j lines "") |})
                i (Z.to_nat (endIdx - startIdx + 1)) (Z.to_nat startIdx))
    as Hlen.
  assert (H1 : (Z.to_nat startIdx <=? i)%nat = true)
    by (apply Nat.leb_le; subst startIdx; lia).
  assert (H2 : (i <? Z.to_nat startIdx + Z.to_nat (endIdx - startIdx + 1))%nat
               = true)
    by (apply Nat.ltb_lt; subst startIdx endIdx; lia).
  rewrite H1, H2 in Hlen. cbn [andb] in Hlen.
  subst startIdx endIdx. lia.
Qed.

Lemma contextRecords_members (ctx : Z) (fullPath : string)
  (lines : list string) (i : nat) (r : SearchResult) :
  In r (contextRecords ctx fullPath lines i) ->
  exists j, j < List.length lines
            /\ r = {| file := fullPath; line := Z.of_nat j + 1;
                      matchText := trim (nth j lines "") |}.
Proof.
  unfold contextRecords. rewrite in_flat_map.
  intros [j [Hrange Hr]]. apply in_seq in Hrange.
  destruct (j =? i)%nat; [destruct Hr |].
  destruct Hr as [<- | []]. exists j. split; [lia | reflexivity].
Qed.

(** *** An invariant of the walk *)

Section Invariant.

Variable host : Host.
Variable disk : Disk.
Variable allowed : list string.
Variable maxResultsV : Z.
Variable contextLinesV : Z.
Variable excludeDirs : list string.
Variable regexTest : string -> bool.
Variable fileRegexTest : option (string -> bool).

(** [known fullPath text]: the walk may meet the file [fullPath] with the
    content [text]. *)
Variable known : string -> string -> Prop.

(** A property of [results] that survives what one matching line adds: its
    own record, then its context records when context is asked for; this
    happens only while [results.length < maxResults], in an admitted file,
    at an index [i] of the file's lines. *)
Variable Q : list SearchResult -> Prop.

Hypothesis Q_match :
  forall (found : list SearchResult) (fullPath text current : string)
         (i : nat),
    Q found ->
    (count found < maxResultsV)%Z ->
    admitted host disk allowed fullPath = true ->
    known fullPath text ->
    nth_error (split Reader.LF text) i = Some current ->
    regexTest current = true ->
    Q (if (0 <? contextLinesV)%Z
       then (found ++ [{| file := fullPath; line := Z.of_nat i + 1;
                          matchText := trim current |}])
              ++ contextRecords contextLinesV fullPath
                   (split Reader.LF text) i
       else found ++ [{| file := fullPath; line := Z.of_nat i + 1;
                         matchText := trim current |}])%list.

Lemma scanLines_holds (fullPath text : string) :
  admitted host disk allowed fullPath = true ->
  known fullPath text ->
  forall (todo : list string) (i : nat) (found : list SearchResult),
    todo = skipn i (split Reader.LF text) ->
    Q found ->
    (count found < maxResultsV)%Z ->
    Q (scanLines maxResultsV contextLinesV regexTest fullPath
         (split Reader.LF text) todo i found).
Proof.
  intros Hadm Hknown.
  induction todo as [|current rest IH]; intros i found Htodo HQ Hbelow;
    cbn [scanLines]; [exact HQ |].
  symmetry in Htodo.
  destruct (skipn_cons_inv Htodo) as [Hrest [Hnth _]].
  destruct (regexTest current) eqn:Htest.
  - pose proof (Q_match HQ Hbelow Hadm Hknown Hnth Htest) as Hnext.
    destruct (0 <? contextLinesV)%Z;
      match goal with
      | |- Q (if (maxResultsV <=? count ?l)%Z then _ else _) =>
          destruct (maxResultsV <=? count l)%Z eqn:Hfull;
            [exact Hnext |
             apply IH; [now symmetry | exact Hnext |
                        now apply Z.leb_gt in Hfull]]
      end.
  - apply IH; [now symmetry | exact HQ | exact Hbelow].
Qed.

Lemma searchEntry_holds (entry : Entry) :
  forall (dirPath : string) (found : list SearchResult),
    (forall fullPath text,
        In (fullPath, text) (filesUnder host dirPath entry) ->
        known fullPath text) ->
    Q found ->
    (count found < maxResultsV)%Z ->
    Q (searchEntry host disk allowed maxResultsV contextLinesV excludeDirs
         regexTest fileRegexTest dirPath entry found).
Proof.
  induction entry as [name content | name listing IH | name]
    using ContentSearchFacts.Entry_tree_ind;
    intros dirPath found Hknown HQ Hbelow.
  - cbn [searchEntry entryName].
    destruct (admitted host disk allowed (path_join host dirPath name))
      eqn:Hadm; cbn [negb]; [|exact HQ].
    destruct (match fileRegexTest with
              | Some test => test name
              | None => true
              end); [|exact HQ].
    destruct content as [text|]; [|exact HQ].
    apply scanLines_holds; try assumption; try reflexivity.
    apply Hknown. cbn [filesUnder]. now left.
  - simpl.
    destruct (negb (admitted host disk allowed _)); [exact HQ |].
    destruct (nameIn name excludeDirs); [exact HQ |].
    destruct (maxResultsV <=? count found)%Z; [exact HQ |].
    destruct listing as [entries|]; [|exact HQ].
    specialize (IH entries eq_refl).
    assert (Hknown' :
              forall e, In e entries ->
                        forall fullPath text,
                          In (fullPath, text)
                            (filesUnder host (path_join host dirPath name) e) ->
                          known fullPath text).
    { intros e He fullPath text Hin. apply Hknown.
      cbn [filesUnder]. apply in_flat_map. now exists e. }
    clear Hknown Hbelow. revert found HQ.
    induction IH as [|e rest He Hrest IHrest]; intros found HQ;
      [exact HQ |].
    destruct (maxResultsV <=? count found)%Z eqn:Hfull; [exact HQ |].
    apply IHrest.
    + intros e' He'. apply Hknown'. now right.
    + apply He; [apply Hknown'; now left | exact HQ |
                 now apply Z.leb_gt in Hfull].
  - simpl. destruct (negb (admitted host disk allowed _)); exact HQ.
Qed.

Lemma searchDir_holds (dirPath : string) (listing : option (list Entry))
  (found : list SearchResult) :
  (forall fullPath text,
      In (fullPath, text) (filesOfListing host dirPath listing) ->
      known fullPath text) ->
  Q found ->
  Q (searchDir host disk allowed maxResultsV contextLinesV excludeDirs
       regexTest fileRegexTest dirPath listing found).
Proof.
  intros Hknown HQ. unfold searchDir.
  destruct (maxResultsV <=? count found)%Z; [exact HQ |].
  destruct listing as [entries|]; [|exact HQ].
  cbn [filesOfListing] in Hknown.
  revert found HQ.
  induction entries as [|e rest IH]; intros found HQ; cbn [entriesLoop];
    [exact HQ |].
  destruct (maxResultsV <=? count found)%Z eqn:Hfull; [exact HQ |].
  apply IH.
  - intros fullPath text Hin. apply Hknown.
    cbn [flat_map]. apply in_or_app. now right.
  - apply searchEntry_holds; [| exact HQ | now apply Z.leb_gt in Hfull].
    intros fullPath text Hin. apply Hknown.
    cbn [flat_map]. apply in_or_app. now left.
Qed.

End Invariant.

(** X18.  How far the fallback can pass [maxResults]: the limit is tested
    after a matching line and its context records were all added, so a
    returned list holds at most [maxResults] records plus the context of one
    match, twice [contextLines]. *)
Theorem fallback_overshoot_bounded (host : Host) (disk : Disk)
  (allowed : list string)
  (compileRegExp : string -> bool -> option (string -> bool))
  (listing : option (list Entry)) (o : Options)
  (excludeDirs : option (list string)) (found : list SearchResult) :
  (0 <= maxResultsOf o)%Z ->
  searchCodeFallback host disk allowed compileRegExp listing o excludeDirs
  = Resolved found ->
  (count found <= maxResultsOf o + 2 * Z.max 0 (contextLinesOf o))%Z.
Proof.
  intros Hmax. unfold searchCodeFallback.
  destruct (PathGate.validatePath host disk allowed (rootPath o))
    as [validPath | requested dirs]; [|discriminate].
  destruct (compileRegExp (pattern o) (ignoreCaseOf o)) as [test|];
    [|discriminate].
  destruct (if truthy (filePattern o)
            then match compileRegExp (orString (filePattern o) "") false with
                 | Some t => Some (Some t)
                 | None => None
                 end
            else Some None) as [filter|]; [|discriminate].
  intros H. injection H as <-.
  apply (@searchDir_holds host disk allowed (maxResultsOf o)
           (contextLinesOf o) _ test filter (fun _ _ => True)
           (fun l => (count l
                      <= maxResultsOf o + 2 * Z.max 0 (contextLinesOf o))%Z)).
  - intros l fullPath text current i Hl Hbelow _ _ Hnth _.
    assert (Hi : i < List.length (split Reader.LF text)).
    { apply nth_error_Some. congruence. }
    destruct (0 <? contextLinesOf o)%Z eqn:Hctx.
    + apply Z.ltb_lt in Hctx.
      pose proof (@contextRecords_length (contextLinesOf o) fullPath
                    (split Reader.LF text) i Hctx Hi) as Hlen.
      unfold count in *. rewrite !length_app. cbn [List.length]. lia.
    + unfold count in *. rewrite length_app. cbn [List.length]. lia.
  - intros; exact I.
  - unfold count. cbn [List.length]. lia.
Qed.

(** What the fallback may say of a file: the record names an admitted file
    met below the root, a line number of that file, and the trimmed text of
    that line; when no context is asked for, the line passes [test]. *)
Definition recordOfTree (host : Host) (disk : Disk) (allowed : list string)
  (validPath : string) (listing : option (list Entry)) (contextLinesV : Z)
  (test : string -> bool) (r : SearchResult) : Prop :=
  admitted host disk allowed (file r) = true
  /\ exists text,
       In (file r, text) (filesOfListing host validPath listing)
       /\ (1 <= line r <= Z.of_nat (List.length (split Reader.LF text)))%Z
       /\ matchText r
          = trim (nth (Z.to_nat (line r - 1)) (split Reader.LF text) "")
       /\ ((contextLinesV <= 0)%Z ->
           test (nth (Z.to_nat (line r - 1)) (split Reader.LF text) "")
           = true).

(** X19.  Every record of the fallback comes from the tree: its file was
    admitted by [validatePath] and lies below the validated root, its line
    number is one of the file's, its text is that line trimmed, and without
    context lines that line matches the pattern. *)
Theorem fallback_records_come_from_tree (host : Host) (disk : Disk)
  (allowed : list string)
  (compileRegExp : string -> bool -> option (string -> bool))
  (listing : option (list Entry)) (o : Options)
  (excludeDirs : option (list string)) (found : list SearchResult)
  (validPath : string) (test : string -> bool) :
  PathGate.validatePath host disk allowed (rootPath o)
  = PathGate.Allowed validPath ->
  compileRegExp (pattern o) (ignoreCaseOf o) = Some test ->
  searchCodeFallback host disk allowed compileRegExp listing o excludeDirs
  = Resolved found ->
  Forall
    (recordOfTree host disk allowed validPath listing (contextLinesOf o) test)
    found.
Proof.
  intros Hvalid Htest. unfold searchCodeFallback. rewrite Hvalid, Htest.
  destruct (if truthy (filePattern o)
            then match compileRegExp (orString (filePattern o) "") false with
                 | Some t => Some (Some t)
                 | None => None
                 end
            else Some None) as [filter|]; [|discriminate].
  intros H. injection H as <-.
  apply (@searchDir_holds host disk allowed (maxResultsOf o)
           (contextLinesOf o) _ test filter
           (fun fullPath text =>
              In (fullPath, text) (filesOfListing host validPath listing))
           (Forall (recordOfTree host disk allowed validPath listing
                      (contextLinesOf o) test))).
  - intros l fullPath text current i Hl _ Hadm Hknown Hnth Hmatch.
    assert (Hi : i < List.length (split Reader.LF text)).
    { apply nth_error_Some. congruence. }
    assert (Hown :
              recordOfTree host disk allowed validPath listing
                (contextLinesOf o) test
                {| file := fullPath; line := Z.of_nat i + 1;
                   matchText := trim current |}).
    { split; [exact Hadm |]. exists text. cbn [file line matchText].
      replace (Z.to_nat (Z.of_nat i + 1 - 1)) with i by lia.
      rewrite (nth_error_nth _ _ "" Hnth).
      split; [exact Hknown |].
      split; [lia |].
      split; [reflexivity | intros _; exact Hmatch]. }
    destruct (0 <? contextLinesOf o)%Z eqn:Hctx.
    + apply Z.ltb_lt in Hctx.
      apply Forall_app. split;
        [apply Forall_app; split; [exact Hl | now constructor] |].
      apply Forall_forall. intros r Hr.
      apply contextRecords_members in Hr. destruct Hr as [j [Hj ->]].
      split; [exact Hadm |]. exists text. cbn [file line matchText].
      replace (Z.to_nat (Z.of_nat j + 1 - 1)) with j by lia.
      split; [exact Hknown |].
      split; [lia |].
      split; [reflexivity | intros Hnone; lia].
    + apply Forall_app. split; [exact Hl | now constructor].
  - intros fullPath text Hin. exact Hin.
  - constructor.
Qed.

(** *** Witnesses *)

Lemma fallback_overshoot_bounded_witness :
  (count
     [{| file := "/workspace/a.txt"; line := 2; matchText := "foo" |};
      {| file := "/workspace/a.txt"; line := 1; matchText := "x" |};
      {| file := "/workspace/a.txt"; line := 3; matchText := "y" |}]
   <= 1 + 2 * Z.max 0 1)%Z.
Proof.
  apply (@fallback_overshoot_bounded posix ContentSearchFacts.rootDisk
           ["/workspace"] literalRegExp ContentSearchFacts.threeLineCorpus
           ContentSearchFacts.boundedQuery None).
  - discriminate.
  - reflexivity.
Defined.

Lemma fallback_records_come_from_tree_witness :
  Forall
    (recordOfTree posix ContentSearchFacts.rootDisk ["/workspace"]
       "/workspace" ContentSearchFacts.oneLineCorpus 0
       (fun subject => includes (toLowerCase subject) (toLowerCase "foo")))
    [{| file := "/workspace/a.txt"; line := 1;
        matchText := "hello foo bar" |}].
Proof.
  apply (@fallback_records_come_from_tree posix ContentSearchFacts.rootDisk
           ["/workspace"] literalRegExp ContentSearchFacts.oneLineCorpus
           ContentSearchFacts.plainQuery None).
  - reflexivity.
  - reflexivity.
  - reflexivity.
Defined.

End ContentSearchInvariants.

(** ** Both searches at a root the gate denies *)

Module SearchRootFacts.

Import JsString.
Local Open Scope string_scope.

(** X20.  A root that [validatePath] denies is refused with the gate's
    message by the content search, whether the engine is available or not
    and whatever it would print, and by the file-name search, whatever the
    timing and even when the message holds the words [timed out]. *)
Theorem denied_root_is_refused (host : Host) (disk : Disk)
  (allowed : list string)
  (compileRegExp : string -> bool -> option (string -> bool))
  (isRipgrepAvailable : bool) (rg : list string -> ContentSearch.RgRun)
  (listing : option (list Entry)) (o : ContentSearch.Options)
  (requested : string) (dirs : list string)
  (namePattern : string) (opts : NameSearch.Options) (root : Entry)
  (schedule : list NameSearch.Tick) :
  PathGate.validatePath host disk allowed (ContentSearch.rootPath o)
  = PathGate.PathNotAllowed requested dirs ->
  ContentSearch.searchTextInFiles host disk allowed compileRegExp
    isRipgrepAvailable rg listing o
  = Rejected (PathGate.denialMessage requested dirs)
  /\ NameSearch.searchFiles host disk allowed namePattern opts root
       (ContentSearch.rootPath o) schedule
     = Rejected (PathGate.denialMessage requested dirs).
Proof.
  intros Hdenied. split.
  - unfold ContentSearch.searchTextInFiles, ContentSearch.searchCode,
      ContentSearch.searchCodeFallback.
    rewrite Hdenied. now destruct isRipgrepAvailable.
  - unfold NameSearch.searchFiles. rewrite Hdenied.
    rewrite NameSearchInvariants.await_results. cbn [NameSearch.start
      NameSearch.results List.length Nat.eqb negb].
    now rewrite andb_false_r.
Qed.

Definition outsideQuery : ContentSearch.Options := {|
  ContentSearch.rootPath := "/srv/timed out";
  ContentSearch.pattern := "foo";
  ContentSearch.filePattern := None;
  ContentSearch.ignoreCase := None;
  ContentSearch.maxResults := None;
  ContentSearch.includeHidden := None;
  ContentSearch.contextLines := None
|}.

Lemma denied_root_is_refused_witness :
  ContentSearch.searchTextInFiles posix ContentSearchFacts.rootDisk
    ["/workspace"] ContentSearch.literalRegExp true
    ContentSearchFacts.oneLineEngine ContentSearchFacts.oneLineCorpus
    outsideQuery
  = Rejected
      "Path not allowed: /srv/timed out. Must be within one of these directories: /workspace"
  /\ NameSearch.searchFiles posix ContentSearchFacts.rootDisk ["/workspace"]
       "zzz" NameSearchFacts.oneSecond NameSearchFacts.smallTree
       "/srv/timed out" []
     = Rejected
         "Path not allowed: /srv/timed out. Must be within one of these directories: /workspace".
Proof.
  apply (@denied_root_is_refused posix ContentSearchFacts.rootDisk
           ["/workspace"] ContentSearch.literalRegExp true
           ContentSearchFacts.oneLineEngine ContentSearchFacts.oneLineCorpus
           outsideQuery "/srv/timed out" ["/workspace"] "zzz"
           NameSearchFacts.oneSecond NameSearchFacts.smallTree []).
  reflexivity.
Defined.

End SearchRootFacts.

(** ** The availability probe once a timer has fired *)

Module ProbeTimerFacts.

Import Probe.

(** A ['close'] event with exit code 0: the one event that assigns [true]. *)
Definition closesWithSuccess (e : Event) : bool :=
  match e with
  | ProcClose _ code => (code =? 0)%Z
  | _ => false
  end.

Lemma run_app (first second : list Event) :
  forall s,
    run s (first ++ second)
    = match run s first with
      | Some s' => run s' second
      | None => None
      end.
Proof.
  induction first as [|e rest IH]; intros s; cbn [app run]; [reflexivity |].
  destruct (step s e) as [s'|]; [apply IH | reflexivity].
Qed.

Lemma step_keeps_unavailable (s s' : State) (e : Event) :
  ripgrepAvailable s = Some false ->
  closesWithSuccess e = false ->
  step s e = Some s' ->
  ripgrepAvailable s' = Some false.
Proof.
  intros Hflag Hquiet Hstep.
  destruct e as [throws | pid code | pid | pid]; cbn [step] in Hstep.
  - injection Hstep as <-. unfold checkRipgrepAvailability.
    now rewrite Hflag.
  - destruct (nth_error (probes s) pid) as [p|]; [|discriminate].
    destruct (closeSeen p); [discriminate |].
    injection Hstep as <-. cbn [closesWithSuccess] in Hquiet.
    unfold onClose, assign. cbn [ripgrepAvailable]. now rewrite Hquiet.
  - destruct (nth_error (probes s) pid) as [p|]; [|discriminate].
    destruct (errorSeen p || closeSeen p); [discriminate |].
    now injection Hstep as <-.
  - destruct (nth_error (probes s) pid) as [p|]; [|discriminate].
    destruct (timerRan p); [discriminate |].
    now injection Hstep as <-.
Qed.

Lemma run_keeps_unavailable (events : list Event) :
  forall s s',
    ripgrepAvailable s = Some false ->
    existsb closesWithSuccess events = false ->
    run s events = Some s' ->
    ripgrepAvailable s' = Some false
    /\ List.length (probes s') = List.length (probes s).
Proof.
  induction events as [|e rest IH]; intros s s' Hflag Hquiet Hrun;
    cbn [run] in Hrun.
  - injection Hrun as <-. now split.
  - cbn [existsb] in Hquiet. apply orb_false_iff in Hquiet.
    destruct Hquiet as [Hhere Hlater].
    destruct (step s e) as [s1|] eqn:Hstep; [|discriminate].
    pose proof (step_keeps_unavailable Hflag Hhere Hstep) as Hflag1.
    destruct (ProbeFacts.step_settled Hflag Hstep) as [_ Hlen].
    destruct (IH s1 s' Hflag1 Hlater Hrun) as [Hflag' Hlen'].
    split; [exact Hflag' | congruence].
Qed.

(** X21.  The two-second timer of a probe is never cleared, and it assigns
    [false].  So once any probe's timer has fired, the engine stays
    unavailable: unless a probe process closes with exit code 0 afterwards,
    the flag is [false] after every later event, no later invocation spawns
    a probe, and each answers [false]. *)
Theorem unavailable_after_timer (before after : list Event) (pid : nat)
  (s0 s : State) :
  existsb closesWithSuccess after = false ->
  run s0 (before ++ TimerFires pid :: after) = Some s ->
  ripgrepAvailable s = Some false
  /\ forall throws,
       exists s',
         step s (Call throws) = Some s'
         /\ probes s' = probes s
         /\ ripgrepAvailable s' = Some false
         /\ immediateAnswers s' = (immediateAnswers s ++ [false])%list.
Proof.
  intros Hquiet Hrun. rewrite run_app in Hrun.
  destruct (run s0 before) as [s1|]; [|discriminate].
  cbn [run step] in Hrun.
  destruct (nth_error (probes s1) pid) as [p|]; [|discriminate].
  destruct (timerRan p); [discriminate |].
  destruct (@run_keeps_unavailable after (onTimeout s1 pid p) s eq_refl
              Hquiet Hrun) as [Hflag _].
  split; [exact Hflag |].
  intros throws. cbn [step]. unfold checkRipgrepAvailability.
  rewrite Hflag. eexists. split; [reflexivity |].
  cbn [probes ripgrepAvailable immediateAnswers]. auto.
Qed.

(** The probe closes with exit code 0 at once, two invocations are answered
    [true] from the memo, the timer fires, and the next one is answered
    [false]. *)
Lemma unavailable_after_timer_witness :
  exists s,
    run initial
      ([Call false; ProcClose 0 0; Call false; Call false]
         ++ TimerFires 0 :: [Call false])
    = Some s
    /\ ripgrepAvailable s = Some false
    /\ immediateAnswers s = [true; true; false].
Proof.
  eexists. split; [reflexivity |].
  split; [|reflexivity].
  apply (@unavailable_after_timer
           [Call false; ProcClose 0 0; Call false; Call false]
           [Call false] 0 initial _ eq_refl eq_refl).
Defined.

End ProbeTimerFacts.

(** ** security.ts: the screening of directories *)

Module SecurityFacts.

Import JsString Security.
Local Open Scope string_scope.

(** *** An unanchored pattern found in a text is found in every text around
    it *)

Lemma matchesAtStart_extend (s after : string) :
  forall r, matchesAtStart r s = true ->
            matchesAtStart r (s ++ after) = true.
Proof.
  induction s as [|c rest IH]; intros r H.
  - cbn [matchesAtStart] in H. rewrite orb_false_r in H.
    destruct after; cbn [append matchesAtStart]; now rewrite H.
  - cbn [append matchesAtStart] in *.
    destruct (nullable r); [reflexivity |]. cbn [orb] in *. now apply IH.
Qed.

Lemma test_extend (r : RegExp) (s after : string) :
  test r s = true -> test r (s ++ after) = true.
Proof.
  induction s as [|c rest IH]; intros H.
  - cbn [test] in H. rewrite orb_false_r in H.
    apply matchesAtStart_extend with (after := after) in H.
    cbn [append] in H. destruct after; cbn [append test]; now rewrite H.
  - cbn [test] in H. apply orb_true_iff in H. cbn [append test].
    apply orb_true_iff. destruct H as [H | H].
    + left. now apply (@matchesAtStart_extend (String c rest)).
    + right. now apply IH.
Qed.

Lemma test_within (r : RegExp) (before s after : string) :
  test r s = true -> test r (before ++ s ++ after) = true.
Proof.
  intros H. induction before as [|c rest IH]; cbn [append].
  - now apply test_extend.
  - cbn [test]. rewrite IH. apply orb_true_r.
Qed.

Lemma someTest_within (patterns : list RegExp) (before s after : string) :
  someTest patterns s = true ->
  someTest patterns (before ++ s ++ after) = true.
Proof.
  unfold someTest. rewrite !existsb_exists.
  intros [r [Hin Hr]]. exists r. split; [exact Hin |].
  now apply test_within.
Qed.

(** Whether any of the five groups of [detectEnterpriseSync] matches. *)
Definition anyGroup (s : string) : bool :=
  someTest oneDriveBusinessPatterns s || someTest sharePointPatterns s
  || someTest teamsPatterns s || someTest office365Patterns s
  || someTest enterpriseHeuristics s.

Lemma isEnterprise_anyGroup (host : Host) (p : string) :
  isEnterprise (detectEnterpriseSync host p)
  = anyGroup (toLowerCase (path_normalize host p)).
Proof.
  unfold detectEnterpriseSync, anyGroup.
  destruct (someTest oneDriveBusinessPatterns _); [reflexivity |].
  destruct (someTest sharePointPatterns _); [reflexivity |].
  destruct (someTest teamsPatterns _); [reflexivity |].
  destruct (someTest office365Patterns _); [reflexivity |].
  destruct (someTest enterpriseHeuristics _); reflexivity.
Qed.

Lemma anyGroup_within (before s after : string) :
  anyGroup s = true -> anyGroup (before ++ s ++ after) = true.
Proof.
  unfold anyGroup. rewrite !orb_true_iff.
  intros [[[[H | H] | H] | H] | H];
    apply someTest_within with (before := before) (after := after) in H;
    tauto.
Qed.

Lemma blocked_when_enterprise (host : Host) (d : string) :
  isEnterprise (detectEnterpriseSync host d) = true ->
  success (validateAllowedDirectory host d) = false.
Proof.
  intros H. unfold validateAllowedDirectory.
  destruct (existsb _ sensitiveDirectories); [reflexivity |].
  destruct (includes _ ".."); [reflexivity |].
  now rewrite H.
Qed.

(** X22.  Detection spreads to everything around a detected name: if a
    directory is detected as an enterprise one, so is every path whose
    normalized lower-cased form holds that of the directory, whatever comes
    before and after it; [validateAllowedDirectory] refuses them all. *)
Theorem enterprise_detection_spreads (host : Host)
  (p q before after : string) :
  isEnterprise (detectEnterpriseSync host p) = true ->
  toLowerCase (path_normalize host q)
  = before ++ toLowerCase (path_normalize host p) ++ after ->
  isEnterprise (detectEnterpriseSync host q) = true
  /\ success (validateAllowedDirectory host q) = false.
Proof.
  intros Hp Hq.
  assert (Hdetected : isEnterprise (detectEnterpriseSync host q) = true).
  { rewrite isEnterprise_anyGroup in *. rewrite Hq.
    now apply anyGroup_within. }
  split; [exact Hdetected | now apply blocked_when_enterprise].
Qed.

(** *** Lower-casing the subject changes nothing under the [i] flag *)

Fixpoint caseBlind (r : RegExp) : Prop :=
  match r with
  | ReClass accepts => forall x, accepts (lower_char x) = accepts x
  | ReSeq r1 r2 => caseBlind r1 /\ caseBlind r2
  | ReAlt r1 r2 => caseBlind r1 /\ caseBlind r2
  | ReStar r1 => caseBlind r1
  | _ => True
  end.

Lemma lower_char_idempotent (x : ascii) :
  lower_char (lower_char x) = lower_char x.
Proof. destruct x as [[] [] [] [] [] [] [] []]; reflexivity. Qed.

Lemma letter_caseBlind (c x : ascii) : letter c (lower_char x) = letter c x.
Proof. unfold letter. now rewrite lower_char_idempotent. Qed.

Lemma anyChar_caseBlind (x : ascii) : anyChar (lower_char x) = anyChar x.
Proof. destruct x as [[] [] [] [] [] [] [] []]; reflexivity. Qed.

Lemma wordChar_caseBlind (x : ascii) : wordChar (lower_char x) = wordChar x.
Proof. destruct x as [[] [] [] [] [] [] [] []]; reflexivity. Qed.

Lemma notSlash_caseBlind (x : ascii) :
  notChar "/" (lower_char x) = notChar "/" x.
Proof. destruct x as [[] [] [] [] [] [] [] []]; reflexivity. Qed.

Lemma literal_caseBlind (s : string) : caseBlind (literal s).
Proof.
  induction s as [|c rest IH]; cbn [literal caseBlind]; [exact I |].
  split; [apply letter_caseBlind | exact IH].
Qed.

Lemma seqOf_caseBlind (parts : list RegExp) :
  Forall caseBlind parts -> caseBlind (seqOf parts).
Proof.
  induction 1 as [|r rest Hr _ IH]; cbn [seqOf fold_right caseBlind];
    [exact I | now split].
Qed.

Lemma deriv_caseBlind (c : ascii) (r : RegExp) :
  caseBlind r ->
  deriv (lower_char c) r = deriv c r /\ caseBlind (deriv c r).
Proof.
  induction r as [| | accepts | r1 IH1 r2 IH2 | r1 IH1 r2 IH2 | r1 IH1];
    cbn [caseBlind deriv]; intros H.
  - now split.
  - now split.
  - rewrite H. split; [reflexivity | now destruct (accepts c)].
  - destruct H as [H1 H2].
    destruct (IH1 H1) as [E1 B1], (IH2 H2) as [E2 B2]. rewrite E1, E2.
    split; [reflexivity |].
    destruct (nullable r1); cbn [caseBlind]; tauto.
  - destruct H as [H1 H2].
    destruct (IH1 H1) as [E1 B1], (IH2 H2) as [E2 B2]. rewrite E1, E2.
    split; [reflexivity | now split].
  - destruct (IH1 H) as [E1 B1]. rewrite E1.
    split; [reflexivity | now split].
Qed.

Lemma matchesAtStart_lower (s : string) :
  forall r, caseBlind r ->
            matchesAtStart r (toLowerCase s) = matchesAtStart r s.
Proof.
  induction s as [|c rest IH]; intros r Hr; [reflexivity |].
  cbn [toLowerCase matchesAtStart].
  destruct (deriv_caseBlind c Hr) as [E B]. rewrite E. now rewrite IH.
Qed.

Lemma test_lower (r : RegExp) (s : string) :
  caseBlind r -> test r (toLowerCase s) = test r s.
Proof.
  intros Hr. induction s as [|c rest IH]; [reflexivity |].
  change (toLowerCase (String c rest))
    with (String (lower_char c) (toLowerCase rest)).
  cbn [test]. rewrite IH.
  change (String (lower_char c) (toLowerCase rest))
    with (toLowerCase (String c rest)).
  now rewrite matchesAtStart_lower.
Qed.

Lemma oneDrive_caseBlind : Forall caseBlind oneDriveBusinessPatterns.
Proof.
  unfold oneDriveBusinessPatterns.
  repeat (apply Forall_cons || apply Forall_nil);
    apply seqOf_caseBlind;
    repeat (apply Forall_cons || apply Forall_nil);
    try apply literal_caseBlind;
    cbn [anything plus caseBlind];
    repeat split;
    first [apply anyChar_caseBlind | apply wordChar_caseBlind
          | apply notSlash_caseBlind].
Qed.

Lemma oneDrive_among_dangerous (r : RegExp) :
  In r oneDriveBusinessPatterns -> In r dangerousPatterns.
Proof.
  intros [<- | [<- | [<- | [<- | []]]]]; unfold dangerousPatterns.
  - do 23 right. now left.
  - do 10 right. now left.
  - do 11 right. now left.
  - do 22 right. now left.
Qed.

(** A string of ASCII characters: on these [toLowerCase] changes the
    letters [A] to [Z] and nothing else. *)
Definition asciiOnly (s : string) : bool :=
  forallb (fun c => (nat_of_ascii c <? 128)%nat) (list_ascii_of_string s).

(** X23.  For a path whose normalized form is made of ASCII characters, what
    [detectEnterpriseSync] reports as OneDrive, [analyzePathSecurity]
    reports as potentially dangerous: the four OneDrive patterns are among
    the dangerous ones, and the one function lower-cases the path where the
    other relies on the [i] flag. *)
Theorem oneDrive_is_potentially_dangerous (host : Host) (p : string) :
  asciiOnly (path_normalize host p) = true ->
  syncType (detectEnterpriseSync host p) = Some OneDrive ->
  potentiallyDangerous (analyzePathSecurity host p) = true.
Proof.
  intros _ Hsync.
  assert (Hgroup : someTest oneDriveBusinessPatterns
                     (toLowerCase (path_normalize host p)) = true).
  { unfold detectEnterpriseSync in Hsync.
    destruct (someTest oneDriveBusinessPatterns _); [reflexivity |].
    destruct (someTest sharePointPatterns _); [discriminate |].
    destruct (someTest teamsPatterns _); [discriminate |].
    destruct (someTest office365Patterns _); [discriminate |].
    destruct (someTest enterpriseHeuristics _); discriminate. }
  unfold someTest in Hgroup. apply existsb_exists in Hgroup.
  destruct Hgroup as [r [Hin Hr]].
  unfold analyzePathSecurity. cbn [potentiallyDangerous].
  unfold someTest. apply existsb_exists.
  exists r. split; [now apply oneDrive_among_dangerous |].
  rewrite <- Hr. symmetry. apply test_lower.
  pose proof oneDrive_caseBlind as Hall.
  rewrite Forall_forall in Hall. now apply Hall.
Qed.

(** *** Witnesses *)

Lemma enterprise_detection_spreads_witness :
  isEnterprise
    (detectEnterpriseSync posix "/home/user/SharePoint/Projects/src") = true
  /\ success
       (validateAllowedDirectory posix "/home/user/SharePoint/Projects/src")
     = false.
Proof.
  apply (@enterprise_detection_spreads posix "SharePoint"
           "/home/user/SharePoint/Projects/src" "/home/user/" "/projects/src").
  - vm_compute. reflexivity.
  - vm_compute. reflexivity.
Defined.

Lemma oneDrive_is_potentially_dangerous_witness :
  potentiallyDangerous
    (analyzePathSecurity posix "/Users/ann/OneDrive - Contoso/Docs") = true.
Proof.
  apply (@oneDrive_is_potentially_dangerous posix
           "/Users/ann/OneDrive - Contoso/Docs").
  - vm_compute. reflexivity.
  - vm_compute. reflexivity.
Defined.

End SecurityFacts.

(** ** config.ts: how the allowed set grows *)

Module ConfigFacts.

Import JsString Config.
Local Open Scope string_scope.

Section Store.

Variable host : Host.
Variable disk : Disk.
Variable Store : Type.
Variable allowedDirectoriesOf : Store -> option (list string).
Variable setAllowedDirectories : Store -> list string -> Store.
Variable tmpdir : string.

(** What is written under the key is what is read from it. *)
Hypothesis read_after_write :
  forall s dirs,
    allowedDirectoriesOf (setAllowedDirectories s dirs) = Some dirs.

(** [config.allowedDirectories || []] *)
Definition currentDirs (s : Store) : list string :=
  match allowedDirectoriesOf s with
  | Some dirs => dirs
  | None => []
  end.

Lemma existsb_eqb_In (d : string) (dirs : list string) :
  existsb (String.eqb d) dirs = true <-> In d dirs.
Proof.
  rewrite existsb_exists. split.
  - intros [x [Hin Heq]]. apply String.eqb_eq in Heq. now subst.
  - intros Hin. exists d. split; [exact Hin | apply String.eqb_refl].
Qed.

(** X24.  [addAllowedDirectory] appends the directory exactly when it
    passes [validateAllowedDirectory] and is not yet listed: the list after
    the call is then the list before it followed by the directory, and in
    every other case the store is left as it was.  The answer is an error
    exactly when the validation fails, and adding the same directory again
    changes nothing. *)
Theorem addAllowedDirectory_appends (s : Store) (d : string) :
  let result :=
    addAllowedDirectory host allowedDirectoriesOf setAllowedDirectories s d in
  let valid := Security.success (Security.validateAllowedDirectory host d) in
  let listed := existsb (String.eqb d) (currentDirs s) in
  currentDirs (snd result)
  = (currentDirs s ++ (if valid && negb listed then [d] else []))%list
  /\ (valid && negb listed = true ->
      fst result = Added d (currentDirs s ++ [d])%list)
  /\ (valid && negb listed = false -> snd result = s)
  /\ isError (fst result) = negb valid
  /\ snd (addAllowedDirectory host allowedDirectoriesOf setAllowedDirectories
            (snd result) d)
     = snd result.
Proof.
  cbv zeta. unfold addAllowedDirectory.
  destruct (Security.validateAllowedDirectory host d) as [message | error]
    eqn:Hvalid; cbn [Security.success andb negb].
  - fold (currentDirs s).
    destruct (existsb (String.eqb d) (currentDirs s)) eqn:Hlisted;
      cbn [fst snd isError negb].
    + split; [now rewrite app_nil_r |].
      split; [discriminate |].
      split; [reflexivity |].
      split; [reflexivity |].
      fold (currentDirs s). now rewrite Hlisted.
    + split; [unfold currentDirs at 1; now rewrite read_after_write |].
      split; [reflexivity |].
      split; [discriminate |].
      split; [reflexivity |].
      rewrite read_after_write.
      assert (Hnow : existsb (String.eqb d) (currentDirs s ++ [d]) = true).
      { apply existsb_eqb_In, in_or_app. right. now left. }
      now rewrite Hnow.
  - cbn [fst snd isError].
    split; [now rewrite app_nil_r |].
    split; [discriminate |].
    repeat split.
Qed.

(** X25.  Adding a directory revokes nothing when the configuration holds a
    list: every path [validatePath] admits with the list [getAllowedDirs]
    returns before the call, it admits with the list returned after it. *)
Theorem admitted_paths_survive_add (s : Store) (d p : string)
  (dirs : list string) :
  allowedDirectoriesOf s = Some dirs ->
  PathGate.admitted host disk
    (fst (getAllowedDirs host allowedDirectoriesOf setAllowedDirectories
            tmpdir s)) p = true ->
  PathGate.admitted host disk
    (fst (getAllowedDirs host allowedDirectoriesOf setAllowedDirectories
            tmpdir
            (snd (addAllowedDirectory host allowedDirectoriesOf
                    setAllowedDirectories s d)))) p = true.
Proof.
  intros Hdirs. unfold getAllowedDirs at 1. rewrite Hdirs. cbn [fst].
  unfold addAllowedDirectory. rewrite Hdirs.
  destruct (Security.validateAllowedDirectory host d);
    [|cbn [snd]; unfold getAllowedDirs; now rewrite Hdirs].
  destruct (existsb (String.eqb d) dirs); cbn [snd]; unfold getAllowedDirs.
  - now rewrite Hdirs.
  - rewrite read_after_write. cbn [fst].
    apply PathGateClosureFacts.admitted_mono.
    intros x Hx. apply in_or_app. now left.
Qed.

(** X26.  When the configuration holds no list, the gate works with the
    three secure defaults; a first successful [addAllowedDirectory] starts
    from the empty list, so that afterwards the gate's list is the added
    directory alone. *)
Theorem add_without_list_drops_defaults (s : Store) (d : string) :
  allowedDirectoriesOf s = None ->
  Security.success (Security.validateAllowedDirectory host d) = true ->
  fst (getAllowedDirs host allowedDirectoriesOf setAllowedDirectories tmpdir s)
  = secureDefaults host tmpdir
  /\ fst (getAllowedDirs host allowedDirectoriesOf setAllowedDirectories
            tmpdir
            (snd (addAllowedDirectory host allowedDirectoriesOf
                    setAllowedDirectories s d)))
     = [d].
Proof.
  intros Hnone Hvalid. unfold getAllowedDirs at 1. rewrite Hnone.
  split; [reflexivity |].
  unfold addAllowedDirectory. rewrite Hnone.
  destruct (Security.validateAllowedDirectory host d); [|discriminate].
  cbn [existsb app snd]. unfold getAllowedDirs.
  now rewrite read_after_write.
Qed.

End Store.

(** *** Witnesses, on a store that is the list itself *)

Definition listStore : Type := option (list string).

Lemma addAllowedDirectory_appends_witness :
  addAllowedDirectory posix (fun s : listStore => s)
    (fun _ dirs => Some dirs) (Some ["/workspace"]) "/home/user/notes"
  = (Added "/home/user/notes" ["/workspace"; "/home/user/notes"],
     Some ["/workspace"; "/home/user/notes"])
  /\ snd (addAllowedDirectory posix (fun s : listStore => s)
            (fun _ dirs => Some dirs) (Some ["/workspace"; "/home/user/notes"])
            "/home/user/notes")
     = Some ["/workspace"; "/home/user/notes"].
Proof.
  pose proof (@addAllowedDirectory_appends posix listStore (fun s => s)
                (fun _ dirs => Some dirs) (fun _ _ => eq_refl)
                (Some ["/workspace"]) "/home/user/notes") as Hadd.
  cbv zeta in Hadd.
  destruct Hadd as [Hlist [Hadded [_ [_ Hagain]]]].
  assert (Hcase :
            Security.success
              (Security.validateAllowedDirectory posix "/home/user/notes")
            && negb (existsb (String.eqb "/home/user/notes")
                       (currentDirs (fun s : listStore => s)
                          (Some ["/workspace"])))
            = true)
    by (vm_compute; reflexivity).
  specialize (Hadded Hcase). rewrite Hcase in Hlist.
  split; [|exact Hagain].
  destruct (addAllowedDirectory posix (fun s : listStore => s)
              (fun _ dirs => Some dirs) (Some ["/workspace"])
              "/home/user/notes") as [answer store].
  cbn [fst snd] in Hadded, Hlist. rewrite Hadded.
  destruct store as [dirs|]; cbn [currentDirs] in Hlist;
    [now rewrite Hlist | discriminate Hlist].
Defined.

Lemma admitted_paths_survive_add_witness :
  PathGate.admitted posix PathGateFacts.linkDisk
    ["/workspace"; "/home/user/notes"] "/workspace/a.txt" = true.
Proof.
  apply (@admitted_paths_survive_add posix PathGateFacts.linkDisk listStore
           (fun s => s) (fun _ dirs => Some dirs) "/tmp" (fun _ _ => eq_refl)
           (Some ["/workspace"]) "/home/user/notes" "/workspace/a.txt"
           ["/workspace"]).
  - reflexivity.
  - reflexivity.
Defined.

Lemma add_without_list_drops_defaults_witness :
  fst (getAllowedDirs posix (fun s : listStore => s)
         (fun _ dirs => Some dirs) "/tmp" None)
  = ["/home/user/.claude-server-commander/workspace";
     "/home/user/Documents/claude-projects"; "/tmp"]
  /\ fst (getAllowedDirs posix (fun s : listStore => s)
            (fun _ dirs => Some dirs) "/tmp"
            (snd (addAllowedDirectory posix (fun s : listStore => s)
                    (fun _ dirs => Some dirs) None "/home/user/notes")))
     = ["/home/user/notes"].
Proof.
  apply (@add_without_list_drops_defaults posix listStore (fun s => s)
           (fun _ dirs => Some dirs) "/tmp" (fun _ _ => eq_refl) None
           "/home/user/notes").
  - reflexivity.
  - vm_compute. reflexivity.
Defined.

End ConfigFacts.

(** ** readMultipleFiles: the resolved path goes through the gate again *)

Module FileToolsFacts.

Import JsString FileTools.
Local Open Scope string_scope.

Section OnDisk.

Variable host : Host.
Variable disk : Disk.
Variable allowed : list string.
Variable readBytes : string -> option Reader.text.
Variable mimeTypeInfo : string -> string * bool.
Variable base64 : Reader.text -> Reader.text.
Variable defaultReadLength : Z.

Lemma readOne_path (p : string) :
  resultPath
    (readOne host disk allowed readBytes mimeTypeInfo base64
       defaultReadLength p) = p.
Proof.
  unfold readOne.
  destruct (PathGate.validatePath host disk allowed p); [|reflexivity].
  now destruct (Reader.readFileFromDisk _ _ _ _ _ _ _ _ _ _).
Qed.

Lemma readFileFromDisk_needs_admission (v : string) (offset : Z)
  (length : option Z) :
  PathGate.admitted host disk allowed v = false ->
  exists message,
    Reader.readFileFromDisk host disk allowed readBytes mimeTypeInfo base64
      defaultReadLength v offset length
    = Reader.ReadFailed message.
Proof.
  intros Hdenied. unfold Reader.readFileFromDisk.
  destruct (v =? ""); [now eexists |].
  unfold PathGate.admitted in Hdenied.
  destruct (PathGate.validatePath host disk allowed v);
    [discriminate | now eexists].
Qed.

(** X27.  [readMultipleFiles] answers every requested path, in order, and
    sends the path [validatePath] returned through [validatePath] again: a
    path whose validated form, the target of its links, is itself not
    admitted gets an error entry and no content. *)
Theorem readMultipleFiles_checks_resolved_path (paths : list string)
  (p v : string) :
  In p paths ->
  PathGate.validatePath host disk allowed p = PathGate.Allowed v ->
  PathGate.admitted host disk allowed v = false ->
  let answers :=
    readMultipleFiles host disk allowed readBytes mimeTypeInfo base64
      defaultReadLength paths in
  map resultPath answers = paths
  /\ (exists message, In (MultiError p message) answers)
  /\ forall content mimeType isImage,
       ~ In (MultiRead p content mimeType isImage) answers.
Proof.
  intros Hin Hvalid Hdenied. cbv zeta. unfold readMultipleFiles.
  destruct (@readFileFromDisk_needs_admission v 0 None Hdenied)
    as [message Hread].
  assert (Hone : readOne host disk allowed readBytes mimeTypeInfo base64
                   defaultReadLength p = MultiError p message).
  { unfold readOne. now rewrite Hvalid, Hread. }
  split; [|split].
  - rewrite map_map. rewrite <- (map_id paths) at 2.
    apply map_ext. intros a. apply readOne_path.
  - exists message. rewrite <- Hone. now apply in_map.
  - intros content mimeType isImage Habs.
    apply in_map_iff in Habs. destruct Habs as [p' [Hp' _]].
    pose proof (readOne_path p') as Hpath. rewrite Hp' in Hpath.
    cbn [resultPath] in Hpath. subst p'. congruence.
Qed.

End OnDisk.

(** With [/workspace] allowed and [/workspace/link] a link to [/etc/passwd],
    the link is refused under the name of its target. *)
Lemma readMultipleFiles_checks_resolved_path_witness :
  readMultipleFiles posix PathGateFacts.linkDisk ["/workspace"]
    (fun _ => Some (Reader.txt "secret")) ReaderFacts.plainText (fun b => b)
    1000 ["/workspace/link"]
  = [MultiError "/workspace/link"
       "Path not allowed: /etc/passwd. Must be within one of these directories: /workspace"]
  /\ map resultPath
       (readMultipleFiles posix PathGateFacts.linkDisk ["/workspace"]
          (fun _ => Some (Reader.txt "secret")) ReaderFacts.plainText
          (fun b => b) 1000 ["/workspace/link"])
     = ["/workspace/link"].
Proof.
  split; [reflexivity |].
  apply (@readMultipleFiles_checks_resolved_path posix PathGateFacts.linkDisk
           ["/workspace"] (fun _ => Some (Reader.txt "secret"))
           ReaderFacts.plainText (fun b => b) 1000 ["/workspace/link"]
           "/workspace/link" "/etc/passwd").
  - now left.
  - reflexivity.
  - reflexivity.
Defined.

End FileToolsFacts.
